(** * live-queries-client: the SSE stream engine and the subscription reconciler

    A shallow embedding of [src/sse.ts] and [src/subscription.ts].

    - JavaScript strings are sequences of UTF-16 code units ([list N]).
    - JavaScript objects used as maps are [gmap]s of their own properties;
      what a lookup finds through [Object.prototype] is a parameter
      ([proto_has]).
    - The engine is a state machine driven by the transport's callbacks; every
      dispatch, listener call and transport command is recorded in a log.
    - Exceptions are explicit: an operation either returns or throws, and
      hands back the state it left behind in both cases.
    - The transport, the listeners, [JSON.parse] and [applyPatch] are
      collaborators from outside: the transport's callbacks are the inputs of
      the machine, the others are parameters.  A listener acts on a state of
      its own and does not call back into the engine while it runs, and the
      transport does not call back while [abort] runs. *)

From Stdlib Require Import String Ascii NArith ZArith List Bool Lia.
From stdpp Require Import base option list gmap.
Import ListNotations.

Local Open Scope Z_scope.
Local Open Scope N_scope.
Local Open Scope nat_scope.
Local Open Scope list_scope.

(** ** JavaScript strings *)

Module JsString.

Abbreviation jsstring := (list N).

(** A literal, one code unit per character. *)
Fixpoint u (s : string) : jsstring :=
  match s with
  | EmptyString => []
  | String c r => N_of_ascii c :: u r
  end.
Arguments u : simpl never.

Definition LF : N := 10%N.
Definition CR : N := 13%N.

(** WhiteSpace and LineTerminator of ECMAScript, which is what [trim],
    [trimEnd] and [trimLeft] strip. *)
Definition is_ws (c : N) : bool :=
  existsb (N.eqb c)
    [9; 10; 11; 12; 13; 32; 160; 5760; 8232; 8233; 8239; 8287; 12288; 65279]%N
  || (N.leb 8192 c && N.leb c 8202).

Fixpoint trimLeft (s : jsstring) : jsstring :=
  match s with
  | [] => []
  | c :: r => if is_ws c then trimLeft r else s
  end.

Fixpoint trimEnd (s : jsstring) : jsstring :=
  match s with
  | [] => []
  | c :: r =>
      match trimEnd r with
      | [] => if is_ws c then [] else [c]
      | r' => c :: r'
      end
  end.

Definition trim (s : jsstring) : jsstring := trimEnd (trimLeft s).

(** [s.indexOf(c)]: the first position of [c], or -1. *)
Fixpoint indexOf (c : N) (s : jsstring) : Z :=
  match s with
  | [] => (-1)%Z
  | x :: r =>
      if N.eqb x c then 0%Z
      else let i := indexOf c r in
           if (i <? 0)%Z then (-1)%Z else (i + 1)%Z
  end.

(** [s.substring(a)] and [s.substring(0, b)] for [0 <= a, b]. *)
Definition substring_from (a : nat) (s : jsstring) : jsstring := drop a s.
Definition substring_to (b : nat) (s : jsstring) : jsstring := take b s.

Fixpoint starts_with (p s : jsstring) : bool :=
  match p, s with
  | [], _ => true
  | a :: p', b :: s' => N.eqb a b && starts_with p' s'
  | _ :: _, [] => false
  end.

(** *** [String.prototype.split] with a regular expression

    A matcher is the regular expression tried at the head of the rest of
    the subject: on success the capture groups and the number of code units
    consumed.  Both separators of the source consume at least one unit. *)
Definition Matcher := jsstring -> option (list jsstring * nat).

(** [skip] counts the units of the last match that are still to be stepped
    over; [piece] is the text since the last match, reversed. *)
Fixpoint split_go (m : Matcher) (s : jsstring) (skip : nat) (piece : jsstring)
  : list jsstring :=
  match s with
  | [] => [rev piece]
  | c :: r =>
      match skip with
      | S k => split_go m r k piece
      | O =>
          match m s with
          | Some (caps, S k) => rev piece :: caps ++ split_go m r k []
          | _ => split_go m r 0 (c :: piece)
          end
      end
  end.

Definition regex_split (m : Matcher) (s : jsstring) : list jsstring :=
  split_go m s 0 [].

(** The alternatives of an alternation that match at the head of [s], in
    the order the backtracking matcher tries them. *)
Definition alts_at (alts : list jsstring) (s : jsstring) : list jsstring :=
  List.filter (fun a => starts_with a s) alts.

(** [/\n|\r\n|\r/] *)
Definition line_break : Matcher := fun s =>
  match alts_at [[LF]; [CR; LF]; [CR]] s with
  | a :: _ => Some ([], length a)
  | [] => None
  end.

(** [/(\r\n|\r|\n){2}/g]: the group is matched twice, with backtracking
    into the first iteration; the capture is the text of the second. *)
Definition blank_line : Matcher := fun s =>
  let alts := [[CR; LF]; [CR]; [LF]] in
  head (flat_map
          (fun a1 =>
             List.map (fun a2 => ([a2], length a1 + length a2))
                      (alts_at alts (drop (length a1) s)))
          (alts_at alts s)).

End JsString.
Import JsString.

(** ** Events *)

Inductive XHRStates := INITIALIZING | CONNECTING | OPEN | CLOSED.

Global Instance XHRStates_eq_dec : EqDecision XHRStates.
Proof. solve_decision. Defined.

(** What the engine attaches to a [CustomEvent] after creating it. *)
Inductive Attached :=
| Nothing                                        (* [open], [abort] *)
| ReadyState (readyState : XHRStates)            (* [readystatechange] *)
| Reason                                         (* [error]: the transport's event *)
| Data (data : jsstring) (id : option jsstring). (* a parsed chunk; [id] may be null *)

Record CustomEvent := {
  type : jsstring;
  attached : Attached;
  defaultPrevented : bool
}.

Definition new_CustomEvent (t : jsstring) (a : Attached) : CustomEvent :=
  {| type := t; attached := a; defaultPrevented := false |}.

(** ** The chunk parser: [SSE._parseEventChunk] *)

Module Parser.

(** The local object [e]: own properties, each null or a string. *)
Abbreviation Fields := (gmap jsstring (option jsstring)).

Section WithPrototype.

(** The property names that a lookup on a plain object finds on
    [Object.prototype] ([toString], [constructor], [__proto__], ...). *)
Variable proto_has : jsstring -> bool.

Definition FIELD_SEPARATOR : N := 58%N.

(** [{ id: null, retry: null, data: '', event: 'message' }] *)
Definition e_init : Fields :=
  <[u "event" := Some (u "message")]>
    (<[u "data" := Some []]>
       (<[u "retry" := None]>
          (<[u "id" := None]> ∅))).

(** [field in e] looks at own properties and then at the prototype. *)
Definition field_in (field : jsstring) (e : Fields) : bool :=
  bool_decide (is_Some (e !! field)) || proto_has field.

(** A property value converted to a string, as [+] and [new CustomEvent]
    do: the lookup may find nothing ([undefined]) or [null]. *)
Definition to_string (v : option (option jsstring)) : jsstring :=
  match v with
  | Some (Some s) => s
  | Some None => u "null"
  | None => u "undefined"
  end.

(** [e[field] = value].  The only inherited property with a setter is
    [__proto__], and that setter ignores a string. *)
Definition assign (field value : jsstring) (e : Fields) : Fields :=
  if bool_decide (field = u "__proto__") then e
  else <[field := Some value]> e.

(** The body of the [forEach] over the lines of the chunk. *)
Definition parse_line (e : Fields) (line : jsstring) : Fields :=
  let line := trimEnd line in
  let index := indexOf FIELD_SEPARATOR line in
  if (index <=? 0)%Z then e
  else
    let field := substring_to (Z.to_nat index) line in
    if negb (field_in field e) then e
    else
      let value := trimLeft (substring_from (Z.to_nat (index + 1)) line) in
      if bool_decide (field = u "data")
      then <[field := Some (to_string (e !! field) ++ value)]> e
      else assign field value e.

Definition parse_lines (lines : list jsstring) : Fields :=
  foldl parse_line e_init lines.

(** [new CustomEvent(e.event)] with [data] and [id] copied over. *)
Definition event_of (e : Fields) : CustomEvent :=
  new_CustomEvent (to_string (e !! u "event"))
    (Data (to_string (e !! u "data")) (default None (e !! u "id"))).

(** [null] is [None]. *)
Definition _parseEventChunk (chunk : jsstring) : option CustomEvent :=
  match chunk with
  | [] => None
  | _ => Some (event_of (parse_lines (regex_split line_break chunk)))
  end.

End WithPrototype.
End Parser.

(** ** The wire format, in the words of the specification *)

Module Wire.

Definition recognized : list jsstring := [u "id"; u "event"; u "data"; u "retry"].

(** The field name of a line: the text before the first separator, when
    there is a separator and it is not the first character. *)
Definition field_name (line : jsstring) : option jsstring :=
  let i := indexOf Parser.FIELD_SEPARATOR line in
  if (0 <? i)%Z then Some (take (Z.to_nat i) line) else None.

(** The value of a line: the text after the first separator with leading
    whitespace stripped, the line being taken without its trailing
    whitespace. *)
Definition field_value (line : jsstring) : jsstring :=
  let i := indexOf Parser.FIELD_SEPARATOR line in
  trimLeft (drop (Z.to_nat (i + 1)) (trimEnd line)).

Definition is_line_of (name line : jsstring) : bool :=
  bool_decide (field_name line = Some name).

(** The values of the [data] lines, in order, with nothing in between. *)
Definition data_of_lines (lines : list jsstring) : jsstring :=
  concat (List.map field_value (List.filter (is_line_of (u "data")) lines)).

Definition lines_of (chunk : jsstring) : list jsstring :=
  regex_split line_break chunk.

(** The four properties of the literal are own properties of the
    accumulator. *)
Definition present (e : Parser.Fields) : Prop :=
  forall f, f ∈ recognized -> is_Some (e !! f).

(** Two accumulators with the same four properties. *)
Definition agree (e1 e2 : Parser.Fields) : Prop :=
  forall f, f ∈ recognized -> e1 !! f = e2 !! f.

End Wire.

(** [Object.prototype] of a standard runtime. *)
Definition Object_prototype : list jsstring :=
  List.map u ["constructor"; "__defineGetter__"; "__defineSetter__";
              "hasOwnProperty"; "__lookupGetter__"; "__lookupSetter__";
              "isPrototypeOf"; "propertyIsEnumerable"; "toString"; "valueOf";
              "__proto__"; "toLocaleString"]%string.

Definition standard_proto (name : jsstring) : bool :=
  bool_decide (name ∈ Object_prototype).

(** ** The stream engine: class [SSE] *)

Inductive SSEOptionsMethod := GET | POST.

Record SSEOptions := {
  headers : option (gmap jsstring jsstring);
  withCredentials : option bool;
  method : SSEOptionsMethod;
  payload : option jsstring
}.

(** A listener is a function reference; [indexOf] and [!==] compare
    references. *)
Abbreviation Callback := nat.

Inductive Exn :=
| TypeError           (* a method called on a value that does not have it *)
| SyntaxError         (* [JSON.parse] *)
| Error (message : jsstring)
| PatchError          (* thrown inside [applyPatch] *)
| Raised (n : nat).   (* thrown by code of the caller *)

Inductive Result (A : Type) :=
| Returned (a : A)
| Thrown (x : Exn).
Arguments Returned {A} a.
Arguments Thrown {A} x.

(** The transport as a callback finds it. *)
Record XMLHttpRequest := {
  status : Z;
  responseText : jsstring;
  xhr_readyState : Z
}.

Definition DONE : Z := 4%Z.

(** What the engine does that the outside can see, in the order it happens. *)
Inductive Effect :=
| Dispatch (e : CustomEvent)                 (* [dispatchEvent(e)] is entered *)
| Call (f : Callback) (e : CustomEvent)      (* a handler or listener is called *)
| XhrOpen (m : SSEOptionsMethod) (url : jsstring)
| XhrSetRequestHeader (name value : jsstring)
| XhrSetRequestHeaders (hs : gmap jsstring jsstring)  (* the [for .. in] loop *)
| XhrWithCredentials (b : bool)
| XhrSend (body : option jsstring)
| XhrAbort.

Record SSE := {
  url : jsstring;
  options : SSEOptions;
  listeners : gmap jsstring (list Callback);
  on_handlers : gmap jsstring Callback;  (* own properties [on<type>] assigned by the user *)
  readyState : XHRStates;
  chunk : jsstring;
  progress : nat;
  xhr : bool                             (* whether [this.xhr] holds the transport *)
}.

Definition set_listeners (l : gmap jsstring (list Callback)) (s : SSE) : SSE :=
  {| url := url s; options := options s; listeners := l;
     on_handlers := on_handlers s; readyState := readyState s;
     chunk := chunk s; progress := progress s; xhr := xhr s |}.
Definition set_readyState (r : XHRStates) (s : SSE) : SSE :=
  {| url := url s; options := options s; listeners := listeners s;
     on_handlers := on_handlers s; readyState := r;
     chunk := chunk s; progress := progress s; xhr := xhr s |}.
Definition set_chunk (c : jsstring) (s : SSE) : SSE :=
  {| url := url s; options := options s; listeners := listeners s;
     on_handlers := on_handlers s; readyState := readyState s;
     chunk := c; progress := progress s; xhr := xhr s |}.
Definition set_progress (p : nat) (s : SSE) : SSE :=
  {| url := url s; options := options s; listeners := listeners s;
     on_handlers := on_handlers s; readyState := readyState s;
     chunk := chunk s; progress := p; xhr := xhr s |}.
Definition set_xhr (x : bool) (s : SSE) : SSE :=
  {| url := url s; options := options s; listeners := listeners s;
     on_handlers := on_handlers s; readyState := readyState s;
     chunk := chunk s; progress := progress s; xhr := x |}.

(** The constructor. [options.method] is one of the two non-empty strings of
    the enumeration, so only the check of the url can fail. *)
Definition new_SSE (url : jsstring) (options : SSEOptions) : Result SSE :=
  match url with
  | [] => Thrown (Error (u "url cannot be null"))
  | _ => Returned {| url := url; options := options; listeners := ∅;
                     on_handlers := ∅; readyState := INITIALIZING;
                     chunk := []; progress := 0; xhr := false |}
  end.

Module Engine.
Section WithRuntime.

Variable proto_has : jsstring -> bool.

(** The listeners live outside the engine: [W] is their state and
    [behaviour f e w] is what calling [f] on [e] does to it. A listener
    returns whether it leaves the event default-prevented, or throws. *)
Variable W : Type.
Variable behaviour : Callback -> CustomEvent -> W -> Result bool * W.

Record Machine := {
  this : SSE;
  world : W;
  log : list Effect
}.

Definition M (A : Type) : Type := Machine -> Result A * Machine.

Definition ret {A} (a : A) : M A := fun m => (Returned a, m).
Definition throw {A} (x : Exn) : M A := fun m => (Thrown x, m).
Definition bind {A B} (c : M A) (k : A -> M B) : M B := fun m =>
  match c m with
  | (Returned a, m') => k a m'
  | (Thrown x, m') => (Thrown x, m')
  end.

Declare Scope sse_scope.
Delimit Scope sse_scope with sse.
Notation "x <- c ;; k" := (bind c (fun x => k))
  (at level 100, c at next level, right associativity) : sse_scope.
Notation "c ;; k" := (bind c (fun _ => k))
  (at level 100, right associativity) : sse_scope.
Local Open Scope sse_scope.

Definition get_this : M SSE := fun m => (Returned (this m), m).
Definition update (f : SSE -> SSE) : M unit := fun m =>
  (Returned tt, {| this := f (this m); world := world m; log := log m |}).
Definition tell (x : Effect) : M unit := fun m =>
  (Returned tt, {| this := this m; world := world m; log := log m ++ [x] |}).

Fixpoint forEach {A} (f : A -> M unit) (l : list A) : M unit :=
  match l with
  | [] => ret tt
  | a :: r => f a ;; forEach f r
  end.

(** *** The listener registry *)

(** [this.listeners[type]]: an own property is an array of listeners;
    otherwise the lookup may end on [Object.prototype], whose values are
    functions (or the prototype itself): truthy, and without the methods
    of arrays. *)
Inductive Slot :=
| Own (cbs : list Callback)
| Inherited
| Undefined.

Definition slot (t : jsstring) (s : SSE) : Slot :=
  match listeners s !! t with
  | Some cbs => Own cbs
  | None => if proto_has t then Inherited else Undefined
  end.

(** An inherited value is stored back by the first line and then has no
    [indexOf]: the call throws.  The property it leaves behind behaves
    like the inherited one in every method below, so it is not recorded. *)
Definition addEventListener (t : jsstring) (listener : Callback) : M unit :=
  s <- get_this ;;
  match slot t s with
  | Own cbs =>
      if bool_decide (listener ∈ cbs) then ret tt
      else update (set_listeners (<[t := cbs ++ [listener]]> (listeners s)))
  | Undefined => update (set_listeners (<[t := [listener]]> (listeners s)))
  | Inherited => throw TypeError
  end.

Definition removeEventListener (t : jsstring) (listener : Callback) : M unit :=
  s <- get_this ;;
  match slot t s with
  | Undefined => ret tt
  | Inherited => throw TypeError
  | Own cbs =>
      let filteredListeners :=
        List.filter (fun lis => negb (bool_decide (lis = listener))) cbs in
      match filteredListeners with
      | [] => update (set_listeners (delete t (listeners s)))
      | _ => update (set_listeners (<[t := filteredListeners]> (listeners s)))
      end
  end.

(** *** Dispatch *)

(** The event after a call that may have marked it: the flag stays up once
    it is up. *)
Definition mark (e : CustomEvent) (prevented : bool) : CustomEvent :=
  {| type := type e; attached := attached e;
     defaultPrevented := defaultPrevented e || prevented |}.

(** Calling a handler or listener on the event; the event comes back with
    its flag as the call left it. *)
Definition invoke (f : Callback) (e : CustomEvent) : M CustomEvent :=
  tell (Call f e) ;;
  fun m =>
    match behaviour f e (world m) with
    | (Returned prevented, w) =>
        (Returned (mark e prevented),
         {| this := this m; world := w; log := log m |})
    | (Thrown x, w) =>
        (Thrown x, {| this := this m; world := w; log := log m |})
    end.

(** [Array.prototype.every] with the callback of [dispatchEvent]. *)
Fixpoint every (cbs : list Callback) (e : CustomEvent) : M bool :=
  match cbs with
  | [] => ret true
  | callback :: rest =>
      e' <- invoke callback e ;;
      if defaultPrevented e' then ret false else every rest e'
  end.

Definition dispatchEvent (e : CustomEvent) : M bool :=
  tell (Dispatch e) ;;
  s <- get_this ;;
  match on_handlers s !! type e with
  | Some onHandler =>
      e' <- invoke onHandler e ;;
      if defaultPrevented e' then ret false
      else
        match slot (type e) s with
        | Own cbs => every cbs e'
        | Inherited => throw TypeError
        | Undefined => ret true
        end
  | None =>
      match slot (type e) s with
      | Own cbs => every cbs e
      | Inherited => throw TypeError
      | Undefined => ret true
      end
  end.

(** *** Life cycle *)

Definition _setReadyState (state : XHRStates) : M unit :=
  let event := new_CustomEvent (u "readystatechange") (ReadyState state) in
  update (set_readyState state) ;;
  dispatchEvent event ;;
  ret tt.

(** [headers] of the options may be missing: the [for .. in] loop then
    has nothing to go through. *)
Definition stream : M unit :=
  _setReadyState CONNECTING ;;
  s <- get_this ;;
  tell (XhrOpen (method (options s)) (url s)) ;;
  tell (XhrSetRequestHeader (u "Accept") (u "text/event-stream")) ;;
  tell (XhrSetRequestHeaders (default ∅ (headers (options s)))) ;;
  tell (XhrWithCredentials (default false (withCredentials (options s)))) ;;
  tell (XhrSend (payload (options s))) ;;
  update (set_xhr true).

Definition close : M unit :=
  s <- get_this ;;
  if bool_decide (readyState s = CLOSED) then ret tt
  else
    (if xhr s then tell XhrAbort else ret tt) ;;
    update (set_xhr false) ;;
    _setReadyState CLOSED.

Definition _onStreamFailure : M unit :=
  let failureEvent := new_CustomEvent (u "error") Reason in
  dispatchEvent failureEvent ;;
  close.

Definition _onStreamAbort : M unit :=
  dispatchEvent (new_CustomEvent (u "abort") Nothing) ;;
  close.

(** The body of the [forEach] over the pieces of an increment. *)
Definition on_part (part : jsstring) : M unit :=
  s <- get_this ;;
  if (length (trim part) =? 0)%nat then
    match Parser._parseEventChunk proto_has (trim (chunk s)) with
    | Some chunkEvent =>
        dispatchEvent chunkEvent ;;
        update (set_chunk [])
    | None => ret tt
    end
  else update (set_chunk (chunk s ++ part)).

Definition _onStreamProgress (x : XMLHttpRequest) : M unit :=
  s <- get_this ;;
  if negb (xhr s) then ret tt
  else if negb (status x =? 200)%Z then _onStreamFailure
  else
    (if bool_decide (readyState s = CONNECTING) then
       let openEvent := new_CustomEvent (u "open") Nothing in
       dispatchEvent openEvent ;;
       _setReadyState OPEN
     else ret tt) ;;
    s <- get_this ;;
    let data := substring_from (progress s) (responseText x) in
    update (set_progress (progress s + length data)) ;;
    forEach on_part (regex_split blank_line data).

Definition _onStreamLoaded (x : XMLHttpRequest) : M unit :=
  _onStreamProgress x ;;
  s <- get_this ;;
  match Parser._parseEventChunk proto_has (chunk s) with
  | Some streamData =>
      dispatchEvent streamData ;;
      update (set_chunk [])
  | None => ret tt
  end.

Definition _checkStreamClosed (x : XMLHttpRequest) : M unit :=
  s <- get_this ;;
  if negb (xhr s) then ret tt
  else if (xhr_readyState x =? DONE)%Z then _setReadyState CLOSED
  else ret tt.

(** *** The transport's callbacks, as [stream] installs them *)

Inductive TransportCallback :=
| onreadystatechange (x : XMLHttpRequest)
| onprogress (x : XMLHttpRequest)
| onload (x : XMLHttpRequest)
| onerror
| onabort.

Definition handle (c : TransportCallback) : M unit :=
  match c with
  | onreadystatechange x => _checkStreamClosed x
  | onprogress x => _onStreamProgress x
  | onload x => _onStreamLoaded x
  | onerror => _onStreamFailure
  | onabort => _onStreamAbort
  end.

(** A callback that throws hands the exception to the transport; the
    callbacks after it still arrive. *)
Definition run (cs : list TransportCallback) (m : Machine) : Machine :=
  foldl (fun m c => snd (handle c m)) m cs.

(** The events handed to [dispatchEvent], in order. *)
Definition dispatched (l : list Effect) : list CustomEvent :=
  omap (fun x => match x with Dispatch e => Some e | _ => None end) l.

(** The events that come from parsed chunks. *)
Definition is_data_event (e : CustomEvent) : bool :=
  match attached e with Data _ _ => true | _ => false end.

Definition data_events (l : list Effect) : list CustomEvent :=
  List.filter is_data_event (dispatched l).

(** *** Vocabulary of the properties *)

(** [passes e cbs w w']: called on [e] in this order, starting from the
    state [w] of the listeners, every callback of [cbs] returns without
    having marked the event default-prevented, and the state ends as [w']. *)
Inductive passes (e : CustomEvent) : list Callback -> W -> W -> Prop :=
| passes_nil w : passes e [] w w
| passes_cons f cbs w w1 w2 :
    behaviour f e w = (Returned false, w1) ->
    passes e cbs w1 w2 ->
    passes e (f :: cbs) w w2.

(** The callbacks [dispatchEvent] has for a type: the [on<type>] handler of
    the object, if it has one, and then the registered listeners. *)
Definition callbacks_for (t : jsstring) (s : SSE) : list Callback :=
  option_list (on_handlers s !! t) ++ default [] (listeners s !! t).

(** The events the engine makes itself. *)
Definition open_event : CustomEvent := new_CustomEvent (u "open") Nothing.
Definition error_event : CustomEvent := new_CustomEvent (u "error") Reason.
Definition abort_event : CustomEvent := new_CustomEvent (u "abort") Nothing.
Definition readystatechange_event (state : XHRStates) : CustomEvent :=
  new_CustomEvent (u "readystatechange") (ReadyState state).

Definition is_load (c : TransportCallback) : bool :=
  match c with onload _ => true | _ => false end.

(** The event that the error and abort callbacks dispatch before they close. *)
Definition own_event (c : TransportCallback) : list CustomEvent :=
  match c with
  | onerror => [error_event]
  | onabort => [abort_event]
  | _ => []
  end.

(** No listener is twice in the array of a type. *)
Definition registered_once (s : SSE) : Prop :=
  forall t cbs, listeners s !! t = Some cbs -> NoDup cbs.

(** *** Relations between the machine before and after an operation *)

(** [keeps R c]: whatever [c] does, returning or throwing, the machine it
    leaves is related by [R] to the one it started from. *)
Definition keeps {A} (R : Machine -> Machine -> Prop) (c : M A) : Prop :=
  forall m, R m (snd (c m)).

Definition is_call (x : Effect) : Prop :=
  match x with Call _ _ => True | _ => False end.

(** The engine is as it was and the log has grown by calls of listeners. *)
Definition calls_only (m m' : Machine) : Prop :=
  this m' = this m
  /\ exists calls, log m' = log m ++ calls /\ Forall is_call calls.

Definition not_open (x : Effect) : Prop := x <> Dispatch open_event.

(** The life-cycle fields are as they were and the log has grown by
    anything but the dispatch of the engine's [open] event. *)
Definition quiet_step (m m' : Machine) : Prop :=
  readyState (this m') = readyState (this m)
  /\ xhr (this m') = xhr (this m)
  /\ exists new, log m' = log m ++ new /\ Forall not_open new.

(** The same, for a machine that starts out closed. *)
Definition closed_step (m m' : Machine) : Prop :=
  readyState (this m) = CLOSED -> quiet_step m m'.

End WithRuntime.

Arguments keeps {W A} R c.
Arguments calls_only {W} m m'.
Arguments quiet_step {W} m m'.
Arguments closed_step {W} m m'.

Arguments this {W} _.
Arguments world {W} _.
Arguments log {W} _.

End Engine.

(** ** The subscription reconciler: [subscribe] *)

Module Subscription.

Local Set Warnings "-register-all".

(** What [JSON.parse] builds, and [undefined] for a property that is not
    there.  A number is the integer it denotes: the listener only asks
    whether it is zero.  An object lists its own properties, each key once. *)
Inductive JsValue :=
| JUndefined
| JNull
| JBool (b : bool)
| JNumber (z : Z)
| JString (s : jsstring)
| JArray (items : list JsValue)
| JObject (props : list (jsstring * JsValue)).

(** [ToBoolean] *)
Definition truthy (v : JsValue) : bool :=
  match v with
  | JUndefined | JNull => false
  | JBool b => b
  | JNumber z => negb (z =? 0)%Z
  | JString s => negb (bool_decide (s = []))
  | JArray _ | JObject _ => true
  end.

(** [v !== null] *)
Definition not_null (v : JsValue) : bool :=
  match v with JNull => false | _ => true end.

Fixpoint own_prop (k : jsstring) (props : list (jsstring * JsValue)) : JsValue :=
  match props with
  | [] => JUndefined
  | (k', v) :: r => if bool_decide (k' = k) then v else own_prop k r
  end.

(** [payload.patch], [payload.data], [payload.errors]: reading a property
    of [null] throws; numbers, booleans, strings and arrays have no
    property of these names, and neither has [Object.prototype]. *)
Definition get (v : JsValue) (k : jsstring) : Result JsValue :=
  match v with
  | JUndefined | JNull => Thrown TypeError
  | JObject props => Returned (own_prop k props)
  | _ => Returned JUndefined
  end.

(** The options that [subscribe] passes to [new SSE]: the caller's headers
    are spread first, then the two fixed properties are written. *)
Definition subscribe_options (headers : option (gmap jsstring jsstring))
    (payload : jsstring) (withCredentials : option bool) : SSEOptions :=
  {| method := POST;
     payload := Some payload;
     withCredentials := withCredentials;
     headers :=
       Some (<[u "Content-Type" := u "application/json"]>
               (<[u "X-GQL-Transport" := u "live-query"]>
                  (default ∅ headers))) |}.

(** [const source = new SSE(url.toString(), {...})] *)
Definition subscribe_source (url : jsstring)
    (headers : option (gmap jsstring jsstring))
    (payload : jsstring) (withCredentials : option bool) : Result SSE :=
  new_SSE url (subscribe_options headers payload withCredentials).

Section WithCollaborators.

(** [JSON.parse]: [None] when it throws. *)
Variable JSON_parse : jsstring -> option JsValue.
(** [applyPatch(document, patch).newDocument]: [None] when it throws. *)
Variable applyPatch : JsValue -> JsValue -> option JsValue.
(** The caller's [onData]: what it throws, if it does. *)
Variable onData : JsValue -> JsValue -> option Exn.

(** The closure of [subscribe]: [lastValue], and the calls made to
    [onData] so far. *)
Record State := {
  lastValue : JsValue;
  onData_calls : list (JsValue * JsValue)
}.

Definition initial : State := {| lastValue := JNull; onData_calls := [] |}.

(** [dataEvent.data]; an event without it gives [undefined], which
    [JSON.parse] reads as the text "undefined". *)
Definition event_data (e : CustomEvent) : jsstring :=
  match attached e with
  | Data d _ => d
  | _ => u "undefined"
  end.

(** The [let value] of the listener, from the parsed payload. *)
Definition new_value (lastValue payload : JsValue) : Result JsValue :=
  match get payload (u "patch") with
  | Thrown x => Thrown x
  | Returned patch =>
      if truthy patch && truthy lastValue then
        match applyPatch lastValue patch with
        | Some newDocument => Returned newDocument
        | None => Thrown PatchError
        end
      else
        match get payload (u "data") with
        | Thrown x => Thrown x
        | Returned data => if not_null data then Returned data else Returned JNull
        end
  end.

(** The listener on [next].  It never prevents the default. *)
Definition next_listener (event : CustomEvent) (st : State) : Result bool * State :=
  match JSON_parse (event_data event) with
  | None => (Thrown SyntaxError, st)
  | Some payload =>
      match new_value (lastValue st) payload with
      | Thrown x => (Thrown x, st)
      | Returned value =>
          match get payload (u "errors") with
          | Thrown x => (Thrown x, st)
          | Returned errors =>
              let calls := onData_calls st ++ [(value, errors)] in
              match onData value errors with
              | Some x =>
                  (Thrown x, {| lastValue := lastValue st; onData_calls := calls |})
              | None =>
                  (Returned false, {| lastValue := value; onData_calls := calls |})
              end
          end
      end
  end.

End WithCollaborators.

(** *** Stand-ins for the collaborators, for concrete runs *)

Fixpoint JsValue_eqb (a b : JsValue) : bool :=
  match a, b with
  | JUndefined, JUndefined | JNull, JNull => true
  | JBool x, JBool y => Bool.eqb x y
  | JNumber x, JNumber y => (x =? y)%Z
  | JString x, JString y => bool_decide (x = y)
  | JArray xs, JArray ys =>
      (fix items xs ys :=
         match xs, ys with
         | [], [] => true
         | x :: xs', y :: ys' => JsValue_eqb x y && items xs' ys'
         | _, _ => false
         end) xs ys
  | JObject ps, JObject qs =>
      (fix props ps qs :=
         match ps, qs with
         | [], [] => true
         | (k, x) :: ps', (k', y) :: qs' =>
             bool_decide (k = k') && JsValue_eqb x y && props ps' qs'
         | _, _ => false
         end) ps qs
  | _, _ => false
  end.

(** JSON Patch restricted to operations on the whole document (path ""):
    [replace] puts the value in its place, [test] throws unless the
    document equals the value; anything else is outside this stand-in. *)
Definition root_operation (doc : option JsValue) (op : JsValue) : option JsValue :=
  match doc with
  | None => None
  | Some d =>
      match op with
      | JObject props =>
          match own_prop (u "op") props, own_prop (u "path") props with
          | JString name, JString [] =>
              if bool_decide (name = u "replace") then Some (own_prop (u "value") props)
              else if bool_decide (name = u "test") then
                if JsValue_eqb d (own_prop (u "value") props) then Some d else None
              else None
          | _, _ => None
          end
      | _ => None
      end
  end.

Definition root_applyPatch (doc patch : JsValue) : option JsValue :=
  match patch with
  | JArray ops => foldl root_operation (Some doc) ops
  | _ => None
  end.

(** A literal in which ['] stands for the double quote. *)
Definition json (s : string) : jsstring :=
  List.map (fun c => if N.eqb c 39 then 34%N else c) (u s).

Definition replace_by (v : JsValue) : JsValue :=
  JObject [(u "op", JString (u "replace")); (u "path", JString []); (u "value", v)].
Definition test_is (v : JsValue) : JsValue :=
  JObject [(u "op", JString (u "test")); (u "path", JString []); (u "value", v)].

(** [JSON.parse] on the texts used below; every other text is taken to be
    malformed. *)
Definition parse_table : list (jsstring * JsValue) :=
  [ (json "{'data':0,'errors':null}",
     JObject [(u "data", JNumber 0); (u "errors", JNull)]);
    (json "{'data':{'a':1},'errors':null}",
     JObject [(u "data", JObject [(u "a", JNumber 1)]); (u "errors", JNull)]);
    (json "{'data':null,'errors':null,'patch':[{'op':'replace','path':'','value':5}]}",
     JObject [(u "data", JNull); (u "errors", JNull);
              (u "patch", JArray [replace_by (JNumber 5)])]);
    (json "{'data':null,'errors':null,'patch':[{'op':'test','path':'','value':7}]}",
     JObject [(u "data", JNull); (u "errors", JNull);
              (u "patch", JArray [test_is (JNumber 7)])]) ].

Definition table_parse (text : jsstring) : option JsValue :=
  snd <$> List.find (fun p => bool_decide (fst p = text)) parse_table.

Definition returns (_ _ : JsValue) : option Exn := None.

End Subscription.

(** ** Concrete runs *)

Module Scenario.

Import Engine.

(** Listeners that do nothing. *)
Definition silent (_ : Callback) (_ : CustomEvent) (w : unit) : Result bool * unit :=
  (Returned false, w).

(** [new SSE("/live", { method: "GET" })] *)
Definition source : SSE :=
  {| url := u "/live";
     options := {| headers := None; withCredentials := None;
                   method := GET; payload := None |};
     listeners := ∅; on_handlers := ∅; readyState := INITIALIZING;
     chunk := []; progress := 0; xhr := false |}.

(** After [stream()]. *)
Definition started : Machine unit :=
  snd (stream standard_proto unit silent {| this := source; world := tt; log := [] |}).

(** The transport with [text] received so far, still loading or done. *)
Definition receiving (text : jsstring) : XMLHttpRequest :=
  {| status := 200; responseText := text; xhr_readyState := 3 |}.
Definition complete (text : jsstring) : XMLHttpRequest :=
  {| status := 200; responseText := text; xhr_readyState := DONE |}.

(** A payload delivered in increments: one progress callback per increment,
    each seeing the text received so far, and the load callback at the end. *)
Fixpoint deliveries (sofar : jsstring) (increments : list jsstring)
  : list TransportCallback :=
  match increments with
  | [] => [onload (complete sofar)]
  | i :: r => onprogress (receiving (sofar ++ i)) :: deliveries (sofar ++ i) r
  end.

Definition events_of_delivery (increments : list jsstring) : list CustomEvent :=
  data_events (log (run standard_proto unit silent (deliveries [] increments) started)).

Definition message (data : jsstring) : CustomEvent :=
  new_CustomEvent (u "message") (Data data None).

(** The transport reports completion before anything was read: the
    ready-state callback closes the engine, the transport stays attached. *)
Definition done_first : Machine unit :=
  run standard_proto unit silent [onreadystatechange (complete (u "data:b"))] started.

(** [close()] on the started engine. *)
Definition closed_by_close : Machine unit :=
  snd (close standard_proto unit silent started).

(** Listeners that add their number to a counter; listener 2 marks the event
    default-prevented. *)
Definition counting (f : Callback) (_ : CustomEvent) (w : nat) : Result bool * nat :=
  (Returned (f =? 2)%nat, (w + f)%nat).

(** Listeners 1, 2, 1 again and 3 registered for [next], in this order. *)
Definition registered : Machine nat :=
  foldl (fun m f => snd (addEventListener standard_proto nat (u "next") f m))
        {| this := source; world := 0%nat; log := [] |}
        [1; 2; 1; 3]%nat.

(** *** A subscription *)

Import Subscription.

Definition listener : CustomEvent -> State -> Result bool * State :=
  next_listener table_parse root_applyPatch returns.

Definition next_event (text : jsstring) : CustomEvent :=
  new_CustomEvent (u "next") (Data text None).

(** After a first message with the value [0], and after one with [{a: 1}]. *)
Definition after_zero : State :=
  snd (listener (next_event (json "{'data':0,'errors':null}")) initial).
Definition after_object : State :=
  snd (listener (next_event (json "{'data':{'a':1},'errors':null}")) initial).

(** Messages that carry a patch and no data. *)
Definition replace_5 : jsstring :=
  json "{'data':null,'errors':null,'patch':[{'op':'replace','path':'','value':5}]}".
Definition test_7 : jsstring :=
  json "{'data':null,'errors':null,'patch':[{'op':'test','path':'','value':7}]}".

(** The engine of a subscription, with the listener (number 0) on [next]. *)
Definition subscribed : Machine State :=
  snd (addEventListener standard_proto State (u "next") 0%nat
         {| this := source; world := initial; log := [] |}).

End Scenario.

(** ** Lines and fields of a chunk *)

Module Lines.

Import Wire.

(** The last line of the chunk that carries the given field name. *)
Definition last_line_of (name : jsstring) (lines : list jsstring) : option jsstring :=
  last (List.filter (is_line_of name) lines).

(** A text without a line break in it. *)
Definition break_free (s : jsstring) : bool :=
  forallb (fun c => negb (N.eqb c CR) && negb (N.eqb c LF)) s.

(** The three ways to end a line. *)
Definition line_ends : list jsstring := [[LF]; [CR; LF]; [CR]].

(** The segments written one after the other with [sep] between them. *)
Fixpoint join (sep : jsstring) (segments : list jsstring) : jsstring :=
  match segments with
  | [] => []
  | [s] => s
  | s :: r => s ++ sep ++ join sep r
  end.

End Lines.

(** ** The registry over time *)

Module Registry.

Import Engine.

(** A call of one of the two public methods of the registry. *)
Inductive RegistryCall :=
| Add (t : jsstring) (listener : Callback)
| Remove (t : jsstring) (listener : Callback).

Section WithRuntime.

Variable proto_has : jsstring -> bool.
Variable W : Type.

Definition registry_call (c : RegistryCall) : M W unit :=
  match c with
  | Add t f => addEventListener proto_has W t f
  | Remove t f => removeEventListener proto_has W t f
  end.

(** The calls made one after the other; one that throws leaves the engine to
    the next. *)
Definition registry_calls (cs : list RegistryCall) (m : Machine W) : Machine W :=
  foldl (fun m c => snd (registry_call c m)) m cs.

(** No type is kept with an empty array. *)
Definition no_empty_array (s : SSE) : Prop :=
  forall t, listeners s !! t <> Some [].

End WithRuntime.

End Registry.

(** ** The life cycle over time *)

Module Lifecycle.

(** The order of the states. *)
Definition rank (s : XHRStates) : nat :=
  match s with
  | INITIALIZING => 0
  | CONNECTING => 1
  | OPEN => 2
  | CLOSED => 3
  end.

(** The request as [stream] hands it to the transport. *)
Definition request (s : SSE) : list Effect :=
  [ XhrOpen (method (options s)) (url s);
    XhrSetRequestHeader (u "Accept") (u "text/event-stream");
    XhrSetRequestHeaders (default ∅ (headers (options s)));
    XhrWithCredentials (default false (withCredentials (options s)));
    XhrSend (payload (options s)) ].

(** The state does not go back. *)
Definition not_back {W} (m m' : Engine.Machine W) : Prop :=
  rank (readyState (Engine.this m)) <= rank (readyState (Engine.this m')).

(** The callbacks that tell of a failure: the error callback, and a progress
    callback that finds a status other than 200 on the attached transport. *)
Definition is_failure {W} (c : Engine.TransportCallback) (m : Engine.Machine W) : Prop :=
  match c with
  | Engine.onerror => True
  | Engine.onprogress x => xhr (Engine.this m) = true /\ status x <> 200%Z
  | _ => False
  end.

End Lifecycle.

(** ** Complete events on the wire *)

Module Wellformed.

Import Engine.

(** A chunk as a server writes it: no carriage return, and every line feed
    followed by another character of the chunk that is not a line feed (so no
    blank line inside, and no line feed at the end). *)
Fixpoint single_breaks (c : jsstring) : bool :=
  match c with
  | [] => true
  | x :: r =>
      negb (N.eqb x CR)
      && (if N.eqb x LF
          then match r with [] => false | y :: _ => negb (N.eqb y LF) end
          else true)
      && single_breaks r
  end.

Definition complete_chunk (c : jsstring) : Prop :=
  single_breaks c = true /\ trim c <> [].

(** The chunks written out, each followed by a blank line. *)
Definition payload_of (chunks : list jsstring) : jsstring :=
  concat (List.map (fun c => c ++ [LF; LF]) chunks).

(** The engine once the first progress callback has opened it. *)
Definition opened (s : SSE) : SSE :=
  if bool_decide (readyState s = CONNECTING) then set_readyState OPEN s else s.

Section WithRuntime.

Variable proto_has : jsstring -> bool.
Variable W : Type.
Variable behaviour : Callback -> CustomEvent -> W -> Result bool * W.

(** The event of a chunk. *)
Definition event_of_chunk (c : jsstring) : CustomEvent :=
  Parser.event_of (Parser.parse_lines proto_has (Wire.lines_of (trim c))).

(** No listener or handler ever throws. *)
Definition never_throws : Prop :=
  forall f e w, exists prevented w', behaviour f e w = (Returned prevented, w').

(** The type can be dispatched: the lookup of its listeners does not end on
    a property of the prototype. *)
Definition dispatchable (s : SSE) (t : jsstring) : Prop :=
  slot proto_has t s <> Inherited.

End WithRuntime.

End Wellformed.

(** ** The [next] listener over time *)

Module Delivery.

Import Subscription.

Section WithCollaborators.

Variable JSON_parse : jsstring -> option JsValue.
Variable applyPatch : JsValue -> JsValue -> option JsValue.
Variable onData : JsValue -> JsValue -> option Exn.

(** The [next] events of a subscription, one after the other.  What the
    listener throws goes to whoever dispatched the event; the closure stays
    as the listener left it. *)
Definition feed (events : list CustomEvent) (st : State) : State :=
  foldl (fun st e => snd (next_listener JSON_parse applyPatch onData e st)) st events.

(** The value of the last call of [onData]; [null] before the first. *)
Definition last_delivered (st : State) : JsValue :=
  default JNull (fst <$> last (onData_calls st)).

(** A parsed body that is neither an object nor [null]. *)
Definition without_properties (v : JsValue) : bool :=
  match v with
  | JBool _ | JNumber _ | JString _ | JArray _ => true
  | _ => false
  end.

End WithCollaborators.

(** [JSON.parse] on two texts that are valid JSON and no objects; every
    other text is taken to be malformed. *)
Definition scalar_parse (text : jsstring) : option JsValue :=
  if bool_decide (text = u "null") then Some JNull
  else if bool_decide (text = u "5") then Some (JNumber 5)
  else None.

End Delivery.

(** ** The engine with callbacks that call back *)

(** The listener that [subscribe] puts on [error] calls [close()] of the
    engine it is registered on.  Here a callback is what it does to the whole
    machine, the engine included; the methods are those of [Engine], line by
    line, with such callbacks.  Two reads come after a call and see what the
    callback has left: [this.listeners[e.type]] after the [on<type>] handler,
    and [this.xhr.responseText] after the listeners of [open], which throws
    when one of them has closed the engine. *)

Module Reentrant.

Import Engine.

Section WithCallbacks.

Variable proto_has : jsstring -> bool.
Variable W : Type.
(** Calling a callback on an event: it returns whether it has marked the
    event default-prevented, or throws. *)
Variable call : Callback -> CustomEvent -> M W bool.

Local Notation "x <- c ;; k" := (bind W c (fun x => k))
  (at level 100, c at next level, right associativity).
Local Notation "c ;; k" := (bind W c (fun _ => k))
  (at level 100, right associativity).

Definition invoke (f : Callback) (e : CustomEvent) : M W CustomEvent :=
  tell W (Call f e) ;;
  prevented <- call f e ;;
  ret W (mark e prevented).

Fixpoint every (cbs : list Callback) (e : CustomEvent) : M W bool :=
  match cbs with
  | [] => ret W true
  | callback :: rest =>
      e' <- invoke callback e ;;
      if defaultPrevented e' then ret W false else every rest e'
  end.

Definition dispatchEvent (e : CustomEvent) : M W bool :=
  tell W (Dispatch e) ;;
  s <- get_this W ;;
  match on_handlers s !! type e with
  | Some onHandler =>
      e' <- invoke onHandler e ;;
      if defaultPrevented e' then ret W false
      else
        s <- get_this W ;;
        match slot proto_has (type e) s with
        | Own cbs => every cbs e'
        | Inherited => throw W TypeError
        | Undefined => ret W true
        end
  | None =>
      match slot proto_has (type e) s with
      | Own cbs => every cbs e
      | Inherited => throw W TypeError
      | Undefined => ret W true
      end
  end.

Definition _setReadyState (state : XHRStates) : M W unit :=
  let event := new_CustomEvent (u "readystatechange") (ReadyState state) in
  update W (set_readyState state) ;;
  dispatchEvent event ;;
  ret W tt.

Definition stream : M W unit :=
  _setReadyState CONNECTING ;;
  s <- get_this W ;;
  tell W (XhrOpen (method (options s)) (url s)) ;;
  tell W (XhrSetRequestHeader (u "Accept") (u "text/event-stream")) ;;
  tell W (XhrSetRequestHeaders (default ∅ (headers (options s)))) ;;
  tell W (XhrWithCredentials (default false (withCredentials (options s)))) ;;
  tell W (XhrSend (payload (options s))) ;;
  update W (set_xhr true).

Definition close : M W unit :=
  s <- get_this W ;;
  if bool_decide (readyState s = CLOSED) then ret W tt
  else
    (if xhr s then tell W XhrAbort else ret W tt) ;;
    update W (set_xhr false) ;;
    _setReadyState CLOSED.

Definition _onStreamFailure : M W unit :=
  let failureEvent := new_CustomEvent (u "error") Reason in
  dispatchEvent failureEvent ;;
  close.

Definition _onStreamAbort : M W unit :=
  dispatchEvent (new_CustomEvent (u "abort") Nothing) ;;
  close.

Definition on_part (part : jsstring) : M W unit :=
  s <- get_this W ;;
  if (length (trim part) =? 0)%nat then
    match Parser._parseEventChunk proto_has (trim (chunk s)) with
    | Some chunkEvent =>
        dispatchEvent chunkEvent ;;
        update W (set_chunk [])
    | None => ret W tt
    end
  else update W (set_chunk (chunk s ++ part)).

Definition _onStreamProgress (x : XMLHttpRequest) : M W unit :=
  s <- get_this W ;;
  if negb (xhr s) then ret W tt
  else if negb (status x =? 200)%Z then _onStreamFailure
  else
    (if bool_decide (readyState s = CONNECTING) then
       let openEvent := new_CustomEvent (u "open") Nothing in
       dispatchEvent openEvent ;;
       _setReadyState OPEN
     else ret W tt) ;;
    s <- get_this W ;;
    if negb (xhr s) then throw W TypeError
    else
      let data := substring_from (progress s) (responseText x) in
      update W (set_progress (progress s + length data)) ;;
      forEach W on_part (regex_split blank_line data).

Definition _onStreamLoaded (x : XMLHttpRequest) : M W unit :=
  _onStreamProgress x ;;
  s <- get_this W ;;
  match Parser._parseEventChunk proto_has (chunk s) with
  | Some streamData =>
      dispatchEvent streamData ;;
      update W (set_chunk [])
  | None => ret W tt
  end.

Definition _checkStreamClosed (x : XMLHttpRequest) : M W unit :=
  s <- get_this W ;;
  if negb (xhr s) then ret W tt
  else if (xhr_readyState x =? DONE)%Z then _setReadyState CLOSED
  else ret W tt.

Definition handle (c : TransportCallback) : M W unit :=
  match c with
  | onreadystatechange x => _checkStreamClosed x
  | onprogress x => _onStreamProgress x
  | onload x => _onStreamLoaded x
  | onerror => _onStreamFailure
  | onabort => _onStreamAbort
  end.

Definition run (cs : list TransportCallback) (m : Machine W) : Machine W :=
  foldl (fun m c => snd (handle c m)) m cs.

End WithCallbacks.

(** A callback that works on its own state only, as a callback here. *)
Definition aside {W} (behaviour : Callback -> CustomEvent -> W -> Result bool * W)
    (f : Callback) (e : CustomEvent) : M W bool := fun m =>
  (fst (behaviour f e (world m)),
   {| this := this m; world := snd (behaviour f e (world m)); log := log m |}).

End Reentrant.

(** ** [subscribe] *)

Module Subscribe.

Import Engine Subscription.

Section WithCollaborators.

Variable JSON_parse : jsstring -> option JsValue.
Variable applyPatch : JsValue -> JsValue -> option JsValue.
Variable onData : JsValue -> JsValue -> option Exn.

(** The two listeners that [subscribe] registers. *)
Definition on_next : Callback := 0%nat.
Definition on_error : Callback := 1%nat.

(** A listener that works on the closure only. *)
Definition on_closure (f : State -> Result bool * State) : M State bool := fun m =>
  (fst (f (world m)),
   {| this := this m; world := snd (f (world m)); log := log m |}).

(** [[{ message: 'connection closed' }]] *)
Definition connection_closed : JsValue :=
  JArray [JObject [(u "message", JString (u "connection closed"))]].

(** [onData(null, [{ message: 'connection closed' }])] *)
Definition report_closed (st : State) : Result bool * State :=
  let calls := onData_calls st ++ [(JNull, connection_closed)] in
  match onData JNull connection_closed with
  | Some x => (Thrown x, {| lastValue := lastValue st; onData_calls := calls |})
  | None => (Returned false, {| lastValue := lastValue st; onData_calls := calls |})
  end.

(** The listener on [error], given [source.close]. *)
Definition error_listener (close : M State unit) : M State bool :=
  bind State close (fun _ => on_closure report_closed).

(** The callbacks of a subscription.  The [error] listener calls [close] of
    the engine, which dispatches to the callbacks in turn: [depth] bounds the
    nesting of the calls, and a call beyond it throws, as a call beyond the
    stack does.  There is no third callback. *)
Fixpoint callbacks (depth : nat) (f : Callback) (e : CustomEvent) : M State bool :=
  match depth with
  | O => throw State (Error (u "Maximum call stack size exceeded"))
  | S d =>
      if (f =? on_next)%nat
      then on_closure (next_listener JSON_parse applyPatch onData e)
      else if (f =? on_error)%nat
      then error_listener (Reentrant.close standard_proto State (callbacks d))
      else ret State false
  end.

(** [subscribe({url, headers, payload, withCredentials, onData})]: the
    engine and the closure as the call leaves them. *)
Definition subscribe (depth : nat) (url : jsstring)
    (headers : option (gmap jsstring jsstring))
    (payload : jsstring) (withCredentials : option bool)
  : Result (Machine State) :=
  match subscribe_source url headers payload withCredentials with
  | Thrown x => Thrown x
  | Returned source =>
      let setup :=
        bind State (addEventListener standard_proto State (u "next") on_next) (fun _ =>
        bind State (addEventListener standard_proto State (u "error") on_error) (fun _ =>
        Reentrant.stream standard_proto State (callbacks depth))) in
      match setup {| this := source; world := initial; log := [] |} with
      | (Returned _, m) => Returned m
      | (Thrown x, _) => Thrown x
      end
  end.

(** The function that [subscribe] returns: [() => source.close()]. *)
Definition teardown (depth : nat) : M State unit :=
  Reentrant.close standard_proto State (callbacks depth).

(** The transport calls back. *)
Definition transport (depth : nat) (c : TransportCallback) : M State unit :=
  Reentrant.handle standard_proto State (callbacks depth) c.

(** The engine of a subscription: the two listeners and no handler. *)
Definition subscribed (s : SSE) : Prop :=
  listeners s = {[ u "next" := [on_next]; u "error" := [on_error] ]}
  /\ on_handlers s = ∅.

(** What the transport still reports after [abort()], and a late progress. *)
Definition after_abort (c : TransportCallback) : bool :=
  match c with
  | onreadystatechange _ | onprogress _ | onabort => true
  | _ => false
  end.

(** A type that the subscription listens to for data, or that nobody
    listens to. *)
Definition next_or_unheard (t : jsstring) : bool :=
  bool_decide (t = u "next")
  || (negb (bool_decide (t = u "error")) && negb (standard_proto t)).

(** What the subscription makes of an event of such a type: the listener
    of [next] runs on an event of that type, nothing runs on another.
    [None] when the listener throws. *)
Definition deliver (e : CustomEvent) (st : State) : option State :=
  if bool_decide (type e = u "next") then
    match next_listener JSON_parse applyPatch onData e st with
    | (Returned _, st') => Some st'
    | (Thrown _, _) => None
    end
  else Some st.

Fixpoint deliver_all (events : list CustomEvent) (st : State) : option State :=
  match events with
  | [] => Some st
  | e :: rest =>
      match deliver e st with
      | Some st' => deliver_all rest st'
      | None => None
      end
  end.

End WithCollaborators.

End Subscribe.

(** ** A subscription at work *)

Module Session.

Import Engine Subscription Subscribe.

(** The stand-ins of the concrete runs. *)
Definition subscribe_here :=
  Subscribe.subscribe table_parse root_applyPatch returns.
Definition transport_here :=
  Subscribe.transport table_parse root_applyPatch returns.
Definition teardown_here :=
  Subscribe.teardown table_parse root_applyPatch returns.

(** [subscribe({url: "/graphql", payload: "{}", onData})], once it has
    returned. *)
Definition running : Machine State :=
  match subscribe_here 1 (u "/graphql") None (u "{}") None with
  | Returned m => m
  | Thrown _ => Scenario.subscribed
  end.

(** Three chunks: a first value, a chunk without an [event] line, a patch. *)
Definition first_value : jsstring :=
  u "event: next" ++ [LF] ++ u "data: " ++ json "{'data':{'a':1},'errors':null}".
Definition untyped : jsstring := u "data: hello".
Definition patch_to_5 : jsstring :=
  u "event: next" ++ [LF] ++ u "data: " ++ Scenario.replace_5.

(** A listener that closes the engine; what [close] could reach from there
    does nothing. *)
Definition closes (_ : Callback) (_ : CustomEvent) : M unit bool :=
  bind unit (Reentrant.close standard_proto unit (fun _ _ => ret unit false))
    (fun _ => ret unit false).

(** The started engine with listener 0 on [open]. *)
Definition listening_to_open : Machine unit :=
  snd (addEventListener standard_proto unit (u "open") 0%nat Scenario.started).

(** Listener 0 removes listener 1 from the type of the event; listener 1
    does nothing. *)
Definition removes (f : Callback) (e : CustomEvent) : M unit bool :=
  if (f =? 0)%nat
  then bind unit (removeEventListener standard_proto unit (type e) 1%nat)
         (fun _ => ret unit false)
  else ret unit false.

(** Listeners that throw. *)
Definition failing (_ : Callback) (_ : CustomEvent) (w : unit) : Result bool * unit :=
  (Thrown (Raised 7), w).

(** Listeners 0 and 1 on [next]. *)
Definition two_listeners : Machine unit :=
  foldl (fun m f => snd (addEventListener standard_proto unit (u "next") f m))
        {| this := Scenario.source; world := tt; log := [] |}
        [0; 1]%nat.

(** An open engine with these two listeners, the transport attached. *)
Definition open_with_listeners : Machine unit :=
  {| this := set_xhr true (set_readyState OPEN (this two_listeners));
     world := tt; log := [] |}.

End Session.

(** * Properties *)

(** ** Strings *)

Section StringFacts.

Lemma indexOf_cons c x r :
  indexOf c (x :: r) =
  if N.eqb x c then 0%Z
  else if (indexOf c r <? 0)%Z then (-1)%Z else (indexOf c r + 1)%Z.
Proof. reflexivity. Qed.

Lemma indexOf_ge c s : (-1 <= indexOf c s)%Z.
Proof.
  induction s as [|x r IH]; simpl; [lia|].
  destruct (N.eqb x c); [lia|].
  destruct (Z.ltb_spec (indexOf c r) 0); lia.
Qed.

Lemma indexOf_lt_length c s :
  (0 <= indexOf c s)%Z -> (Z.to_nat (indexOf c s) < length s)%nat.
Proof.
  induction s as [|x r IH]; simpl; [lia|].
  destruct (N.eqb x c); [lia|].
  destruct (Z.ltb_spec (indexOf c r) 0); [lia|].
  intros _. specialize (IH ltac:(lia)). lia.
Qed.

(** [trimEnd] only removes a tail. *)
Lemma trimEnd_prefix s : exists tail, s = trimEnd s ++ tail.
Proof.
  induction s as [|x r [tail IH]]; simpl.
  - exists []. reflexivity.
  - destruct (trimEnd r) as [|y r'] eqn:E.
    + destruct (is_ws x).
      * exists (x :: r). reflexivity.
      * exists r. simpl in IH. subst. simpl. reflexivity.
    + exists tail. simpl. rewrite IH at 1. reflexivity.
Qed.

(** A character that is not whitespace is found at the same place with or
    without the trailing whitespace. *)
Lemma indexOf_trimEnd c s :
  is_ws c = false -> indexOf c (trimEnd s) = indexOf c s.
Proof.
  intros Hc. induction s as [|x r IH]; [reflexivity|].
  rewrite (indexOf_cons c x r), <- IH. simpl trimEnd.
  destruct (trimEnd r) as [|y r'] eqn:E.
  - destruct (is_ws x) eqn:Hx; simpl.
    + destruct (N.eqb_spec x c) as [->|_]; [congruence|reflexivity].
    + reflexivity.
  - apply indexOf_cons.
Qed.

Lemma take_trimEnd c s :
  is_ws c = false -> (0 <= indexOf c s)%Z ->
  take (Z.to_nat (indexOf c s)) (trimEnd s) = take (Z.to_nat (indexOf c s)) s.
Proof.
  intros Hc Hi.
  assert (Hlt : (Z.to_nat (indexOf c s) < length (trimEnd s))%nat).
  { rewrite <- (indexOf_trimEnd c s Hc). apply indexOf_lt_length.
    rewrite indexOf_trimEnd; assumption. }
  revert Hlt. generalize (Z.to_nat (indexOf c s)). intros n Hlt.
  destruct (trimEnd_prefix s) as [tail Ht].
  transitivity (take n (trimEnd s ++ tail)); [|rewrite <- Ht; reflexivity].
  rewrite take_app_le; [reflexivity|lia].
Qed.

End StringFacts.

(** ** The chunk parser *)

Section ParserFacts.

Import Parser Wire.
Variable proto_has : jsstring -> bool.

Lemma separator_not_ws : is_ws FIELD_SEPARATOR = false.
Proof. reflexivity. Qed.

(** What one line does, by the field name it carries. *)
Lemma parse_line_by_name e line :
  parse_line proto_has e line =
  match field_name line with
  | None => e
  | Some field =>
      if negb (field_in proto_has field e) then e
      else if bool_decide (field = u "data")
           then <[field := Some (to_string (e !! field) ++ field_value line)]> e
           else assign field (field_value line) e
  end.
Proof.
  unfold parse_line, field_name, field_value, substring_to, substring_from.
  rewrite (indexOf_trimEnd _ line separator_not_ws).
  destruct (Z.leb_spec (indexOf FIELD_SEPARATOR line) 0) as [H|H].
  - destruct (Z.ltb_spec 0 (indexOf FIELD_SEPARATOR line)); [lia|reflexivity].
  - destruct (Z.ltb_spec 0 (indexOf FIELD_SEPARATOR line)); [|lia].
    rewrite (take_trimEnd _ line separator_not_ws) by lia.
    reflexivity.
Qed.

(** A line only ever writes the property it names. *)
Lemma parse_line_other e line f :
  field_name line <> Some f ->
  parse_line proto_has e line !! f = e !! f.
Proof.
  intros Hf. rewrite parse_line_by_name.
  destruct (field_name line) as [field|]; [|reflexivity].
  assert (field <> f) by congruence.
  destruct (negb _); [reflexivity|].
  destruct (bool_decide _).
  - apply lookup_insert_ne; assumption.
  - unfold assign. destruct (bool_decide _); [reflexivity|].
    apply lookup_insert_ne; assumption.
Qed.

Lemma parse_line_data e line d :
  field_name line = Some (u "data") ->
  e !! u "data" = Some (Some d) ->
  parse_line proto_has e line !! u "data" = Some (Some (d ++ field_value line)).
Proof.
  intros Hf Hd. rewrite parse_line_by_name, Hf.
  unfold field_in. rewrite Hd.
  rewrite bool_decide_eq_true_2 by eauto. cbn [orb negb].
  rewrite bool_decide_eq_true_2 by reflexivity.
  rewrite lookup_insert_eq. reflexivity.
Qed.

Lemma parse_lines_data lines : forall e d,
  e !! u "data" = Some (Some d) ->
  foldl (parse_line proto_has) e lines !! u "data"
  = Some (Some (d ++ data_of_lines lines)).
Proof.
  unfold data_of_lines.
  induction lines as [|l r IH]; intros e d Hd; simpl.
  - rewrite app_nil_r. assumption.
  - unfold is_line_of at 1. destruct (bool_decide_reflect (field_name l = Some (u "data"))) as [Hl|Hl].
    + rewrite (IH _ (d ++ field_value l)) by (apply parse_line_data; assumption).
      simpl. rewrite app_assoc. reflexivity.
    + apply IH. rewrite parse_line_other; assumption.
Qed.

Lemma parse_lines_untouched f lines : forall e,
  Forall (fun l => field_name l <> Some f) lines ->
  foldl (parse_line proto_has) e lines !! f = e !! f.
Proof.
  induction lines as [|l r IH]; intros e Hall; simpl; [reflexivity|].
  inversion Hall; subst. rewrite IH by assumption.
  apply parse_line_other; assumption.
Qed.

Lemma e_init_present : present e_init.
Proof.
  intros f Hf. unfold recognized in Hf.
  repeat (apply elem_of_cons in Hf as [->|Hf]); try (vm_compute; eauto; fail).
  inversion Hf.
Qed.

Lemma parse_line_present e line : present e -> present (parse_line proto_has e line).
Proof.
  intros He f Hf. rewrite parse_line_by_name.
  destruct (field_name line) as [field|]; [|auto].
  destruct (negb _); [auto|].
  destruct (bool_decide _).
  - rewrite lookup_insert. destruct (decide _); eauto.
  - unfold assign. destruct (bool_decide _); [auto|].
    rewrite lookup_insert. destruct (decide _); eauto.
Qed.

Lemma parse_lines_present lines : forall e,
  present e -> present (foldl (parse_line proto_has) e lines).
Proof.
  induction lines as [|l r IH]; intros e He; simpl; [assumption|].
  apply IH, parse_line_present, He.
Qed.

(** Two accumulators that agree on the four properties still agree after
    the same line. *)
Lemma parse_line_agree e1 e2 line :
  present e1 -> present e2 -> agree e1 e2 ->
  agree (parse_line proto_has e1 line) (parse_line proto_has e2 line).
Proof.
  intros H1 H2 Ha f Hf.
  destruct (decide (field_name line = Some f)) as [Hn|Hn].
  - rewrite !parse_line_by_name, Hn. unfold field_in.
    rewrite (Ha f Hf).
    rewrite (bool_decide_eq_true_2 (is_Some (e2 !! f))) by auto. cbn [orb negb].
    destruct (bool_decide (f = u "data")).
    + rewrite !lookup_insert_eq. reflexivity.
    + unfold assign. destruct (bool_decide _); [auto|].
      rewrite !lookup_insert_eq. reflexivity.
  - rewrite !parse_line_other by assumption. auto.
Qed.

Lemma parse_lines_agree lines : forall e1 e2,
  present e1 -> present e2 -> agree e1 e2 ->
  agree (foldl (parse_line proto_has) e1 lines) (foldl (parse_line proto_has) e2 lines).
Proof.
  induction lines as [|l r IH]; intros e1 e2 H1 H2 Ha; simpl; [assumption|].
  apply IH; auto using parse_line_present, parse_line_agree.
Qed.

Lemma agree_event_of e1 e2 : agree e1 e2 -> event_of e1 = event_of e2.
Proof.
  intros Ha. unfold event_of.
  rewrite (Ha (u "event")), (Ha (u "data")), (Ha (u "id")); [reflexivity| | |];
    unfold recognized; set_solver.
Qed.

(** A line that carries none of the four names leaves them as they are,
    whatever else it does to the accumulator. *)
Lemma parse_line_unrecognized e line :
  (forall f, f ∈ recognized -> field_name line <> Some f) ->
  agree (parse_line proto_has e line) e.
Proof. intros H f Hf. apply parse_line_other, H, Hf. Qed.

Lemma ignored_line_has_no_recognized_name line :
  (indexOf FIELD_SEPARATOR line <= 0)%Z
  \/ (exists name, field_name line = Some name /\ name ∉ recognized) ->
  forall f, f ∈ recognized -> field_name line <> Some f.
Proof.
  intros [Hi|(name & Hn & Hnot)] f Hf.
  - unfold field_name. destruct (Z.ltb_spec 0 (indexOf FIELD_SEPARATOR line)); [lia|discriminate].
  - rewrite Hn. intros [= ->]. contradiction.
Qed.

(** C5. A line of a chunk that has no field separator, or has it as its
    first character, or whose text before the first separator is none of
    [id], [event], [data], [retry] (any other name, those found on the object
    prototype such as [toString] included) contributes nothing to the parsed
    event: the event [_parseEventChunk] returns is the one built from the
    other lines alone, and the four fields of the accumulator are what they
    are without the line. *)
Theorem C5_ignored_line_contributes_nothing
    (chunk : jsstring) (pre post : list jsstring) (line : jsstring) :
  chunk <> [] ->
  lines_of chunk = pre ++ line :: post ->
  (indexOf FIELD_SEPARATOR line <= 0)%Z
  \/ (exists name, field_name line = Some name /\ name ∉ recognized) ->
  _parseEventChunk proto_has chunk
    = Some (event_of (parse_lines proto_has (pre ++ post)))
  /\ forall f, f ∈ recognized ->
       parse_lines proto_has (pre ++ line :: post) !! f
       = parse_lines proto_has (pre ++ post) !! f.
Proof.
  intros Hne Hlines Hline.
  pose proof (ignored_line_has_no_recognized_name line Hline) as Hnot.
  assert (Ha : agree (parse_lines proto_has (pre ++ line :: post))
                     (parse_lines proto_has (pre ++ post))).
  { unfold parse_lines. rewrite !foldl_app. cbn [foldl].
    pose proof (parse_lines_present pre e_init e_init_present) as Hp.
    apply parse_lines_agree; auto using parse_line_present.
    apply parse_line_unrecognized, Hnot. }
  split; [|exact Ha].
  unfold _parseEventChunk. destruct chunk as [|c r]; [congruence|].
  fold (lines_of (c :: r)). rewrite Hlines.
  f_equal. apply agree_event_of, Ha.
Qed.

(** The event of a chunk that is not empty. *)
Lemma parse_chunk_event (chunk : jsstring) :
  chunk <> [] ->
  _parseEventChunk proto_has chunk
  = Some (new_CustomEvent
            (to_string (parse_lines proto_has (lines_of chunk) !! u "event"))
            (Data (data_of_lines (lines_of chunk))
                  (default None (parse_lines proto_has (lines_of chunk) !! u "id")))).
Proof.
  intros Hne. unfold _parseEventChunk. destruct chunk as [|c r]; [congruence|].
  fold (lines_of (c :: r)). unfold event_of, parse_lines.
  rewrite (parse_lines_data (lines_of (c :: r)) e_init []) by reflexivity.
  reflexivity.
Qed.

(** C6. [_parseEventChunk] returns null exactly when the chunk is empty;
    otherwise it returns an event whose [data] is the concatenation, in order
    and with nothing inserted, of the values of the [data] lines of the chunk
    (the value of a line being the text after its first separator with
    leading whitespace stripped, the line taken without its trailing
    whitespace), and whose type is "message" when the chunk has no [event]
    line; the chunk "data:foo\ndata:bar" gives an event with data "foobar". *)
Theorem C6_parse_chunk_data (chunk : jsstring) :
  (_parseEventChunk proto_has chunk = None <-> chunk = [])
  /\ (chunk <> [] ->
      exists t id,
        _parseEventChunk proto_has chunk
          = Some (new_CustomEvent t (Data (data_of_lines (lines_of chunk)) id))
        /\ (Forall (fun l => field_name l <> Some (u "event")) (lines_of chunk) ->
            t = u "message"))
  /\ _parseEventChunk proto_has (u "data:foo" ++ [LF] ++ u "data:bar")
     = Some (new_CustomEvent (u "message") (Data (u "foobar") None)).
Proof.
  split; [|split].
  - unfold _parseEventChunk. destruct chunk; split; congruence.
  - intros Hne. eexists _, _. split; [apply parse_chunk_event, Hne|].
    intros Hno. unfold parse_lines.
    rewrite (parse_lines_untouched (u "event")) by assumption.
    reflexivity.
  - rewrite parse_chunk_event by (vm_compute; discriminate).
    replace (lines_of (u "data:foo" ++ [LF] ++ u "data:bar"))
      with [u "data:foo"; u "data:bar"] by (vm_compute; reflexivity).
    unfold parse_lines.
    rewrite !parse_lines_untouched
      by (repeat constructor; vm_compute; discriminate).
    vm_compute. reflexivity.
Qed.

End ParserFacts.

Lemma C5_ignored_line_witness :
  Parser._parseEventChunk standard_proto (u "toString:x" ++ [LF] ++ u "data:a")
  = Some (Parser.event_of (Parser.parse_lines standard_proto [u "data:a"])).
Proof.
  apply (C5_ignored_line_contributes_nothing standard_proto
           (u "toString:x" ++ [LF] ++ u "data:a") [] [u "data:a"] (u "toString:x")).
  - vm_compute. discriminate.
  - vm_compute. reflexivity.
  - right. exists (u "toString"). split.
    + vm_compute. reflexivity.
    + apply (bool_decide_unpack _). vm_compute. exact I.
Defined.

(** A name found on the prototype passes the test [field in e]: the line is
    stored as an own property of the accumulator, which nothing reads. *)
Example prototype_name_is_stored_aside :
  Parser.parse_lines standard_proto [u "toString:x"] !! u "toString" = Some (Some (u "x"))
  /\ Parser.event_of (Parser.parse_lines standard_proto [u "toString:x"])
     = Parser.event_of Parser.e_init.
Proof. vm_compute. split; reflexivity. Qed.

Lemma C6_parse_chunk_witness :
  exists t id,
    Parser._parseEventChunk standard_proto (u "id:7" ++ [LF] ++ u "data: a ")
    = Some (new_CustomEvent t (Data (u "a") id))
    /\ t = u "message".
Proof.
  destruct (C6_parse_chunk_data standard_proto (u "id:7" ++ [LF] ++ u "data: a "))
    as (_ & Hsome & _).
  destruct Hsome as (t & id & Hev & Ht).
  - vm_compute. discriminate.
  - exists t, id. split; [exact Hev|].
    apply Ht. vm_compute. repeat constructor; discriminate.
Defined.

(** ** The dispatcher and the registry *)

Section DispatchFacts.

Import Engine.
Variable proto_has : jsstring -> bool.
Variable W : Type.
Variable behaviour : Callback -> CustomEvent -> W -> Result bool * W.

Local Abbreviation invoke := (Engine.invoke W behaviour).
Local Abbreviation every := (Engine.every W behaviour).
Local Abbreviation dispatchEvent := (Engine.dispatchEvent proto_has W behaviour).
Local Abbreviation addEventListener := (Engine.addEventListener proto_has W).
Local Abbreviation removeEventListener := (Engine.removeEventListener proto_has W).
Local Abbreviation passes := (Engine.passes W behaviour).

Lemma mark_false e : defaultPrevented e = false -> mark e false = e.
Proof. destruct e as [t a p]. simpl. intros ->. reflexivity. Qed.

Lemma invoke_returned f e (m : Machine W) p w :
  behaviour f e (world m) = (Returned p, w) ->
  invoke f e m
  = (Returned (mark e p),
     {| this := this m; world := w; log := log m ++ [Call f e] |}).
Proof.
  intros Hb. unfold Engine.invoke, bind, tell. simpl. rewrite Hb. reflexivity.
Qed.

Lemma invoke_thrown f e (m : Machine W) x w :
  behaviour f e (world m) = (Thrown x, w) ->
  invoke f e m
  = (Thrown x, {| this := this m; world := w; log := log m ++ [Call f e] |}).
Proof.
  intros Hb. unfold Engine.invoke, bind, tell. simpl. rewrite Hb. reflexivity.
Qed.

(** As long as nobody marks the event, [every] goes on. *)
Lemma every_passes e cbs : forall (m : Machine W) w',
  defaultPrevented e = false ->
  passes e cbs (world m) w' ->
  every cbs e m
  = (Returned true,
     {| this := this m; world := w';
        log := log m ++ List.map (fun f => Call f e) cbs |}).
Proof.
  induction cbs as [|f r IH]; intros m w' He Hp; inversion Hp; subst.
  - simpl. unfold ret. rewrite app_nil_r. destruct m; reflexivity.
  - cbn [Engine.every]. unfold bind.
    erewrite invoke_returned by eassumption.
    rewrite (mark_false e He), He.
    erewrite IH; [|assumption|simpl; eassumption].
    simpl. rewrite <- app_assoc. reflexivity.
Qed.

(** The first callback that marks the event is the last one called. *)
Lemma every_stops e pre f post : forall (m : Machine W) w1 w2,
  defaultPrevented e = false ->
  passes e pre (world m) w1 ->
  behaviour f e w1 = (Returned true, w2) ->
  every (pre ++ f :: post) e m
  = (Returned false,
     {| this := this m; world := w2;
        log := log m ++ List.map (fun f => Call f e) (pre ++ [f]) |}).
Proof.
  induction pre as [|g r IH]; intros m w1 w2 He Hp Hf; inversion Hp; subst.
  - cbn [app Engine.every]. unfold bind.
    erewrite invoke_returned by eassumption.
    cbn [mark defaultPrevented]. rewrite orb_true_r. reflexivity.
  - cbn [app Engine.every]. unfold bind.
    erewrite invoke_returned by eassumption.
    rewrite (mark_false e He), He.
    erewrite IH; [|assumption|simpl; eassumption|eassumption].
    simpl. rewrite <- app_assoc. reflexivity.
Qed.

(** [dispatchEvent] is [every] over the handler and the listeners, when the
    type has an array of listeners. *)
Lemma dispatchEvent_every e (m : Machine W) cbs :
  listeners (this m) !! type e = Some cbs ->
  dispatchEvent e m
  = every (callbacks_for (type e) (this m)) e
      {| this := this m; world := world m; log := log m ++ [Dispatch e] |}.
Proof.
  intros Hl. unfold Engine.dispatchEvent, callbacks_for, slot, bind, tell, get_this.
  cbn [this world log]. rewrite Hl.
  destruct (on_handlers (this m) !! type e) as [h|]; cbn [option_list app default].
  - cbn [Engine.every]. unfold bind. reflexivity.
  - reflexivity.
Qed.

(** *** Registration *)

Lemma new_SSE_registered_once url options s :
  new_SSE url options = Returned s -> registered_once s.
Proof.
  unfold new_SSE. destruct url; [discriminate|]. intros [= <-] t cbs. simpl.
  rewrite lookup_empty. discriminate.
Qed.

(** A listener that is not yet in the array of its type goes to its end. *)
Lemma addEventListener_appends t f (m : Machine W) cbs :
  listeners (this m) !! t = Some cbs -> f ∉ cbs ->
  addEventListener t f m
  = (Returned tt,
     {| this := set_listeners (<[t := cbs ++ [f]]> (listeners (this m))) (this m);
        world := world m; log := log m |}).
Proof.
  intros Hl Hf. unfold Engine.addEventListener, bind, get_this, slot, update.
  rewrite Hl. rewrite bool_decide_eq_false_2 by assumption. reflexivity.
Qed.

(** A listener that is already there is not added again. *)
Lemma addEventListener_known t f (m : Machine W) cbs :
  listeners (this m) !! t = Some cbs -> f ∈ cbs ->
  addEventListener t f m = (Returned tt, m).
Proof.
  intros Hl Hf. unfold Engine.addEventListener, bind, get_this, slot, ret.
  rewrite Hl. rewrite bool_decide_eq_true_2 by assumption. reflexivity.
Qed.

Lemma addEventListener_first t f (m : Machine W) :
  listeners (this m) !! t = None -> proto_has t = false ->
  addEventListener t f m
  = (Returned tt,
     {| this := set_listeners (<[t := [f]]> (listeners (this m))) (this m);
        world := world m; log := log m |}).
Proof.
  intros Hl Hp. unfold Engine.addEventListener, bind, get_this, slot, update.
  rewrite Hl, Hp. reflexivity.
Qed.

Lemma addEventListener_registered_once t f (m : Machine W) :
  registered_once (this m) ->
  registered_once (this (snd (addEventListener t f m))).
Proof.
  intros Hinv. unfold Engine.addEventListener, bind, get_this, slot, update, ret, throw.
  destruct (listeners (this m) !! t) as [cbs|] eqn:Hl.
  - destruct (bool_decide_reflect (f ∈ cbs)) as [Hin|Hin]; [exact Hinv|].
    intros t' cbs'. cbn. rewrite lookup_insert. destruct (decide (t = t')).
    + intros [= <-]. apply NoDup_app. split; [eapply Hinv; eassumption|].
      split; [|apply NoDup_singleton].
      intros x Hx Hx'. apply list_elem_of_singleton in Hx'. subst. contradiction.
    + apply Hinv.
  - destruct (proto_has t); [exact Hinv|].
    intros t' cbs'. cbn. rewrite lookup_insert. destruct (decide (t = t')).
    + intros [= <-]. apply NoDup_singleton.
    + apply Hinv.
Qed.

Lemma removeEventListener_registered_once t f (m : Machine W) :
  registered_once (this m) ->
  registered_once (this (snd (removeEventListener t f m))).
Proof.
  intros Hinv. unfold Engine.removeEventListener, bind, get_this, slot, update, ret, throw.
  destruct (listeners (this m) !! t) as [cbs|] eqn:Hl.
  - pose proof (Hinv t cbs Hl) as Hnd.
    destruct (List.filter _ cbs) as [|g r] eqn:Hfil.
    + intros t' cbs'. cbn. rewrite lookup_delete. destruct (decide (t = t')); [discriminate|].
      apply Hinv.
    + intros t' cbs'. cbn. rewrite lookup_insert. destruct (decide (t = t')).
      * intros [= <-]. rewrite <- Hfil. apply NoDup_ListNoDup, List.NoDup_filter, NoDup_ListNoDup, Hnd.
      * apply Hinv.
  - destruct (proto_has t); exact Hinv.
Qed.

(** C9. For an event type with registered listeners, the listeners are kept
    in registration order (a new one goes to the end of the array, a known one
    is not added again, so none is there twice), and [dispatchEvent] calls the
    callbacks of the type in that order, the [on<type>] handler of the object
    first when there is one: when a callback marks the event
    default-prevented, it is the last one called and the result is [false];
    when every callback returns without doing so, each one is called exactly
    once and the result is [true]. *)
Theorem C9_dispatch_in_registration_order
    (m : Machine W) (e : CustomEvent) (cbs : list Callback) :
  listeners (this m) !! type e = Some cbs ->
  defaultPrevented e = false ->
  registered_once (this m) ->
  let all := callbacks_for (type e) (this m) in
  (forall f, f ∉ cbs ->
     listeners (this (snd (addEventListener (type e) f m))) !! type e
     = Some (cbs ++ [f]))
  /\ (forall f, f ∈ cbs -> snd (addEventListener (type e) f m) = m)
  /\ NoDup cbs
  /\ (forall pre f post w1 w2,
        all = pre ++ f :: post ->
        passes e pre (world m) w1 ->
        behaviour f e w1 = (Returned true, w2) ->
        dispatchEvent e m
        = (Returned false,
           {| this := this m; world := w2;
              log := log m ++ Dispatch e
                       :: List.map (fun f => Call f e) (pre ++ [f]) |}))
  /\ (forall w',
        passes e all (world m) w' ->
        dispatchEvent e m
        = (Returned true,
           {| this := this m; world := w';
              log := log m ++ Dispatch e :: List.map (fun f => Call f e) all |})).
Proof.
  intros Hl He Hinv all. repeat split.
  - intros f Hf. rewrite (addEventListener_appends _ _ _ _ Hl Hf). cbn.
    apply lookup_insert_eq.
  - intros f Hf. rewrite (addEventListener_known _ _ _ _ Hl Hf). reflexivity.
  - eapply Hinv, Hl.
  - intros pre f post w1 w2 Hall Hp Hf.
    rewrite (dispatchEvent_every _ _ _ Hl). fold all. rewrite Hall.
    erewrite every_stops; [|assumption|cbn; eassumption|eassumption].
    cbn. rewrite <- app_assoc. reflexivity.
  - intros w' Hp.
    rewrite (dispatchEvent_every _ _ _ Hl). fold all.
    erewrite every_passes; [|assumption|cbn; eassumption].
    cbn. rewrite <- app_assoc. reflexivity.
Qed.

End DispatchFacts.

(** ** The life cycle *)

Section LifecycleFacts.

Import Engine.
Variable proto_has : jsstring -> bool.
Variable W : Type.
Variable behaviour : Callback -> CustomEvent -> W -> Result bool * W.

Local Abbreviation invoke := (Engine.invoke W behaviour).
Local Abbreviation every := (Engine.every W behaviour).
Local Abbreviation dispatchEvent := (Engine.dispatchEvent proto_has W behaviour).
Local Abbreviation _setReadyState := (Engine._setReadyState proto_has W behaviour).
Local Abbreviation close := (Engine.close proto_has W behaviour).
Local Abbreviation on_part := (Engine.on_part proto_has W behaviour).
Local Abbreviation handle := (Engine.handle proto_has W behaviour).
Local Abbreviation run := (Engine.run proto_has W behaviour).

Lemma keeps_ret {A} R (a : A) : Reflexive R -> keeps R (ret W a).
Proof. intros HR m. apply HR. Qed.

Lemma keeps_throw {A} R x : Reflexive R -> keeps R (throw W (A:=A) x).
Proof. intros HR m. apply HR. Qed.

Lemma keeps_get_this R : Reflexive R -> keeps R (get_this W).
Proof. intros HR m. apply HR. Qed.

Lemma keeps_bind {A B} R (c : M W A) (k : A -> M W B) :
  Transitive R -> keeps R c -> (forall a, keeps R (k a)) -> keeps R (bind W c k).
Proof.
  intros HR Hc Hk m. unfold bind. specialize (Hc m).
  destruct (c m) as [[a|x] m']; simpl in *; [|exact Hc].
  etransitivity; [exact Hc|apply Hk].
Qed.

Lemma keeps_forEach {A} R (f : A -> M W unit) l :
  Reflexive R -> Transitive R -> (forall a, keeps R (f a)) -> keeps R (forEach W f l).
Proof.
  intros Hr Ht Hf. induction l as [|a r IH]; simpl.
  - apply keeps_ret, Hr.
  - apply keeps_bind; auto.
Qed.

Global Instance calls_only_refl : Reflexive (@calls_only W).
Proof. intros m. split; [reflexivity|]. exists []. rewrite app_nil_r. auto. Qed.

Global Instance calls_only_trans : Transitive (@calls_only W).
Proof.
  intros a b c [Ht1 (c1 & Hl1 & Hc1)] [Ht2 (c2 & Hl2 & Hc2)]. split; [congruence|].
  exists (c1 ++ c2). rewrite Hl2, Hl1, app_assoc. split; [reflexivity|].
  apply Forall_app; auto.
Qed.

Lemma invoke_calls_only f e : keeps calls_only (invoke f e).
Proof.
  intros m. unfold Engine.invoke, bind, tell. cbn [world this log].
  destruct (behaviour f e (world m)) as [[p|x] w]; cbn;
    (split; [reflexivity|exists [Call f e]; split; [reflexivity|repeat constructor]]).
Qed.

Lemma every_calls_only cbs : forall e, keeps calls_only (every cbs e).
Proof.
  induction cbs as [|f r IH]; intros e; cbn [Engine.every].
  - apply keeps_ret, _.
  - apply keeps_bind; [apply _|apply invoke_calls_only|].
    intros e'. destruct (defaultPrevented e'); [apply keeps_ret, _|apply IH].
Qed.

(** What a dispatch leaves behind, returning or throwing: the engine as it
    was, and in the log the event followed by the calls of listeners. *)
Lemma dispatchEvent_log e (m : Machine W) :
  this (snd (dispatchEvent e m)) = this m
  /\ exists calls,
       log (snd (dispatchEvent e m)) = log m ++ Dispatch e :: calls
       /\ Forall is_call calls.
Proof.
  unfold Engine.dispatchEvent.
  set (rest := bind W (get_this W) _).
  assert (Hrest : keeps calls_only rest).
  { apply keeps_bind; [apply _|apply keeps_get_this, _|]. intros s.
    destruct (on_handlers s !! type e).
    - apply keeps_bind; [apply _|apply invoke_calls_only|]. intros e'.
      destruct (defaultPrevented e'); [apply keeps_ret, _|].
      destruct (slot proto_has (type e) s);
        [apply every_calls_only|apply keeps_throw, _|apply keeps_ret, _].
    - destruct (slot proto_has (type e) s);
        [apply every_calls_only|apply keeps_throw, _|apply keeps_ret, _]. }
  unfold bind at 1, tell at 1. cbn.
  destruct (Hrest {| this := this m; world := world m; log := log m ++ [Dispatch e] |})
    as [Ht (calls & Hl & Hc)].
  cbn in Ht, Hl. split; [exact Ht|].
  exists calls. rewrite Hl, <- app_assoc. auto.
Qed.

Lemma bind_get_this {A} (k : SSE -> M W A) (m : Machine W) :
  bind W (get_this W) k m = k (this m) m.
Proof. reflexivity. Qed.

Lemma keeps_weaken {A} (R R' : Machine W -> Machine W -> Prop) (c : M W A) :
  (forall m m', R m m' -> R' m m') -> keeps R c -> keeps R' c.
Proof. intros H Hc m. apply H, Hc. Qed.

Lemma dispatched_app (l1 l2 : list Effect) :
  dispatched (l1 ++ l2) = dispatched l1 ++ dispatched l2.
Proof. apply omap_app. Qed.

Lemma dispatched_calls calls : Forall is_call calls -> dispatched calls = [].
Proof.
  induction 1 as [|x l Hx _ IH]; [reflexivity|].
  destruct x; try contradiction. exact IH.
Qed.

(** *** [close] *)

Lemma setReadyState_dispatch state (m : Machine W) :
  snd (_setReadyState state m)
  = snd (dispatchEvent (readystatechange_event state)
           {| this := set_readyState state (this m); world := world m; log := log m |}).
Proof.
  unfold Engine._setReadyState, bind, update. cbn [this world log].
  fold (readystatechange_event state).
  destruct (dispatchEvent _ _) as [[b|x] m']; reflexivity.
Qed.

Lemma close_closed (m : Machine W) :
  readyState (this m) = CLOSED -> close m = (Returned tt, m).
Proof.
  intros Hc. unfold Engine.close. rewrite bind_get_this.
  rewrite bool_decide_eq_true_2 by assumption. reflexivity.
Qed.

Lemma close_open (m : Machine W) :
  readyState (this m) <> CLOSED ->
  snd (close m)
  = snd (_setReadyState CLOSED
           {| this := set_xhr false (this m); world := world m;
              log := log m ++ (if xhr (this m) then [XhrAbort] else []) |}).
Proof.
  intros Hc. unfold Engine.close. rewrite bind_get_this.
  rewrite bool_decide_eq_false_2 by assumption.
  unfold bind at 1 2, update, tell, ret.
  destruct (xhr (this m)); cbn [this world log]; [reflexivity|].
  rewrite app_nil_r. reflexivity.
Qed.


(** *** After [CLOSED] *)

Global Instance quiet_step_refl : Reflexive (@quiet_step W).
Proof. intros m. repeat split. exists []. rewrite app_nil_r. auto. Qed.

Global Instance quiet_step_trans : Transitive (@quiet_step W).
Proof.
  intros a b c (Hr1 & Hx1 & n1 & Hl1 & Hn1) (Hr2 & Hx2 & n2 & Hl2 & Hn2).
  split; [congruence|]. split; [congruence|].
  exists (n1 ++ n2). rewrite Hl2, Hl1, app_assoc. split; [reflexivity|].
  apply Forall_app; auto.
Qed.

Global Instance closed_step_refl : Reflexive (@closed_step W).
Proof. intros m _. reflexivity. Qed.

Global Instance closed_step_trans : Transitive (@closed_step W).
Proof.
  intros a b c H1 H2 Ha. specialize (H1 Ha).
  etransitivity; [exact H1|]. apply H2. destruct H1 as [-> _]. exact Ha.
Qed.

Lemma quiet_closed (m m' : Machine W) : quiet_step m m' -> closed_step m m'.
Proof. intros H _. exact H. Qed.

Lemma calls_not_open calls : Forall is_call calls -> Forall not_open calls.
Proof.
  intros H. eapply Forall_impl; [exact H|].
  intros [] Hx; try contradiction. unfold not_open. discriminate.
Qed.

Lemma dispatchEvent_quiet e :
  e <> open_event -> keeps quiet_step (dispatchEvent e).
Proof.
  intros He m. destruct (dispatchEvent_log e m) as [Ht (calls & Hl & Hc)].
  unfold quiet_step. rewrite Ht. repeat split. exists (Dispatch e :: calls). split; [exact Hl|].
  constructor; [|apply calls_not_open, Hc].
  unfold not_open. congruence.
Qed.

Lemma update_quiet (f : SSE -> SSE) :
  (forall s, readyState (f s) = readyState s /\ xhr (f s) = xhr s) ->
  keeps quiet_step (update W f).
Proof.
  intros Hf m. unfold update, quiet_step. cbn [snd this log].
  destruct (Hf (this m)) as [-> ->].
  repeat split. exists []. rewrite app_nil_r. auto.
Qed.

Lemma parsed_not_open chunk ev :
  Parser._parseEventChunk proto_has chunk = Some ev -> ev <> open_event.
Proof.
  unfold Parser._parseEventChunk. destruct chunk; [discriminate|].
  intros [= <-]. unfold Parser.event_of, open_event, new_CustomEvent. congruence.
Qed.

Lemma on_part_quiet part : keeps quiet_step (on_part part).
Proof.
  unfold Engine.on_part. apply keeps_bind; [apply _|apply keeps_get_this, _|].
  intros s. destruct (_ =? _)%nat.
  - destruct (Parser._parseEventChunk _ _) as [ev|] eqn:Hp; [|apply keeps_ret, _].
    apply keeps_bind; [apply _|apply dispatchEvent_quiet; eapply parsed_not_open, Hp|].
    intros _. apply update_quiet. auto.
  - apply update_quiet. auto.
Qed.

Lemma setReadyState_step state (m : Machine W) :
  let m' := snd (_setReadyState state m) in
  readyState (this m') = state
  /\ xhr (this m') = xhr (this m)
  /\ exists new, log m' = log m ++ new /\ Forall not_open new.
Proof.
  cbn zeta. rewrite setReadyState_dispatch.
  match goal with |- context [dispatchEvent ?e ?m0] =>
    destruct (dispatchEvent_log e m0) as [Ht (calls & Hl & Hc)] end.
  rewrite Ht, Hl. cbn [this log]. repeat split.
  exists (Dispatch (readystatechange_event state) :: calls). split; [reflexivity|].
  constructor; [|apply calls_not_open, Hc].
  unfold not_open, readystatechange_event, open_event, new_CustomEvent. congruence.
Qed.

Lemma setReadyState_closed_step : keeps closed_step (_setReadyState CLOSED).
Proof.
  intros m Hc. destruct (setReadyState_step CLOSED m) as (Hr & Hx & Hl).
  split; [congruence|]. split; assumption.
Qed.

Lemma close_closed_step : keeps closed_step close.
Proof. intros m Hc. rewrite (close_closed m Hc). reflexivity. Qed.

Lemma onStreamFailure_closed_step :
  keeps closed_step (_onStreamFailure proto_has W behaviour).
Proof.
  apply keeps_bind; [apply _| |intros _; apply close_closed_step].
  eapply keeps_weaken; [apply quiet_closed|].
  apply dispatchEvent_quiet. unfold open_event, new_CustomEvent. congruence.
Qed.

Lemma onStreamAbort_closed_step :
  keeps closed_step (_onStreamAbort proto_has W behaviour).
Proof.
  apply keeps_bind; [apply _| |intros _; apply close_closed_step].
  eapply keeps_weaken; [apply quiet_closed|].
  apply dispatchEvent_quiet. unfold open_event, new_CustomEvent.
  intros H. apply (f_equal type) in H. vm_compute in H. discriminate.
Qed.

Lemma checkStreamClosed_closed_step x :
  keeps closed_step (_checkStreamClosed proto_has W behaviour x).
Proof.
  apply keeps_bind; [apply _|apply keeps_get_this, _|]. intros s.
  destruct (negb (xhr s)); [apply keeps_ret, _|].
  destruct (_ =? _)%Z; [apply setReadyState_closed_step|apply keeps_ret, _].
Qed.

Lemma onStreamProgress_closed_step x :
  keeps closed_step (_onStreamProgress proto_has W behaviour x).
Proof.
  intros m Hc. unfold Engine._onStreamProgress. rewrite bind_get_this.
  destruct (negb (xhr (this m))); [reflexivity|].
  destruct (negb _); [apply onStreamFailure_closed_step, Hc|].
  rewrite bool_decide_eq_false_2 by (rewrite Hc; discriminate).
  revert m Hc. change (keeps closed_step
    (bind W (ret W tt) (fun _ =>
       bind W (get_this W) (fun s =>
         bind W (update W (set_progress
                   (progress s + length (substring_from (progress s) (responseText x)))))
           (fun _ => forEach W on_part
              (regex_split blank_line (substring_from (progress s) (responseText x)))))))).
  eapply keeps_weaken; [apply quiet_closed|].
  apply keeps_bind; [apply _|apply keeps_ret, _|]. intros _.
  apply keeps_bind; [apply _|apply keeps_get_this, _|]. intros s.
  apply keeps_bind; [apply _|apply update_quiet; auto|]. intros _.
  apply keeps_forEach; [apply _|apply _|apply on_part_quiet].
Qed.

Lemma onStreamLoaded_closed_step x :
  keeps closed_step (_onStreamLoaded proto_has W behaviour x).
Proof.
  apply keeps_bind; [apply _|apply onStreamProgress_closed_step|]. intros _.
  eapply keeps_weaken; [apply quiet_closed|].
  apply keeps_bind; [apply _|apply keeps_get_this, _|]. intros s.
  destruct (Parser._parseEventChunk _ _) as [ev|] eqn:Hp; [|apply keeps_ret, _].
  apply keeps_bind; [apply _|apply dispatchEvent_quiet; eapply parsed_not_open, Hp|].
  intros _. apply update_quiet. auto.
Qed.

Lemma handle_closed_step c : keeps closed_step (handle c).
Proof.
  destruct c; cbn [Engine.handle];
    auto using checkStreamClosed_closed_step, onStreamProgress_closed_step,
               onStreamLoaded_closed_step, onStreamFailure_closed_step,
               onStreamAbort_closed_step.
Qed.

Lemma run_closed_step cs : forall m, closed_step m (run cs m).
Proof.
  induction cs as [|c r IH]; intros m; cbn; [reflexivity|].
  etransitivity; [apply handle_closed_step|apply IH].
Qed.

(** Once [close] has run: the engine is closed and the transport released. *)
Lemma handle_released c (m : Machine W) :
  readyState (this m) = CLOSED -> xhr (this m) = false -> is_load c = false ->
  let m' := snd (handle c m) in
  this m' = this m
  /\ dispatched (log m') = dispatched (log m) ++ own_event c.
Proof.
  intros Hc Hx Hl. cbn zeta.
  assert (Hd : forall e,
    let m' := snd (bind W (dispatchEvent e) (fun _ => close) m) in
    this m' = this m /\ dispatched (log m') = dispatched (log m) ++ [e]).
  { intros e. cbn zeta. unfold bind.
    destruct (dispatchEvent_log e m) as [Ht (calls & Hlog & Hcalls)].
    destruct (dispatchEvent e m) as [[b|x] m2]; cbn [snd] in *.
    - rewrite close_closed by congruence. cbn [snd]. split; [exact Ht|].
      rewrite Hlog, dispatched_app.
      change (dispatched (Dispatch e :: calls)) with (e :: dispatched calls).
      rewrite (dispatched_calls calls) by assumption. reflexivity.
    - split; [exact Ht|].
      rewrite Hlog, dispatched_app.
      change (dispatched (Dispatch e :: calls)) with (e :: dispatched calls).
      rewrite (dispatched_calls calls) by assumption. reflexivity. }
  destruct c; cbn [Engine.handle own_event]; try discriminate.
  - unfold Engine._checkStreamClosed. rewrite bind_get_this, Hx. cbn.
    rewrite app_nil_r. auto.
  - unfold Engine._onStreamProgress. rewrite bind_get_this, Hx. cbn.
    rewrite app_nil_r. auto.
  - apply Hd.
  - apply Hd.
Qed.

Lemma run_released cs : forall (m : Machine W),
  readyState (this m) = CLOSED -> xhr (this m) = false ->
  Forall (fun c => is_load c = false) cs ->
  dispatched (log (run cs m)) = dispatched (log m) ++ flat_map own_event cs.
Proof.
  induction cs as [|c r IH]; intros m Hc Hx Hall; cbn.
  - rewrite app_nil_r. reflexivity.
  - inversion Hall as [|? ? Hl Hr]; subst.
    destruct (handle_released c m Hc Hx Hl) as [Ht Hd].
    unfold Engine.run in IH. rewrite IH by (rewrite ?Ht; assumption).
    rewrite Hd, <- app_assoc. reflexivity.
Qed.

(** C4 (amended). Once the connection state is [CLOSED] it stays [CLOSED]
    under every sequence of transport callbacks (progress, load, error,
    abort, ready-state-change), and none of them dispatches the engine's
    [open] event again.  Once [close()] has run, so that the transport is
    released as well, the progress and ready-state-change callbacks dispatch
    nothing, and the error and abort callbacks dispatch their own [error] or
    [abort] event and nothing else. *)
Theorem C4_closed_stays_closed (cs : list TransportCallback) (m : Machine W) :
  readyState (this m) = CLOSED ->
  readyState (this (run cs m)) = CLOSED
  /\ (exists new, log (run cs m) = log m ++ new /\ Dispatch open_event ∉ new)
  /\ (xhr (this m) = false ->
      Forall (fun c => is_load c = false) cs ->
      dispatched (log (run cs m)) = dispatched (log m) ++ flat_map own_event cs).
Proof.
  intros Hc. destruct (run_closed_step cs m Hc) as (Hr & _ & new & Hl & Hn).
  split; [congruence|]. split.
  - exists new. split; [exact Hl|].
    intros Hin. rewrite Forall_forall in Hn. exact (Hn _ Hin eq_refl).
  - intros Hx Hall. apply run_released; assumption.
Qed.

End LifecycleFacts.

(** ** Runs of the engine *)

Section EngineRuns.

Import Engine Scenario.

Local Abbreviation run := (Engine.run standard_proto unit silent).

(** C1. The payload "data:a\n\ndata:b\n\n" delivered in one increment gives
    two events, with data "a" and "b".  Delivered as "data:a\n" followed by
    "\ndata:b\n\n", so that the two line breaks of the first blank line
    arrive in different increments, it gives a single event with data "ab":
    the blank line does not end the chunk, and the events dispatched depend
    on where the payload is split. *)
Theorem C1_split_blank_line_is_missed :
  let payload := u "data:a" ++ [LF; LF] ++ u "data:b" ++ [LF; LF] in
  let increments := [u "data:a" ++ [LF]; [LF] ++ u "data:b" ++ [LF; LF]] in
  concat increments = payload
  /\ events_of_delivery [payload] = [message (u "a"); message (u "b")]
  /\ events_of_delivery increments = [message (u "ab")]
  /\ ~ (forall increments : list jsstring,
          events_of_delivery increments = events_of_delivery [concat increments]).
Proof.
  intros payload increments.
  assert (H1 : events_of_delivery [payload] = [message (u "a"); message (u "b")])
    by (vm_compute; reflexivity).
  assert (H2 : events_of_delivery increments = [message (u "ab")])
    by (vm_compute; reflexivity).
  split; [reflexivity|]. split; [exact H1|]. split; [exact H2|].
  intros Hall. specialize (Hall increments).
  change (concat increments) with payload in Hall.
  rewrite H1, H2 in Hall. discriminate Hall.
Qed.

(** An increment that is a single line break ends the pending chunk, where
    the same line break inside one increment only separates two lines. *)
Example lone_line_break_ends_the_chunk :
  events_of_delivery [u "data:a" ++ [LF] ++ u "data:b" ++ [LF; LF]]
  = [message (u "ab")]
  /\ events_of_delivery [u "data:a"; [LF]; u "data:b" ++ [LF; LF]]
     = [message (u "a"); message (u "b")].
Proof. split; vm_compute; reflexivity. Qed.

(** C4, as the claim states it, fails: the ready-state callback closes the
    engine when the transport reports completion, and the load callback
    that follows still dispatches the event of the text received. *)
Lemma C4_counterexample :
  readyState (this done_first) = CLOSED
  /\ data_events (log done_first) = []
  /\ data_events (log (run [onload (complete (u "data:b"))] done_first))
     = [message (u "b")].
Proof. vm_compute. repeat split. Qed.

(** After [close()] itself, a late load callback still flushes a chunk that
    was pending. *)
Example load_after_close_flushes :
  let m := snd (close standard_proto unit silent
                  (run [onprogress (receiving (u "data:a"))] started)) in
  readyState (this m) = CLOSED
  /\ xhr (this m) = false
  /\ data_events (log m) = []
  /\ data_events (log (run [onload (complete (u "data:a"))] m)) = [message (u "a")].
Proof. vm_compute. repeat split. Qed.

End EngineRuns.

Lemma C4_closed_witness :
  let cs := [Engine.onprogress (Scenario.receiving (u "data:a" ++ [LF; LF]));
             Engine.onerror;
             Engine.onreadystatechange (Scenario.complete (u "data:a" ++ [LF; LF]));
             Engine.onabort] in
  let m' := Engine.run standard_proto unit Scenario.silent cs Scenario.closed_by_close in
  readyState (Engine.this m') = CLOSED
  /\ Engine.dispatched (Engine.log m')
     = Engine.dispatched (Engine.log Scenario.closed_by_close)
       ++ [Engine.error_event; Engine.abort_event].
Proof.
  intros cs m'.
  destruct (C4_closed_stays_closed standard_proto unit Scenario.silent cs
              Scenario.closed_by_close) as (H1 & _ & H3).
  - vm_compute. reflexivity.
  - split; [exact H1|]. apply H3.
    + vm_compute. reflexivity.
    + repeat constructor.
Defined.


Lemma C9_dispatch_witness :
  let e := new_CustomEvent (u "next") (Data [] None) in
  Engine.dispatchEvent standard_proto nat Scenario.counting e Scenario.registered
  = (Returned false,
     {| Engine.this := Engine.this Scenario.registered;
        Engine.world := 3%nat;
        Engine.log := [Dispatch e; Call 1 e; Call 2 e] |}).
Proof.
  intros e.
  assert (Hl : listeners (Engine.this Scenario.registered) !! type e = Some [1; 2; 3]%nat)
    by (vm_compute; reflexivity).
  assert (Hinv : Engine.registered_once (Engine.this Scenario.registered)).
  { unfold Scenario.registered. cbn [foldl].
    repeat apply addEventListener_registered_once.
    intros t cbs. cbn. rewrite lookup_empty. discriminate. }
  destruct (C9_dispatch_in_registration_order standard_proto nat Scenario.counting
              Scenario.registered e [1; 2; 3]%nat Hl eq_refl Hinv)
    as (_ & _ & _ & Hstop & _).
  apply (Hstop [1%nat] 2%nat [3%nat] 1%nat 3%nat).
  - vm_compute. reflexivity.
  - econstructor; [reflexivity|constructor].
  - reflexivity.
Defined.

(** ** The subscription reconciler *)

Section SubscriptionFacts.

Import Subscription.

Variable JSON_parse : jsstring -> option JsValue.
Variable applyPatch : JsValue -> JsValue -> option JsValue.
Variable onData : JsValue -> JsValue -> option Exn.

Local Abbreviation next_listener := (Subscription.next_listener JSON_parse applyPatch onData).


(** C3 (amended). For a [next] event whose parsed body is an object: if its
    [patch] is truthy and the stored previous value is truthy (neither
    missing nor one of null, 0, "", false), the value is what applying the
    patch to the previous value returns; otherwise it is [data] verbatim when
    [data] is not null, and null when it is.  [onData(value, errors)] is then
    called, and when it returns the stored last value is that value, null
    included. *)
Theorem C3_next_value
    (event : CustomEvent) (st : State) (props : list (jsstring * JsValue))
    (value : JsValue) :
  let patch := own_prop (u "patch") props in
  let data := own_prop (u "data") props in
  let errors := own_prop (u "errors") props in
  JSON_parse (event_data event) = Some (JObject props) ->
  (if truthy patch && truthy (lastValue st)
   then applyPatch (lastValue st) patch = Some value
   else value = if not_null data then data else JNull) ->
  onData value errors = None ->
  next_listener event st
  = (Returned false,
     {| lastValue := value; onData_calls := onData_calls st ++ [(value, errors)] |}).
Proof.
  intros patch data errors Hparse Hvalue Hret.
  unfold Subscription.next_listener, new_value. rewrite Hparse. cbn [get].
  fold patch data errors.
  destruct (truthy patch && truthy (lastValue st)).
  - rewrite Hvalue, Hret. reflexivity.
  - subst value. destruct (not_null data); rewrite Hret; reflexivity.
Qed.

(** C10. When the [data] of a [next] event is not valid JSON, [JSON.parse]
    throws and the listener does not catch it: [onData] is not called and the
    stored last value is unchanged.  Dispatched by the engine to that
    listener, the exception leaves [dispatchEvent] as well. *)
Theorem C10_malformed_json_escapes
    (event : CustomEvent) (st : State) :
  JSON_parse (event_data event) = None ->
  next_listener event st = (Thrown SyntaxError, st)
  /\ forall proto_has behaviour (m : Engine.Machine State) f,
       Engine.world m = st ->
       on_handlers (Engine.this m) !! type event = None ->
       listeners (Engine.this m) !! type event = Some [f] ->
       behaviour f = Subscription.next_listener JSON_parse applyPatch onData ->
       Engine.dispatchEvent proto_has State behaviour event m
       = (Thrown SyntaxError,
          {| Engine.this := Engine.this m; Engine.world := st;
             Engine.log := Engine.log m ++ [Dispatch event; Call f event] |}).
Proof.
  intros Hparse.
  assert (Hnext : next_listener event st = (Thrown SyntaxError, st)).
  { unfold Subscription.next_listener. rewrite Hparse. reflexivity. }
  split; [exact Hnext|].
  intros proto_has behaviour m f Hw Hon Hl Hb.
  rewrite (dispatchEvent_every _ _ _ _ _ _ Hl).
  unfold Engine.callbacks_for. rewrite Hon, Hl.
  change (option_list None ++ default [] (Some [f])) with [f].
  cbn [Engine.every]. unfold Engine.bind at 1.
  rewrite (invoke_thrown State behaviour f event _ SyntaxError st)
    by (cbn [Engine.world]; rewrite Hb, Hw; exact Hnext).
  cbn [Engine.this Engine.log]. rewrite <- app_assoc. reflexivity.
Qed.

End SubscriptionFacts.

(** C7. Whatever headers the caller gives to [subscribe], the keys
    [X-GQL-Transport] and [Content-Type] among them included, the engine is
    constructed with headers that map [X-GQL-Transport] to "live-query" and
    [Content-Type] to "application/json", and that map every other key to
    what the caller gave for it. *)
Theorem C7_fixed_headers_win
    (url : jsstring) (caller : option (gmap jsstring jsstring))
    (payload : jsstring) (withCredentials : option bool) :
  url <> [] ->
  exists s hs,
    Subscription.subscribe_source url caller payload withCredentials = Returned s
    /\ headers (options s) = Some hs
    /\ hs !! u "X-GQL-Transport" = Some (u "live-query")
    /\ hs !! u "Content-Type" = Some (u "application/json")
    /\ forall k, k <> u "X-GQL-Transport" -> k <> u "Content-Type" ->
                 hs !! k = default ∅ caller !! k.
Proof.
  intros Hurl. unfold Subscription.subscribe_source, new_SSE.
  destruct url as [|c r]; [congruence|].
  eexists _, _. split; [reflexivity|]. cbn [options headers Subscription.subscribe_options].
  split; [reflexivity|]. split; [|split].
  - rewrite lookup_insert_ne by (vm_compute; discriminate). apply lookup_insert_eq.
  - apply lookup_insert_eq.
  - intros k H1 H2. rewrite !lookup_insert_ne by congruence. reflexivity.
Qed.

(** ** Runs of the subscription *)

Section SubscriptionRuns.

Import Subscription Scenario.


(** C3, as the claim states it, fails: the stored value is [0] and the
    message carries a patch that would replace it by [5]; the patch is not
    applied, and the value is the [data] of the message, null. *)
Lemma C3_counterexample :
  lastValue after_zero = JNumber 0
  /\ root_applyPatch (JNumber 0) (JArray [replace_by (JNumber 5)]) = Some (JNumber 5)
  /\ listener (next_event replace_5) after_zero
     = (Returned false,
        {| lastValue := JNull;
           onData_calls := [(JNumber 0, JNull); (JNull, JNull)] |}).
Proof. vm_compute. repeat split. Qed.

End SubscriptionRuns.


Lemma C3_next_value_witness :
  Scenario.listener (Scenario.next_event Scenario.replace_5) Scenario.after_object
  = (Returned false,
     {| Subscription.lastValue := Subscription.JNumber 5;
        Subscription.onData_calls :=
          [(Subscription.JObject [(u "a", Subscription.JNumber 1)], Subscription.JNull);
           (Subscription.JNumber 5, Subscription.JNull)] |}).
Proof.
  apply (C3_next_value Subscription.table_parse Subscription.root_applyPatch
           Subscription.returns (Scenario.next_event Scenario.replace_5)
           Scenario.after_object
           [(u "data", Subscription.JNull); (u "errors", Subscription.JNull);
            (u "patch", Subscription.JArray
                          [Subscription.replace_by (Subscription.JNumber 5)])]
           (Subscription.JNumber 5));
    vm_compute; reflexivity.
Defined.

Lemma C10_malformed_json_witness :
  let e := Scenario.next_event (u "{data:") in
  Scenario.listener e Subscription.initial = (Thrown SyntaxError, Subscription.initial)
  /\ Engine.dispatchEvent standard_proto Subscription.State
       (fun _ => Scenario.listener) e Scenario.subscribed
     = (Thrown SyntaxError,
        {| Engine.this := Engine.this Scenario.subscribed;
           Engine.world := Subscription.initial;
           Engine.log := [Dispatch e; Call 0%nat e] |}).
Proof.
  intros e.
  destruct (C10_malformed_json_escapes Subscription.table_parse
              Subscription.root_applyPatch Subscription.returns e Subscription.initial)
    as [Hl Hd].
  - vm_compute. reflexivity.
  - split; [exact Hl|].
    apply (Hd standard_proto (fun _ => Scenario.listener) Scenario.subscribed 0%nat).
    + reflexivity.
    + vm_compute. reflexivity.
    + vm_compute. reflexivity.
    + reflexivity.
Defined.

Lemma C7_fixed_headers_witness :
  exists s hs,
    Subscription.subscribe_source (u "/graphql")
      (Some (<[u "Content-Type" := u "text/plain"]>
               (<[u "Authorization" := u "token"]> ∅)))
      (u "{}") None = Returned s
    /\ headers (options s) = Some hs
    /\ hs !! u "X-GQL-Transport" = Some (u "live-query")
    /\ hs !! u "Content-Type" = Some (u "application/json")
    /\ hs !! u "Authorization" = Some (u "token").
Proof.
  destruct (C7_fixed_headers_win (u "/graphql")
              (Some (<[u "Content-Type" := u "text/plain"]>
                       (<[u "Authorization" := u "token"]> ∅)))
              (u "{}") None) as (s & hs & Hs & Hh & Hx & Hc & Hother).
  - vm_compute. discriminate.
  - exists s, hs. repeat split; try assumption.
    rewrite Hother by (vm_compute; discriminate).
    vm_compute. reflexivity.
Defined.

(** * More of the code *)

(** ** The parser: the other fields, and the lines of a chunk *)

Section ParserMore.

Import Parser Wire Lines.
Variable proto_has : jsstring -> bool.

Lemma recognized_not_proto name : name ∈ recognized -> name <> u "__proto__".
Proof.
  unfold recognized. intros H.
  repeat (apply elem_of_cons in H as [->|H]); try (vm_compute; discriminate).
  inversion H.
Qed.

(** A line with one of the names [id], [event], [retry] overwrites it. *)
Lemma parse_line_named e line name :
  name ∈ recognized -> name <> u "data" -> present e ->
  field_name line = Some name ->
  parse_line proto_has e line !! name = Some (Some (field_value line)).
Proof.
  intros Hr Hd He Hn. rewrite parse_line_by_name, Hn. unfold field_in.
  rewrite bool_decide_eq_true_2 by (apply He, Hr). cbn [orb negb].
  rewrite bool_decide_eq_false_2 by assumption.
  unfold assign. rewrite bool_decide_eq_false_2 by (apply recognized_not_proto, Hr).
  apply lookup_insert_eq.
Qed.

Lemma parse_lines_last name lines :
  name ∈ recognized -> name <> u "data" ->
  parse_lines proto_has lines !! name
  = match last_line_of name lines with
    | Some l => Some (Some (field_value l))
    | None => e_init !! name
    end.
Proof.
  intros Hr Hd. unfold parse_lines, last_line_of.
  induction lines as [|l r IH] using rev_ind; [reflexivity|].
  rewrite foldl_app, List.filter_app. cbn [foldl List.filter].
  unfold is_line_of at 2.
  destruct (bool_decide_reflect (field_name l = Some name)) as [Hl|Hl].
  - rewrite last_snoc.
    apply parse_line_named; auto.
    apply parse_lines_present, e_init_present.
  - rewrite app_nil_r, parse_line_other by assumption. exact IH.
Qed.

(** X1. The event of a chunk that is not empty, field by field: its type is
    the value of the last [event] line, or "message" without one; its data
    is the concatenation of the values of the [data] lines; its id is the
    value of the last [id] line, or null without one. *)
Theorem X1_event_of_a_chunk (chunk : jsstring) :
  chunk <> [] ->
  _parseEventChunk proto_has chunk
  = Some (new_CustomEvent
            (default (u "message")
               (field_value <$> last_line_of (u "event") (lines_of chunk)))
            (Data (data_of_lines (lines_of chunk))
                  (field_value <$> last_line_of (u "id") (lines_of chunk)))).
Proof.
  intros Hne. rewrite parse_chunk_event by assumption.
  rewrite !parse_lines_last
    by (try (unfold recognized; set_solver); vm_compute; discriminate).
  destruct (last_line_of (u "event") (lines_of chunk));
    destruct (last_line_of (u "id") (lines_of chunk)); reflexivity.
Qed.

(** X2. A chunk that is not empty always gives an event.  When none of its
    lines carries one of the four names (a chunk of comment lines, say) the
    event is an empty one: type "message", data "", id null. *)
Theorem X2_chunk_without_fields (chunk : jsstring) :
  chunk <> [] ->
  Forall (fun l => forall f, f ∈ recognized -> field_name l <> Some f) (lines_of chunk) ->
  _parseEventChunk proto_has chunk
  = Some (new_CustomEvent (u "message") (Data [] None)).
Proof.
  intros Hne Hall. rewrite parse_chunk_event by assumption.
  assert (Hun : forall f, f ∈ recognized ->
            parse_lines proto_has (lines_of chunk) !! f = e_init !! f).
  { intros f Hf. apply parse_lines_untouched.
    eapply Forall_impl; [exact Hall|]. intros l Hl. apply Hl, Hf. }
  rewrite !Hun by (unfold recognized; set_solver).
  assert (Hd : data_of_lines (lines_of chunk) = []).
  { pose proof (parse_lines_data proto_has (lines_of chunk) e_init [] eq_refl) as H.
    fold (parse_lines proto_has (lines_of chunk)) in H.
    rewrite (Hun (u "data")) in H by (unfold recognized; set_solver).
    change (e_init !! u "data") with (Some (Some (@nil N))) in H.
    injection H as H. symmetry. exact H. }
  rewrite Hd. reflexivity.
Qed.

End ParserMore.

Lemma X1_event_of_a_chunk_witness :
  Parser._parseEventChunk standard_proto
    (u "id:1" ++ [LF] ++ u "event:next" ++ [CR; LF] ++ u "id: 2"
       ++ [CR] ++ u "data:x" ++ [LF] ++ u "event: patch ")
  = Some (new_CustomEvent (u "patch") (Data (u "x") (Some (u "2")))).
Proof.
  apply (X1_event_of_a_chunk standard_proto). vm_compute. discriminate.
Defined.

Lemma X2_chunk_without_fields_witness :
  Parser._parseEventChunk standard_proto (u ":keep-alive" ++ [LF] ++ u "foo:bar")
  = Some (new_CustomEvent (u "message") (Data [] None)).
Proof.
  apply (X2_chunk_without_fields standard_proto).
  - vm_compute. discriminate.
  - vm_compute. repeat constructor;
      intros f Hf; unfold Wire.recognized in Hf;
      repeat (apply elem_of_cons in Hf as [->|Hf]); try discriminate; inversion Hf.
Defined.

Section LineBreaks.

Import Wire Lines.

Lemma line_break_other c r : c <> CR -> c <> LF -> line_break (c :: r) = None.
Proof.
  intros H1 H2. unfold line_break, alts_at. cbn [List.filter starts_with].
  destruct (N.eqb_spec LF c) as [E|_]; [congruence|].
  destruct (N.eqb_spec CR c) as [E|_]; [congruence|]. reflexivity.
Qed.

Lemma line_break_LF r : line_break (LF :: r) = Some ([], 1%nat).
Proof. reflexivity. Qed.

Lemma line_break_CRLF r : line_break (CR :: LF :: r) = Some ([], 2%nat).
Proof. reflexivity. Qed.

Lemma line_break_CR r : (forall r', r <> LF :: r') -> line_break (CR :: r) = Some ([], 1%nat).
Proof.
  intros Hr. destruct r as [|c r']; [reflexivity|].
  unfold line_break, alts_at. cbn [List.filter starts_with].
  change (N.eqb LF CR) with false. change (N.eqb CR CR) with true.
  cbn [andb].
  destruct (N.eqb_spec LF c) as [E|_]; [|reflexivity].
  subst c. exfalso. exact (Hr r' eq_refl).
Qed.

(** A segment without line breaks, followed by a line end, is one line. *)
Lemma split_segment seg : forall acc sep rest,
  break_free seg = true -> sep ∈ line_ends ->
  (sep = [CR] -> forall r', rest <> LF :: r') ->
  split_go line_break (seg ++ sep ++ rest) 0 acc
  = (rev acc ++ seg) :: split_go line_break rest 0 [].
Proof.
  induction seg as [|c seg IH]; intros acc sep rest Hfree Hsep Hrest.
  - rewrite app_nil_r. cbn [app]. unfold line_ends in Hsep.
    repeat (apply elem_of_cons in Hsep as [->|Hsep]); [| | |inversion Hsep].
    + cbn [app split_go]. rewrite line_break_LF. reflexivity.
    + cbn [app split_go]. rewrite line_break_CRLF. reflexivity.
    + cbn [app split_go]. rewrite line_break_CR by auto. reflexivity.
  - cbn [break_free forallb] in Hfree.
    apply andb_true_iff in Hfree as [Hc Hfree].
    apply andb_true_iff in Hc as [Hc1 Hc2].
    apply negb_true_iff in Hc1, Hc2.
    apply N.eqb_neq in Hc1, Hc2.
    cbn [app split_go]. rewrite line_break_other by assumption.
    rewrite (IH (c :: acc) sep rest Hfree Hsep Hrest).
    cbn [rev]. rewrite <- app_assoc. reflexivity.
Qed.

Lemma split_last_segment seg : forall acc,
  break_free seg = true -> split_go line_break seg 0 acc = [rev acc ++ seg].
Proof.
  induction seg as [|c seg IH]; intros acc Hfree.
  - rewrite app_nil_r. reflexivity.
  - cbn [break_free forallb] in Hfree.
    apply andb_true_iff in Hfree as [Hc Hfree].
    apply andb_true_iff in Hc as [Hc1 Hc2].
    apply negb_true_iff in Hc1, Hc2.
    apply N.eqb_neq in Hc1, Hc2.
    cbn [split_go]. rewrite line_break_other by assumption.
    rewrite (IH (c :: acc) Hfree). cbn [rev]. rewrite <- app_assoc. reflexivity.
Qed.

Lemma join_not_LF segments : forall r',
  Forall (fun s => break_free s = true) segments ->
  join [CR] segments <> LF :: r'.
Proof.
  intros r' Hall. destruct segments as [|s r]; [discriminate|].
  inversion Hall as [|? ? Hs Hr]; subst.
  assert (Hhead : forall t, s ++ t <> LF :: r' \/ s = []).
  { intros t. destruct s as [|c s']; [right; reflexivity|left].
    cbn [break_free forallb] in Hs.
    apply andb_true_iff in Hs as [Hc _]. apply andb_true_iff in Hc as [_ Hc].
    apply negb_true_iff, N.eqb_neq in Hc. cbn. congruence. }
  destruct r as [|s2 r].
  - cbn [join]. destruct (Hhead []) as [H| ->]; [rewrite app_nil_r in H; exact H|discriminate].
  - cbn [join]. destruct (Hhead ([CR] ++ join [CR] (s2 :: r))) as [H| ->]; [exact H|].
    cbn. discriminate.
Qed.

(** X3. Splitting is the inverse of joining: texts without line breaks,
    joined by any one of the three line ends ("\n", "\r\n" or "\r"), are split
    by the parser into exactly those texts.  In particular "\r\n" ends one
    line, not two. *)
Theorem X3_lines_of_join (sep : jsstring) (segments : list jsstring) :
  sep ∈ line_ends ->
  segments <> [] ->
  Forall (fun s => break_free s = true) segments ->
  lines_of (join sep segments) = segments.
Proof.
  intros Hsep Hne Hall. unfold lines_of, regex_split.
  induction segments as [|s r IH]; [congruence|].
  inversion Hall as [|? ? Hs Hr]; subst.
  destruct r as [|s2 r].
  - cbn [join]. apply (split_last_segment s [] Hs).
  - change (join sep (s :: s2 :: r)) with (s ++ sep ++ join sep (s2 :: r)).
    rewrite split_segment; [|assumption|assumption|].
    + rewrite IH by (congruence || assumption). reflexivity.
    + intros -> r'. apply join_not_LF, Hr.
Qed.

End LineBreaks.

Lemma X3_lines_of_join_witness :
  Wire.lines_of (u "id:1" ++ [CR; LF] ++ [CR; LF] ++ u "data: x")
  = [u "id:1"; []; u "data: x"].
Proof.
  apply (X3_lines_of_join [CR; LF] [u "id:1"; []; u "data: x"]).
  - unfold Lines.line_ends. set_solver.
  - discriminate.
  - repeat constructor.
Defined.

(** ** The registry: [addEventListener], [removeEventListener] *)

Lemma filter_others_id (f : Callback) cbs :
  f ∉ cbs -> List.filter (fun g => negb (bool_decide (g = f))) cbs = cbs.
Proof.
  induction cbs as [|g r IH]; intros Hf; [reflexivity|].
  cbn [List.filter]. rewrite bool_decide_eq_false_2 by set_solver. cbn [negb].
  rewrite IH by set_solver. reflexivity.
Qed.

Lemma filter_others_app (f : Callback) cbs :
  f ∉ cbs -> List.filter (fun g => negb (bool_decide (g = f))) (cbs ++ [f]) = cbs.
Proof.
  intros Hf. rewrite List.filter_app, filter_others_id by assumption.
  cbn [List.filter]. rewrite bool_decide_eq_true_2 by reflexivity.
  apply app_nil_r.
Qed.

Lemma filter_others_not_in (f : Callback) cbs :
  f ∉ List.filter (fun g => negb (bool_decide (g = f))) cbs.
Proof.
  intros Hin. apply list_elem_of_In, List.filter_In in Hin as [_ Hin].
  rewrite bool_decide_eq_true_2 in Hin by reflexivity. discriminate.
Qed.

Section RegistryMore.

Import Engine Registry.
Variable proto_has : jsstring -> bool.
Variable W : Type.
Variable behaviour : Callback -> CustomEvent -> W -> Result bool * W.

Local Abbreviation invoke := (Engine.invoke W behaviour).
Local Abbreviation every := (Engine.every W behaviour).
Local Abbreviation dispatchEvent := (Engine.dispatchEvent proto_has W behaviour).
Local Abbreviation addEventListener := (Engine.addEventListener proto_has W).
Local Abbreviation removeEventListener := (Engine.removeEventListener proto_has W).

Lemma set_listeners_same (s : SSE) : set_listeners (listeners s) s = s.
Proof. destruct s. reflexivity. Qed.

Lemma machine_eta (m : Machine W) :
  {| this := this m; world := world m; log := log m |} = m.
Proof. destruct m. reflexivity. Qed.

Lemma set_listeners_twice l1 l2 (s : SSE) :
  set_listeners l2 (set_listeners l1 s) = set_listeners l2 s.
Proof. reflexivity. Qed.

Lemma addEventListener_inherited t f (m : Machine W) :
  listeners (this m) !! t = None -> proto_has t = true ->
  addEventListener t f m = (Thrown TypeError, m).
Proof.
  intros Hl Hp. unfold Engine.addEventListener. rewrite bind_get_this.
  unfold slot. rewrite Hl, Hp. reflexivity.
Qed.

Lemma removeEventListener_inherited t f (m : Machine W) :
  listeners (this m) !! t = None -> proto_has t = true ->
  removeEventListener t f m = (Thrown TypeError, m).
Proof.
  intros Hl Hp. unfold Engine.removeEventListener. rewrite bind_get_this.
  unfold slot. rewrite Hl, Hp. reflexivity.
Qed.

Lemma removeEventListener_undefined t f (m : Machine W) :
  listeners (this m) !! t = None -> proto_has t = false ->
  removeEventListener t f m = (Returned tt, m).
Proof.
  intros Hl Hp. unfold Engine.removeEventListener. rewrite bind_get_this.
  unfold slot. rewrite Hl, Hp. reflexivity.
Qed.

(** What is left of the array of a type when a listener is taken out. *)
Lemma removeEventListener_own t f (m : Machine W) cbs :
  listeners (this m) !! t = Some cbs ->
  removeEventListener t f m
  = (Returned tt,
     {| this := set_listeners
                  (match List.filter (fun g => negb (bool_decide (g = f))) cbs with
                   | [] => delete t (listeners (this m))
                   | rest => <[t := rest]> (listeners (this m))
                   end) (this m);
        world := world m; log := log m |}).
Proof.
  intros Hl. unfold Engine.removeEventListener. rewrite bind_get_this.
  unfold slot. rewrite Hl.
  destruct (List.filter _ cbs); reflexivity.
Qed.

(** X4. Registering a listener a second time for the same type changes
    nothing: the second call does what the first did and leaves the engine
    as the first left it. *)
Theorem X4_addEventListener_idempotent (t : jsstring) (f : Callback) (m : Machine W) :
  addEventListener t f (snd (addEventListener t f m)) = addEventListener t f m.
Proof.
  clear behaviour.
  destruct (listeners (this m) !! t) as [cbs|] eqn:Hl.
  - destruct (decide (f ∈ cbs)) as [Hin|Hin].
    + rewrite (addEventListener_known proto_has W t f m cbs Hl Hin). cbn [snd].
      apply (addEventListener_known proto_has W t f m cbs Hl Hin).
    + rewrite (addEventListener_appends proto_has W t f m cbs Hl Hin). cbn [snd].
      apply (addEventListener_known proto_has W t f _ (cbs ++ [f])).
      * cbn. apply lookup_insert_eq.
      * set_solver.
  - destruct (proto_has t) eqn:Hp.
    + rewrite (addEventListener_inherited t f m Hl Hp). cbn [snd].
      apply (addEventListener_inherited t f m Hl Hp).
    + rewrite (addEventListener_first proto_has W t f m Hl Hp). cbn [snd].
      apply (addEventListener_known proto_has W t f _ [f]).
      * cbn. apply lookup_insert_eq.
      * set_solver.
Qed.

Lemma mark_false_any e : mark e false = e.
Proof. destruct e as [t a p]. unfold mark. cbn. rewrite orb_false_r. reflexivity. Qed.

Lemma mark_not_prevented e p :
  defaultPrevented (mark e p) = false -> mark e p = e.
Proof.
  unfold mark. cbn. intros H. apply orb_false_iff in H as [_ ->].
  apply mark_false_any.
Qed.

(** [every] calls a first part of the array, in order, each callback on the
    event itself. *)
Lemma every_prefix cbs : forall e (m : Machine W),
  this (snd (every cbs e m)) = this m
  /\ exists n,
       log (snd (every cbs e m))
       = log m ++ List.map (fun g => Call g e) (take n cbs).
Proof.
  induction cbs as [|f r IH]; intros e m.
  - split; [reflexivity|]. exists 0%nat. cbn. rewrite app_nil_r. reflexivity.
  - cbn [Engine.every]. unfold bind.
    destruct (behaviour f e (world m)) as [[p|x] w] eqn:Hb.
    + rewrite (invoke_returned W behaviour f e m p w Hb).
      destruct (defaultPrevented (mark e p)) eqn:Hp.
      * split; [reflexivity|]. exists 1%nat. reflexivity.
      * rewrite (mark_not_prevented e p Hp).
        destruct (IH e {| this := this m; world := w; log := log m ++ [Call f e] |})
          as [Ht [n Hn]].
        split; [exact Ht|]. exists (S n). rewrite Hn. cbn [this log take List.map].
        rewrite <- app_assoc. reflexivity.
    + rewrite (invoke_thrown W behaviour f e m x w Hb).
      split; [reflexivity|]. exists 1%nat. reflexivity.
Qed.

Lemma dispatchEvent_unfold e (m : Machine W) :
  dispatchEvent e m
  = match on_handlers (this m) !! type e with
    | Some onHandler =>
        bind W (invoke onHandler e)
          (fun e' =>
             if defaultPrevented e' then ret W false
             else match slot proto_has (type e) (this m) with
                  | Own cbs => every cbs e'
                  | Inherited => throw W TypeError
                  | Undefined => ret W true
                  end)
    | None =>
        match slot proto_has (type e) (this m) with
        | Own cbs => every cbs e
        | Inherited => throw W TypeError
        | Undefined => ret W true
        end
    end {| this := this m; world := world m; log := log m ++ [Dispatch e] |}.
Proof. reflexivity. Qed.

(** X5. Whatever happens during a dispatch (a callback marks the event, a
    callback throws, or all return), the callbacks that were called are a
    first part of the callbacks of the event's type, in their order, each
    called on the event: the [on<type>] handler of the object first, then the
    listeners as registered.  No callback of another type is called, and the engine
    itself is left as it was. *)
Theorem X5_dispatch_calls_a_prefix (e : CustomEvent) (m : Machine W) :
  this (snd (dispatchEvent e m)) = this m
  /\ exists n,
       log (snd (dispatchEvent e m))
       = log m ++ Dispatch e
           :: List.map (fun g => Call g e)
                (take n (callbacks_for (type e) (this m))).
Proof.
  rewrite dispatchEvent_unfold. unfold callbacks_for.
  set (m0 := {| this := this m; world := world m; log := log m ++ [Dispatch e] |}).
  assert (Hslot : forall e0 (m1 : Machine W),
    this m1 = this m ->
    let r := match slot proto_has (type e) (this m) with
             | Own cbs => every cbs e0
             | Inherited => throw W TypeError
             | Undefined => ret W true
             end m1 in
    this (snd r) = this m
    /\ exists n, log (snd r)
         = log m1 ++ List.map (fun g => Call g e0)
                       (take n (default [] (listeners (this m) !! type e)))).
  { intros e0 m1 Hm1. cbn zeta. unfold slot.
    destruct (listeners (this m) !! type e) as [cbs|].
    - destruct (every_prefix cbs e0 m1) as [Ht Hn]. split; [congruence|exact Hn].
    - destruct (proto_has (type e)); (split; [exact Hm1|]);
        exists 0%nat; cbn; rewrite app_nil_r; reflexivity. }
  destruct (on_handlers (this m) !! type e) as [h|]; cbn [option_list app].
  - unfold bind.
    destruct (behaviour h e (world m0)) as [[p|x] w] eqn:Hb.
    + rewrite (invoke_returned W behaviour h e m0 p w Hb).
      destruct (defaultPrevented (mark e p)) eqn:Hp.
      * split; [reflexivity|]. exists 1%nat. cbn. rewrite <- app_assoc. reflexivity.
      * rewrite (mark_not_prevented e p Hp).
        destruct (Hslot e {| this := this m0; world := w; log := log m0 ++ [Call h e] |}
                    eq_refl) as [Ht [n Hn]].
        split; [exact Ht|]. exists (S n). rewrite Hn. subst m0. cbn [log take List.map].
        rewrite <- !app_assoc. reflexivity.
    + rewrite (invoke_thrown W behaviour h e m0 x w Hb).
      split; [reflexivity|]. exists 1%nat. cbn. rewrite <- app_assoc. reflexivity.
  - destruct (Hslot e m0 eq_refl) as [Ht [n Hn]].
    split; [exact Ht|]. exists n. rewrite Hn. subst m0. cbn [log].
    rewrite <- app_assoc. reflexivity.
Qed.

(** X6. Registering a listener that is not there yet and removing it again
    gives back the engine as it was, whether the type had listeners before
    or none (the entry made for the type is deleted with its last
    listener). *)
Theorem X6_add_then_remove (t : jsstring) (f : Callback) (m : Machine W) :
  (listeners (this m) !! t = None /\ proto_has t = false)
  \/ (exists cbs, listeners (this m) !! t = Some cbs /\ cbs <> [] /\ f ∉ cbs) ->
  removeEventListener t f (snd (addEventListener t f m)) = (Returned tt, m).
Proof.
  clear behaviour.
  intros [[Hl Hp]|(cbs & Hl & Hne & Hf)].
  - rewrite (addEventListener_first proto_has W t f m Hl Hp). cbn [snd].
    rewrite (removeEventListener_own t f _ [f]) by (cbn; apply lookup_insert_eq).
    cbn [List.filter]. rewrite bool_decide_eq_true_2 by reflexivity.
    cbn [negb this world log listeners set_listeners].
    rewrite delete_insert_id by assumption.
    rewrite set_listeners_twice, set_listeners_same, machine_eta. reflexivity.
  - rewrite (addEventListener_appends proto_has W t f m cbs Hl Hf). cbn [snd].
    rewrite (removeEventListener_own t f _ (cbs ++ [f])) by (cbn; apply lookup_insert_eq).
    rewrite filter_others_app by assumption.
    destruct cbs as [|g r]; [congruence|].
    cbn [this world log listeners set_listeners].
    rewrite insert_insert_eq, insert_id by assumption.
    rewrite set_listeners_twice, set_listeners_same, machine_eta. reflexivity.
Qed.

(** X7. Removing a listener from a type that has listeners takes out that
    listener and nothing else: the others of the type stay, in their order,
    the entry of the type goes when none is left, the other types are not
    touched, and a later dispatch of an event of the type does not call the
    removed listener (unless it is also the [on<type>] handler). *)
Theorem X7_removeEventListener_effect
    (t : jsstring) (f : Callback) (m : Machine W) (cbs : list Callback) :
  listeners (this m) !! t = Some cbs ->
  let m1 := snd (removeEventListener t f m) in
  let rest := List.filter (fun g => negb (bool_decide (g = f))) cbs in
  listeners (this m1) !! t = (if decide (rest = []) then None else Some rest)
  /\ (f ∉ rest)
  /\ (forall t', t' <> t -> listeners (this m1) !! t' = listeners (this m) !! t')
  /\ (on_handlers (this m) !! t <> Some f ->
      forall e, type e = t ->
      exists new, log (snd (dispatchEvent e m1)) = log m1 ++ new
                  /\ forall e', Call f e' ∉ new).
Proof.
  intros Hl m1 rest.
  assert (Hm1 : this m1 = set_listeners
                  (match rest with
                   | [] => delete t (listeners (this m))
                   | _ => <[t := rest]> (listeners (this m))
                   end) (this m)).
  { subst m1 rest. rewrite (removeEventListener_own t f m cbs Hl). cbn [snd this].
    destruct (List.filter _ cbs); reflexivity. }
  assert (Hlook : listeners (this m1) !! t
                  = if decide (rest = []) then None else Some rest).
  { rewrite Hm1. cbn [listeners set_listeners]. destruct rest as [|g r].
    - rewrite decide_True by reflexivity. apply lookup_delete_eq.
    - rewrite decide_False by discriminate. apply lookup_insert_eq. }
  split; [exact Hlook|]. split; [apply filter_others_not_in|]. split.
  - intros t' Hne. rewrite Hm1. cbn [listeners set_listeners].
    destruct rest; [apply lookup_delete_ne|apply lookup_insert_ne]; congruence.
  - intros Hh e He.
    destruct (X5_dispatch_calls_a_prefix e m1) as [_ [n Hn]].
    eexists. split; [exact Hn|].
    intros e' Hin. apply elem_of_cons in Hin as [Hin|Hin]; [discriminate|].
    apply list_elem_of_fmap in Hin as (g & Hg & Hin). injection Hg as <- _.
    apply elem_of_take in Hin as (i & Hi & _).
    apply list_elem_of_lookup_2 in Hi. unfold callbacks_for in Hi.
    rewrite He, Hlook in Hi.
    assert (Hon : on_handlers (this m1) = on_handlers (this m))
      by (rewrite Hm1; reflexivity).
    rewrite Hon in Hi. apply elem_of_app in Hi as [Hi|Hi].
    + destruct (on_handlers (this m) !! t) as [h|]; cbn in Hi; [|inversion Hi].
      apply list_elem_of_singleton in Hi. congruence.
    + destruct (decide (rest = [])); cbn in Hi; [inversion Hi|].
      exact (filter_others_not_in f cbs Hi).
Qed.

(** What a registry call may change: the listeners only. *)
Lemma registry_call_frame (c : RegistryCall) (m : Machine W) :
  exists l, snd (registry_call proto_has W c m)
            = {| this := set_listeners l (this m); world := world m; log := log m |}.
Proof.
  assert (Hsame : m = {| this := set_listeners (listeners (this m)) (this m);
                         world := world m; log := log m |})
    by (rewrite set_listeners_same, machine_eta; reflexivity).
  destruct c as [t f|t f]; cbn [registry_call].
  - destruct (listeners (this m) !! t) as [cbs|] eqn:Hl.
    + destruct (decide (f ∈ cbs)) as [Hin|Hin].
      * rewrite (addEventListener_known proto_has W t f m cbs Hl Hin). eauto.
      * rewrite (addEventListener_appends proto_has W t f m cbs Hl Hin). eauto.
    + destruct (proto_has t) eqn:Hp.
      * rewrite (addEventListener_inherited t f m Hl Hp). eauto.
      * rewrite (addEventListener_first proto_has W t f m Hl Hp). eauto.
  - destruct (listeners (this m) !! t) as [cbs|] eqn:Hl.
    + rewrite (removeEventListener_own t f m cbs Hl). eauto.
    + destruct (proto_has t) eqn:Hp.
      * rewrite (removeEventListener_inherited t f m Hl Hp). eauto.
      * rewrite (removeEventListener_undefined t f m Hl Hp). eauto.
Qed.

Lemma registry_call_no_empty_array (c : RegistryCall) (m : Machine W) :
  no_empty_array (this m) ->
  no_empty_array (this (snd (registry_call proto_has W c m))).
Proof.
  intros Hinv. destruct c as [t f|t f]; cbn [registry_call].
  - destruct (listeners (this m) !! t) as [cbs|] eqn:Hl.
    + destruct (decide (f ∈ cbs)) as [Hin|Hin].
      * rewrite (addEventListener_known proto_has W t f m cbs Hl Hin). exact Hinv.
      * rewrite (addEventListener_appends proto_has W t f m cbs Hl Hin).
        intros t'. cbn. rewrite lookup_insert. destruct (decide (t = t')); [|apply Hinv].
        intros [= H]. destruct cbs; discriminate.
    + destruct (proto_has t) eqn:Hp.
      * rewrite (addEventListener_inherited t f m Hl Hp). exact Hinv.
      * rewrite (addEventListener_first proto_has W t f m Hl Hp).
        intros t'. cbn. rewrite lookup_insert. destruct (decide (t = t')); [|apply Hinv].
        discriminate.
  - destruct (listeners (this m) !! t) as [cbs|] eqn:Hl.
    + rewrite (removeEventListener_own t f m cbs Hl).
      intros t'. cbn. destruct (List.filter _ cbs) as [|g r].
      * rewrite lookup_delete. destruct (decide (t = t')); [discriminate|apply Hinv].
      * rewrite lookup_insert. destruct (decide (t = t')); [discriminate|apply Hinv].
    + destruct (proto_has t) eqn:Hp.
      * rewrite (removeEventListener_inherited t f m Hl Hp). exact Hinv.
      * rewrite (removeEventListener_undefined t f m Hl Hp). exact Hinv.
Qed.

Lemma registry_call_registered_once (c : RegistryCall) (m : Machine W) :
  registered_once (this m) ->
  registered_once (this (snd (registry_call proto_has W c m))).
Proof.
  destruct c; cbn [registry_call];
    [apply addEventListener_registered_once|apply removeEventListener_registered_once].
Qed.

(** X8. Whatever listeners are added and removed on an engine, in whatever
    order, and whether the calls return or throw: no listener is twice in the
    array of a type, no type is kept with an empty array, and nothing but the
    registry changes (no event is dispatched, the transport is not touched,
    the life cycle does not move). *)
Theorem X8_registry_invariants (cs : list RegistryCall) (m : Machine W) :
  registered_once (this m) ->
  no_empty_array (this m) ->
  let m' := registry_calls proto_has W cs m in
  registered_once (this m')
  /\ no_empty_array (this m')
  /\ exists l, m' = {| this := set_listeners l (this m);
                       world := world m; log := log m |}.
Proof.
  revert m. induction cs as [|c r IH]; intros m H1 H2; cbn.
  - repeat split; try assumption. exists (listeners (this m)).
    rewrite set_listeners_same, machine_eta. reflexivity.
  - destruct (IH (snd (registry_call proto_has W c m))
                (registry_call_registered_once c m H1)
                (registry_call_no_empty_array c m H2)) as (I1 & I2 & l & Hl).
    repeat split; try assumption.
    destruct (registry_call_frame c m) as [l0 Hl0].
    exists l. unfold registry_calls in Hl. rewrite Hl, Hl0. reflexivity.
Qed.

(** X9. A type whose name a plain object inherits from its prototype
    ([toString], [constructor], ...) cannot have listeners: registering
    throws a TypeError, removing throws it and leaves the engine as it is, and
    so does the dispatch of an event of such a type.  A chunk
    of the stream that names such a type therefore makes the progress
    callback throw when its blank line arrives, and stays in the buffer. *)
Theorem X9_inherited_type_throws (t : jsstring) (m : Machine W) :
  proto_has t = true ->
  listeners (this m) !! t = None ->
  (forall f, fst (addEventListener t f m) = Thrown TypeError)
  /\ (forall f, removeEventListener t f m = (Thrown TypeError, m))
  /\ (on_handlers (this m) !! t = None ->
      (forall e, type e = t ->
         dispatchEvent e m
         = (Thrown TypeError,
            {| this := this m; world := world m; log := log m ++ [Dispatch e] |}))
      /\ (forall part e,
            trim part = [] ->
            Parser._parseEventChunk proto_has (trim (chunk (this m))) = Some e ->
            type e = t ->
            Engine.on_part proto_has W behaviour part m
            = (Thrown TypeError,
               {| this := this m; world := world m; log := log m ++ [Dispatch e] |}))).
Proof.
  intros Hp Hl.
  split; [intros f; rewrite addEventListener_inherited by assumption; reflexivity|].
  split; [intros f; apply removeEventListener_inherited; assumption|].
  intros Hh.
  assert (Hd : forall e, type e = t ->
            dispatchEvent e m
            = (Thrown TypeError,
               {| this := this m; world := world m; log := log m ++ [Dispatch e] |})).
  { intros e He. rewrite dispatchEvent_unfold. unfold slot.
    rewrite He, Hh, Hl, Hp. reflexivity. }
  split; [exact Hd|].
  intros part e Hpart Hparse He.
  unfold Engine.on_part. rewrite bind_get_this, Hpart, Hparse. cbn [length Nat.eqb].
  unfold bind. rewrite (Hd e He). reflexivity.
Qed.

End RegistryMore.

Lemma X6_add_then_remove_witness :
  Engine.removeEventListener standard_proto nat (u "next") 7%nat
    (snd (Engine.addEventListener standard_proto nat (u "next") 7%nat Scenario.registered))
  = (Returned tt, Scenario.registered).
Proof.
  apply (X6_add_then_remove standard_proto nat).
  right. exists [1; 2; 3]%nat. split; [vm_compute; reflexivity|].
  split; [discriminate|]. apply (bool_decide_unpack _). vm_compute. exact I.
Defined.

Lemma X7_removeEventListener_witness :
  let m1 := snd (Engine.removeEventListener standard_proto nat (u "next") 2%nat
                   Scenario.registered) in
  let e := new_CustomEvent (u "next") (Data [] None) in
  listeners (Engine.this m1) !! u "next" = Some [1; 3]%nat
  /\ exists new,
       Engine.log (snd (Engine.dispatchEvent standard_proto nat Scenario.counting e m1))
       = Engine.log m1 ++ new
       /\ forall e', Call 2%nat e' ∉ new.
Proof.
  intros m1 e.
  destruct (X7_removeEventListener_effect standard_proto nat Scenario.counting
              (u "next") 2%nat Scenario.registered [1; 2; 3]%nat)
    as (H1 & _ & _ & H4).
  - vm_compute. reflexivity.
  - split; [exact H1|]. apply H4; [|reflexivity].
    vm_compute. discriminate.
Defined.

Lemma X8_registry_invariants_witness :
  let m' := Registry.registry_calls standard_proto nat
              [Registry.Add (u "next") 1%nat; Registry.Add (u "next") 1%nat;
               Registry.Add (u "toString") 5%nat; Registry.Remove (u "next") 1%nat;
               Registry.Add (u "error") 2%nat; Registry.Remove (u "open") 9%nat]
              {| Engine.this := Scenario.source; Engine.world := 0%nat; Engine.log := [] |} in
  Engine.registered_once (Engine.this m')
  /\ Registry.no_empty_array (Engine.this m')
  /\ exists l, m' = {| Engine.this := set_listeners l Scenario.source;
                       Engine.world := 0%nat; Engine.log := [] |}.
Proof.
  apply (X8_registry_invariants standard_proto nat).
  - intros t cbs. cbn. rewrite lookup_empty. discriminate.
  - intros t. cbn. rewrite lookup_empty. discriminate.
Defined.

Lemma X9_inherited_type_witness :
  let m := {| Engine.this := set_chunk (u "event:toString" ++ [LF] ++ u "data:x") Scenario.source;
              Engine.world := tt; Engine.log := [] |} in
  let e := new_CustomEvent (u "toString") (Data (u "x") None) in
  fst (Engine.addEventListener standard_proto unit (u "toString") 1%nat m) = Thrown TypeError
  /\ Engine.on_part standard_proto unit Scenario.silent [LF] m
     = (Thrown TypeError,
        {| Engine.this := Engine.this m; Engine.world := tt; Engine.log := [Dispatch e] |}).
Proof.
  intros m e.
  destruct (X9_inherited_type_throws standard_proto unit Scenario.silent (u "toString") m)
    as (Ha & _ & Hd).
  - vm_compute. reflexivity.
  - vm_compute. reflexivity.
  - split; [apply Ha|].
    destruct Hd as [_ Hp]; [vm_compute; reflexivity|].
    apply (Hp [LF] e); vm_compute; reflexivity.
Defined.

(** ** The life cycle: [stream], the failure path, the buffer *)

Section LifecycleMore.

Import Engine Lifecycle.
Variable proto_has : jsstring -> bool.
Variable W : Type.
Variable behaviour : Callback -> CustomEvent -> W -> Result bool * W.

Local Abbreviation dispatchEvent := (Engine.dispatchEvent proto_has W behaviour).
Local Abbreviation _setReadyState := (Engine._setReadyState proto_has W behaviour).
Local Abbreviation close := (Engine.close proto_has W behaviour).
Local Abbreviation stream := (Engine.stream proto_has W behaviour).
Local Abbreviation on_part := (Engine.on_part proto_has W behaviour).
Local Abbreviation handle := (Engine.handle proto_has W behaviour).
Local Abbreviation run := (Engine.run proto_has W behaviour).

(** A dispatch, with what it leaves behind spelled out. *)
Lemma dispatchEvent_shape e (m : Machine W) :
  exists r w calls,
    dispatchEvent e m
    = (r, {| this := this m; world := w; log := log m ++ Dispatch e :: calls |})
    /\ Forall is_call calls.
Proof.
  destruct (dispatchEvent_log proto_has W behaviour e m) as [Ht (calls & Hl & Hc)].
  destruct (dispatchEvent e m) as [r m'] eqn:E. cbn [snd] in *.
  exists r, (world m'), calls. split; [|exact Hc].
  destruct m' as [s w l]. cbn in *. subst. reflexivity.
Qed.

Lemma stream_unfold (m : Machine W) :
  stream m
  = match dispatchEvent (readystatechange_event CONNECTING)
            {| this := set_readyState CONNECTING (this m);
               world := world m; log := log m |} with
    | (Returned _, m1) =>
        (Returned tt,
         {| this := set_xhr true (this m1); world := world m1;
            log := log m1 ++ request (this m1) |})
    | (Thrown x, m1) => (Thrown x, m1)
    end.
Proof.
  unfold Engine.stream, Engine._setReadyState, readystatechange_event.
  unfold bind at 1 2 3, update at 1. cbn [this world log].
  destruct (dispatchEvent _ _) as [[b|x] m1]; [|reflexivity].
  unfold ret at 1. rewrite bind_get_this.
  unfold bind, tell, update, request. cbn [this world log].
  rewrite <- !app_assoc. reflexivity.
Qed.


(** *** The state never goes back *)

Global Instance not_back_refl : Reflexive (@not_back W).
Proof. intros m. unfold not_back. lia. Qed.

Global Instance not_back_trans : Transitive (@not_back W).
Proof. intros a b c. unfold not_back. lia. Qed.

Lemma same_this_not_back (m m' : Machine W) : this m' = this m -> not_back m m'.
Proof. unfold not_back. intros ->. lia. Qed.

Lemma bind_step {A B} (R : Machine W -> Machine W -> Prop)
    (c : M W A) (k : A -> M W B) (m : Machine W) :
  Transitive R -> R m (snd (c m)) -> (forall a, keeps R (k a)) ->
  R m (snd (bind W c k m)).
Proof.
  intros HR Hc Hk. unfold bind.
  destruct (c m) as [[a|x] m']; cbn [snd] in *; [|exact Hc].
  etransitivity; [exact Hc|apply Hk].
Qed.

Lemma dispatchEvent_not_back e : keeps not_back (dispatchEvent e).
Proof.
  intros m. apply same_this_not_back.
  apply (dispatchEvent_log proto_has W behaviour e m).
Qed.

Lemma quiet_not_back (m m' : Machine W) : quiet_step m m' -> not_back m m'.
Proof. intros (Hr & _). unfold not_back. rewrite Hr. lia. Qed.

Lemma setReadyState_not_back state (m : Machine W) :
  rank (readyState (this m)) <= rank state ->
  not_back m (snd (_setReadyState state m)).
Proof.
  intros Hle. unfold not_back.
  destruct (setReadyState_step proto_has W behaviour state m) as (-> & _). exact Hle.
Qed.

Lemma rank_le_closed s : rank s <= rank CLOSED.
Proof. destruct s; cbn; lia. Qed.

Lemma close_not_back : keeps not_back close.
Proof.
  intros m. destruct (decide (readyState (this m) = CLOSED)) as [Hc|Hc].
  - rewrite (close_closed proto_has W behaviour m Hc). reflexivity.
  - rewrite (close_open proto_has W behaviour m Hc). unfold not_back.
    destruct (setReadyState_step proto_has W behaviour CLOSED
                {| this := set_xhr false (this m); world := world m;
                   log := log m ++ (if xhr (this m) then [XhrAbort] else []) |})
      as (-> & _).
    apply rank_le_closed.
Qed.

Lemma onStreamFailure_not_back :
  keeps not_back (_onStreamFailure proto_has W behaviour).
Proof.
  apply keeps_bind; [apply _|apply dispatchEvent_not_back|intros _; apply close_not_back].
Qed.

Lemma onStreamProgress_not_back x :
  keeps not_back (_onStreamProgress proto_has W behaviour x).
Proof.
  intros m. unfold Engine._onStreamProgress. rewrite bind_get_this.
  destruct (negb (xhr (this m))); [reflexivity|].
  destruct (negb _); [apply onStreamFailure_not_back|].
  apply bind_step; [apply _| |].
  - destruct (bool_decide_reflect (readyState (this m) = CONNECTING)) as [Hc|Hc];
      [|reflexivity].
    unfold bind.
    pose proof (dispatchEvent_log proto_has W behaviour
                  (new_CustomEvent (u "open") Nothing) m) as [Ht _].
    destruct (dispatchEvent _ m) as [[b|exn] m1]; cbn [snd] in *;
      [|apply same_this_not_back, Ht].
    unfold not_back.
    destruct (setReadyState_step proto_has W behaviour OPEN m1) as (-> & _).
    rewrite Hc. cbn. lia.
  - intros _. eapply keeps_weaken; [apply quiet_not_back|].
    apply keeps_bind; [apply _|apply keeps_get_this, _|]. intros s.
    apply keeps_bind; [apply _|apply update_quiet; auto|]. intros _.
    apply keeps_forEach; [apply _|apply _|apply on_part_quiet].
Qed.

Lemma flush_quiet :
  keeps quiet_step
    (bind W (get_this W) (fun s =>
       match Parser._parseEventChunk proto_has (chunk s) with
       | Some streamData =>
           bind W (dispatchEvent streamData) (fun _ => update W (set_chunk []))
       | None => ret W tt
       end)).
Proof.
  apply keeps_bind; [apply _|apply keeps_get_this, _|]. intros s.
  destruct (Parser._parseEventChunk _ _) as [ev|] eqn:Hp; [|apply keeps_ret, _].
  apply keeps_bind; [apply _| |intros _; apply update_quiet; auto].
  apply dispatchEvent_quiet. eapply parsed_not_open, Hp.
Qed.

Lemma handle_not_back c : keeps not_back (handle c).
Proof.
  destruct c as [x|x|x| |]; cbn [Engine.handle].
  - apply keeps_bind; [apply _|apply keeps_get_this, _|]. intros s.
    destruct (negb (xhr s)); [apply keeps_ret, _|].
    destruct (_ =? _)%Z; [|apply keeps_ret, _].
    intros m. apply setReadyState_not_back, rank_le_closed.
  - apply onStreamProgress_not_back.
  - apply keeps_bind; [apply _|apply onStreamProgress_not_back|]. intros _.
    eapply keeps_weaken; [apply quiet_not_back|apply flush_quiet].
  - apply onStreamFailure_not_back.
  - apply keeps_bind; [apply _|apply dispatchEvent_not_back|intros _; apply close_not_back].
Qed.


(** *** Failure *)


(** *** The buffer *)

Lemma set_progress_same (s : SSE) : set_progress (progress s + 0) s = s.
Proof. rewrite Nat.add_0_r. destruct s. reflexivity. Qed.

(** X13. A progress callback that brings no new text still ends the chunk
    that is pending: the buffered text is parsed as it stands and its event
    is dispatched (and the buffer emptied when the listeners return),
    although no blank line has arrived. *)
Theorem X13_progress_without_text_flushes
    (x : XMLHttpRequest) (m : Machine W) (ev : CustomEvent) :
  xhr (this m) = true ->
  status x = 200%Z ->
  readyState (this m) <> CONNECTING ->
  length (responseText x) <= progress (this m) ->
  Parser._parseEventChunk proto_has (trim (chunk (this m))) = Some ev ->
  let r := handle (onprogress x) m in
  dispatched (log (snd r)) = dispatched (log m) ++ [ev]
  /\ (fst r = Returned tt -> chunk (this (snd r)) = []).
Proof.
  intros Hx Hs Hr Hlen Hparse.
  assert (Hu : handle (onprogress x) m
               = match dispatchEvent ev m with
                 | (Returned _, m1) =>
                     (Returned tt,
                      {| this := set_chunk [] (this m1); world := world m1;
                         log := log m1 |})
                 | (Thrown e, m1) => (Thrown e, m1)
                 end).
  { cbn [Engine.handle]. unfold Engine._onStreamProgress.
    rewrite bind_get_this, Hx, Hs. cbn [negb Z.eqb Pos.eqb].
    rewrite bool_decide_eq_false_2 by exact Hr.
    unfold bind at 1, ret at 1. rewrite bind_get_this.
    unfold substring_from. rewrite drop_ge by exact Hlen.
    unfold bind at 1, update at 1. cbn [this world log length].
    rewrite set_progress_same, machine_eta.
    change (regex_split blank_line []) with [@nil N].
    cbn [forEach]. unfold bind at 1. unfold Engine.on_part at 1.
    rewrite bind_get_this. change (length (trim []) =? 0)%nat with true.
    cbn iota. rewrite Hparse. unfold bind at 1.
    destruct (dispatchEvent ev m) as [[b|e] m1]; reflexivity. }
  cbn zeta. rewrite Hu.
  destruct (dispatchEvent_shape ev m) as (r1 & w1 & calls & Hd & Hc).
  rewrite Hd. destruct r1 as [b|e]; cbn [fst snd this log chunk set_chunk].
  - split; [|reflexivity].
    rewrite dispatched_app.
    change (dispatched (Dispatch ev :: calls)) with (ev :: dispatched calls).
    rewrite (dispatched_calls calls) by assumption. reflexivity.
  - split; [|discriminate].
    rewrite dispatched_app.
    change (dispatched (Dispatch ev :: calls)) with (ev :: dispatched calls).
    rewrite (dispatched_calls calls) by assumption. reflexivity.
Qed.

Lemma parse_none_empty chunk :
  Parser._parseEventChunk proto_has chunk = None -> chunk = [].
Proof. destruct chunk; [reflexivity|discriminate]. Qed.

(** X14. When the load callback returns, nothing is left in the buffer. *)
Theorem X14_load_empties_the_buffer
    (x : XMLHttpRequest) (m m' : Machine W) :
  handle (onload x) m = (Returned tt, m') ->
  chunk (this m') = [].
Proof.
  cbn [Engine.handle]. unfold Engine._onStreamLoaded. unfold bind at 1.
  destruct (_onStreamProgress proto_has W behaviour x m) as [[[]|e] m1];
    [|discriminate].
  rewrite bind_get_this.
  destruct (Parser._parseEventChunk proto_has (chunk (this m1))) as [ev|] eqn:Hp.
  - unfold bind. destruct (dispatchEvent ev m1) as [[b|e] m2]; [|discriminate].
    unfold update. intros [= <-]. reflexivity.
  - unfold ret. intros [= <-]. apply parse_none_empty, Hp.
Qed.

End LifecycleMore.


Lemma X13_progress_without_text_witness :
  let m := Engine.run standard_proto unit Scenario.silent
             [Engine.onprogress (Scenario.receiving (u "data:a"))] Scenario.started in
  let r := Engine.handle standard_proto unit Scenario.silent
             (Engine.onprogress (Scenario.receiving (u "data:a"))) m in
  Engine.dispatched (Engine.log (snd r))
  = Engine.dispatched (Engine.log m) ++ [Scenario.message (u "a")]
  /\ chunk (Engine.this (snd r)) = [].
Proof.
  intros m r.
  destruct (X13_progress_without_text_flushes standard_proto unit Scenario.silent
              (Scenario.receiving (u "data:a")) m (Scenario.message (u "a")))
    as [H1 H2]; try (vm_compute; reflexivity).
  - vm_compute. discriminate.
  - split; [exact H1|]. apply H2. vm_compute. reflexivity.
Defined.

Lemma X14_load_empties_witness :
  let m := Engine.run standard_proto unit Scenario.silent
             [Engine.onprogress (Scenario.receiving (u "data:a"))] Scenario.started in
  chunk (Engine.this m) = u "data:a"
  /\ chunk (Engine.this
              (snd (Engine.handle standard_proto unit Scenario.silent
                      (Engine.onload (Scenario.complete (u "data:a"))) m))) = [].
Proof.
  intros m. split; [vm_compute; reflexivity|].
  apply (X14_load_empties_the_buffer standard_proto unit Scenario.silent
           (Scenario.complete (u "data:a")) m).
  vm_compute. reflexivity.
Defined.

(** ** Complete events are dispatched one by one, in order *)

Section BlankLines.

Import Wellformed.

Lemma blank_line_other c r : c <> CR -> c <> LF -> blank_line (c :: r) = None.
Proof.
  intros H1 H2. unfold blank_line, alts_at. cbn [List.filter starts_with].
  destruct (N.eqb_spec CR c) as [E|_]; [congruence|].
  destruct (N.eqb_spec LF c) as [E|_]; [congruence|].
  cbn [andb]. reflexivity.
Qed.

Lemma blank_line_LF_other y r :
  y <> CR -> y <> LF -> blank_line (LF :: y :: r) = None.
Proof.
  intros H1 H2. unfold blank_line, alts_at. cbn [List.filter starts_with].
  change (N.eqb CR LF) with false. change (N.eqb LF LF) with true.
  cbn [andb flat_map length drop List.filter starts_with app].
  destruct (N.eqb_spec CR y) as [E|_]; [congruence|].
  destruct (N.eqb_spec LF y) as [E|_]; [congruence|].
  cbn [andb]. reflexivity.
Qed.

Lemma blank_line_LF_LF r : blank_line (LF :: LF :: r) = Some ([[LF]], 2%nat).
Proof. reflexivity. Qed.

Lemma single_breaks_cons x r :
  single_breaks (x :: r) = true ->
  x <> CR /\ single_breaks r = true
  /\ (x = LF -> exists y r', r = y :: r' /\ y <> LF /\ y <> CR).
Proof.
  cbn [single_breaks]. intros H.
  apply andb_true_iff in H as [H Hr]. apply andb_true_iff in H as [Hx Hlf].
  apply negb_true_iff, N.eqb_neq in Hx.
  split; [exact Hx|]. split; [exact Hr|].
  intros ->. change (N.eqb LF LF) with true in Hlf. cbn iota in Hlf.
  destruct r as [|y r']; [discriminate|].
  apply negb_true_iff, N.eqb_neq in Hlf.
  exists y, r'. split; [reflexivity|]. split; [exact Hlf|].
  cbn [single_breaks] in Hr. apply andb_true_iff in Hr as [Hr _].
  apply andb_true_iff in Hr as [Hr _]. apply negb_true_iff, N.eqb_neq in Hr. exact Hr.
Qed.

(** A chunk followed by a blank line is one piece, and the blank line gives
    the piece "\n". *)
Lemma split_chunk c : forall acc rest,
  single_breaks c = true ->
  split_go blank_line (c ++ LF :: LF :: rest) 0 acc
  = (rev acc ++ c) :: [LF] :: split_go blank_line rest 0 [].
Proof.
  induction c as [|x c IH]; intros acc rest Hc.
  - rewrite app_nil_r. cbn [app split_go]. rewrite blank_line_LF_LF. reflexivity.
  - destruct (single_breaks_cons x c Hc) as (Hx & Hr & Hlf).
    cbn [app split_go].
    assert (Hnone : blank_line (x :: c ++ LF :: LF :: rest) = None).
    { destruct (N.eq_dec x LF) as [->|Hne].
      - destruct (Hlf eq_refl) as (y & r' & -> & Hy1 & Hy2).
        cbn [app]. apply blank_line_LF_other; assumption.
      - apply blank_line_other; assumption. }
    rewrite Hnone, (IH (x :: acc) rest Hr).
    cbn [rev]. rewrite <- app_assoc. reflexivity.
Qed.

Lemma split_payload chunks :
  Forall (fun c => single_breaks c = true) chunks ->
  regex_split blank_line (payload_of chunks)
  = flat_map (fun c => [c; [LF]]) chunks ++ [[]].
Proof.
  unfold regex_split, payload_of.
  induction 1 as [|c r Hc _ IH]; [reflexivity|].
  cbn [List.map concat flat_map]. rewrite <- app_assoc.
  change ([LF; LF] ++ concat (List.map (fun c => c ++ [LF; LF]) r))
    with (LF :: LF :: concat (List.map (fun c => c ++ [LF; LF]) r)).
  rewrite (split_chunk c [] _ Hc), IH. reflexivity.
Qed.

End BlankLines.


Section InOrder.

Import Engine Wellformed.
Variable proto_has : jsstring -> bool.
Variable W : Type.
Variable behaviour : Callback -> CustomEvent -> W -> Result bool * W.

Local Abbreviation dispatchEvent := (Engine.dispatchEvent proto_has W behaviour).
Local Abbreviation _setReadyState := (Engine._setReadyState proto_has W behaviour).
Local Abbreviation every := (Engine.every W behaviour).
Local Abbreviation invoke := (Engine.invoke W behaviour).
Local Abbreviation on_part := (Engine.on_part proto_has W behaviour).
Local Abbreviation _onStreamProgress := (Engine._onStreamProgress proto_has W behaviour).
Local Abbreviation handle := (Engine.handle proto_has W behaviour).
Local Abbreviation run := (Engine.run proto_has W behaviour).
Local Abbreviation ev := (event_of_chunk proto_has).
Local Abbreviation quiet := (never_throws W behaviour).
Local Abbreviation can_dispatch := (dispatchable proto_has).

Lemma every_returns cbs : forall e (m : Machine W),
  quiet -> exists b, fst (every cbs e m) = Returned b.
Proof.
  induction cbs as [|f r IH]; intros e m Hq.
  - exists true. reflexivity.
  - cbn [Engine.every]. unfold bind.
    destruct (Hq f e (world m)) as (p & w & Hb).
    rewrite (invoke_returned W behaviour f e m p w Hb).
    destruct (defaultPrevented (mark e p)).
    + exists false. reflexivity.
    + apply IH, Hq.
Qed.

Lemma dispatchEvent_returns e (m : Machine W) :
  quiet -> can_dispatch (this m) (type e) ->
  exists b w calls,
    dispatchEvent e m
    = (Returned b,
       {| this := this m; world := w; log := log m ++ Dispatch e :: calls |})
    /\ Forall is_call calls.
Proof.
  intros Hq Hd.
  assert (Hr : exists b, fst (dispatchEvent e m) = Returned b).
  { rewrite dispatchEvent_unfold. unfold dispatchable in Hd.
    set (m0 := {| this := this m; world := world m; log := log m ++ [Dispatch e] |}).
    destruct (on_handlers (this m) !! type e) as [h|].
    - unfold bind. destruct (Hq h e (world m0)) as (p & w & Hb).
      rewrite (invoke_returned W behaviour h e m0 p w Hb).
      destruct (defaultPrevented (mark e p)); [exists false; reflexivity|].
      destruct (slot proto_has (type e) (this m)) as [cbs| |];
        [apply every_returns, Hq|congruence|exists true; reflexivity].
    - destruct (slot proto_has (type e) (this m)) as [cbs| |];
        [apply every_returns, Hq|congruence|exists true; reflexivity]. }
  destruct Hr as [b Hb].
  destruct (dispatchEvent_shape proto_has W behaviour e m) as (r & w & calls & He & Hc).
  rewrite He in Hb. cbn [fst] in Hb. subst r.
  exists b, w, calls. split; assumption.
Qed.

Lemma data_events_dispatch l e calls :
  Forall is_call calls ->
  data_events (l ++ Dispatch e :: calls)
  = data_events l ++ (if is_data_event e then [e] else []).
Proof.
  intros Hc. unfold data_events. rewrite dispatched_app.
  change (dispatched (Dispatch e :: calls)) with (e :: dispatched calls).
  rewrite (dispatched_calls calls Hc), List.filter_app. cbn [List.filter].
  reflexivity.
Qed.

Lemma trim_nonempty_length c :
  trim c <> [] -> (length (trim c) =? 0)%nat = false.
Proof. intros H. destruct (trim c); [congruence|reflexivity]. Qed.

Lemma parse_trimmed c :
  trim c <> [] -> Parser._parseEventChunk proto_has (trim c) = Some (ev c).
Proof.
  intros H. unfold event_of_chunk, Wire.lines_of, Parser._parseEventChunk.
  destruct (trim c); [congruence|reflexivity].
Qed.

Lemma set_chunk_back c (s : SSE) : chunk s = [] -> set_chunk [] (set_chunk c s) = s.
Proof. destruct s. cbn. intros ->. reflexivity. Qed.

(** The pieces of a run of complete chunks: each chunk is buffered, the
    piece of its blank line dispatches it and empties the buffer. *)
Lemma forEach_chunks chunks : forall (m : Machine W),
  quiet ->
  chunk (this m) = [] ->
  Forall complete_chunk chunks ->
  Forall (can_dispatch (this m)) (List.map (fun c => type (ev c)) chunks) ->
  exists w l,
    forEach W on_part (flat_map (fun c => [c; [LF]]) chunks ++ [[]]) m
    = (Returned tt, {| this := this m; world := w; log := l |})
    /\ data_events l = data_events (log m) ++ List.map ev chunks.
Proof.
  induction chunks as [|c r IH]; intros m Hq Hb Hc Hd.
  - exists (world m), (log m). split; [|cbn; rewrite app_nil_r; reflexivity].
    cbn [flat_map app forEach]. unfold bind at 1. unfold Engine.on_part at 1.
    rewrite bind_get_this. change (length (trim []) =? 0)%nat with true.
    cbn iota. rewrite Hb. change (trim []) with (@nil N).
    cbn [Parser._parseEventChunk]. unfold ret. rewrite machine_eta. reflexivity.
  - apply Forall_cons in Hc as [[Hs Ht] Hc].
    cbn [List.map] in Hd. apply Forall_cons in Hd as [Hd1 Hd].
    cbn [flat_map app forEach]. unfold bind at 1. unfold Engine.on_part at 1.
    rewrite bind_get_this, (trim_nonempty_length c Ht). cbn iota.
    unfold update at 1. rewrite Hb. cbn [app].
    set (m1 := {| this := set_chunk c (this m); world := world m; log := log m |}).
    unfold bind at 1. unfold Engine.on_part at 1.
    rewrite bind_get_this. change (length (trim [LF]) =? 0)%nat with true.
    cbn iota. change (chunk (this m1)) with c. rewrite (parse_trimmed c Ht).
    unfold bind at 1.
    destruct (dispatchEvent_returns (ev c) m1 Hq Hd1) as (b & w & calls & He & Hcalls).
    rewrite He. unfold update at 1. cbn [this world log].
    change (this m1) with (set_chunk c (this m)).
    rewrite (set_chunk_back c (this m) Hb).
    set (m2 := {| this := this m; world := w; log := log m1 ++ Dispatch (ev c) :: calls |}).
    destruct (IH m2 Hq Hb Hc Hd) as (w' & l' & Hf & Hl).
    exists w', l'. split; [exact Hf|].
    rewrite Hl. subst m2. cbn [log]. rewrite (data_events_dispatch _ _ _ Hcalls).
    change (log m1) with (log m). cbn [List.map]. rewrite <- app_assoc. reflexivity.
Qed.

Lemma opened_fields (s : SSE) :
  listeners (opened s) = listeners s
  /\ on_handlers (opened s) = on_handlers s
  /\ chunk (opened s) = chunk s
  /\ progress (opened s) = progress s
  /\ xhr (opened s) = xhr s.
Proof. unfold opened. case_bool_decide; repeat split; reflexivity. Qed.

Lemma can_dispatch_same (s s' : SSE) t :
  listeners s' = listeners s -> can_dispatch s t -> can_dispatch s' t.
Proof. unfold dispatchable, slot. intros ->. exact id. Qed.

(** The first progress callback opens the engine; the two events of the
    opening are not events of the stream. *)
Lemma connect_returns (m : Machine W) :
  quiet ->
  can_dispatch (this m) (u "open") ->
  can_dispatch (this m) (u "readystatechange") ->
  exists w l,
    (if bool_decide (readyState (this m) = CONNECTING)
     then bind W (dispatchEvent open_event) (fun _ => _setReadyState OPEN)
     else ret W tt) m
    = (Returned tt, {| this := opened (this m); world := w; log := l |})
    /\ data_events l = data_events (log m).
Proof.
  intros Hq Ho Hr. unfold opened. case_bool_decide.
  - unfold bind at 1.
    destruct (dispatchEvent_returns open_event m Hq Ho) as (b & w & calls & He & Hc).
    rewrite He. unfold Engine._setReadyState, bind, update. cbn [this world log].
    set (m1 := {| this := set_readyState OPEN (this m); world := w;
                  log := log m ++ Dispatch open_event :: calls |}).
    destruct (dispatchEvent_returns (readystatechange_event OPEN) m1 Hq Hr)
      as (b' & w' & calls' & He' & Hc').
    fold (readystatechange_event OPEN). rewrite He'. unfold ret.
    eexists _, _. split; [reflexivity|].
    rewrite (data_events_dispatch _ _ _ Hc'). subst m1. cbn [log].
    rewrite (data_events_dispatch _ _ _ Hc). cbn. rewrite !app_nil_r. reflexivity.
  - exists (world m), (log m). unfold ret. rewrite machine_eta. split; reflexivity.
Qed.

Lemma onStreamProgress_unfold x (m : Machine W) :
  xhr (this m) = true -> status x = 200%Z ->
  _onStreamProgress x m
  = bind W
      (if bool_decide (readyState (this m) = CONNECTING)
       then bind W (dispatchEvent open_event) (fun _ => _setReadyState OPEN)
       else ret W tt)
      (fun _ =>
         bind W (get_this W) (fun s =>
           bind W (update W (set_progress
                               (progress s
                                + length (substring_from (progress s) (responseText x)))))
             (fun _ =>
                forEach W on_part
                  (regex_split blank_line
                     (substring_from (progress s) (responseText x)))))) m.
Proof.
  intros Hx Hs. unfold Engine._onStreamProgress.
  rewrite bind_get_this, Hx, Hs. reflexivity.
Qed.

Lemma progress_chunks x (m : Machine W) chunks :
  quiet ->
  xhr (this m) = true -> status x = 200%Z ->
  chunk (this m) = [] ->
  substring_from (progress (this m)) (responseText x) = payload_of chunks ->
  Forall complete_chunk chunks ->
  Forall (can_dispatch (this m))
    (u "open" :: u "readystatechange" :: List.map (fun c => type (ev c)) chunks) ->
  exists w l,
    _onStreamProgress x m
    = (Returned tt,
       {| this := set_progress (progress (this m) + length (payload_of chunks))
                    (opened (this m));
          world := w; log := l |})
    /\ data_events l = data_events (log m) ++ List.map ev chunks.
Proof.
  intros Hq Hx Hs Hb Hdata Hc Hd.
  apply Forall_cons in Hd as [Ho Hd]. apply Forall_cons in Hd as [Hr Hd].
  destruct (opened_fields (this m)) as (Fl & Fo & Fc & Fp & Fx).
  rewrite (onStreamProgress_unfold x m Hx Hs). unfold bind at 1.
  destruct (connect_returns m Hq Ho Hr) as (w0 & l0 & He & Hl0).
  rewrite He, bind_get_this. cbn [this]. rewrite Fp, Hdata.
  unfold bind at 1, update at 1. cbn [this world log].
  rewrite split_payload
    by (eapply Forall_impl; [exact Hc|]; intros c [H _]; exact H).
  set (m1 := {| this := set_progress (progress (this m) + length (payload_of chunks))
                          (opened (this m));
                world := w0; log := l0 |}).
  destruct (forEach_chunks chunks m1 Hq) as (w & l & Hf & Hl).
  - cbn. exact (eq_trans Fc Hb).
  - exact Hc.
  - eapply Forall_impl; [exact Hd|]. intros t. apply can_dispatch_same.
    cbn. exact Fl.
  - exists w, l. split; [exact Hf|]. rewrite Hl. subst m1. cbn [log].
    rewrite Hl0. reflexivity.
Qed.

Lemma loaded_chunks x (m : Machine W) chunks :
  quiet ->
  xhr (this m) = true -> status x = 200%Z ->
  chunk (this m) = [] ->
  substring_from (progress (this m)) (responseText x) = payload_of chunks ->
  Forall complete_chunk chunks ->
  Forall (can_dispatch (this m))
    (u "open" :: u "readystatechange" :: List.map (fun c => type (ev c)) chunks) ->
  exists w l,
    handle (onload x) m
    = (Returned tt,
       {| this := set_progress (progress (this m) + length (payload_of chunks))
                    (opened (this m));
          world := w; log := l |})
    /\ data_events l = data_events (log m) ++ List.map ev chunks.
Proof.
  intros Hq Hx Hs Hb Hdata Hc Hd.
  destruct (progress_chunks x m chunks Hq Hx Hs Hb Hdata Hc Hd) as (w & l & He & Hl).
  exists w, l. split; [|exact Hl].
  cbn [Engine.handle]. unfold Engine._onStreamLoaded. unfold bind at 1.
  rewrite He, bind_get_this. cbn [this].
  destruct (opened_fields (this m)) as (_ & _ & Fc & _).
  change (chunk (set_progress _ (opened (this m)))) with (chunk (opened (this m))).
  rewrite Fc, Hb. reflexivity.
Qed.

(** X15. A progress callback whose new text is a run of complete chunks,
    each closed by a blank line, on an engine whose buffer is empty: when no
    listener throws and the types can be dispatched, the callback returns,
    the events of the stream it dispatches are exactly the events of the
    chunks, one per chunk and in the order of the text, the buffer is empty
    again and the offset has advanced by the length of the text. *)
Theorem X15_complete_chunks_in_order
    (x : XMLHttpRequest) (m : Machine W) (chunks : list jsstring) :
  never_throws W behaviour ->
  xhr (this m) = true -> status x = 200%Z ->
  chunk (this m) = [] ->
  substring_from (progress (this m)) (responseText x) = payload_of chunks ->
  Forall complete_chunk chunks ->
  Forall (dispatchable proto_has (this m))
    (u "open" :: u "readystatechange" :: List.map (fun c => type (ev c)) chunks) ->
  exists m',
    handle (onprogress x) m = (Returned tt, m')
    /\ this m'
       = set_progress (progress (this m) + length (payload_of chunks))
           (opened (this m))
    /\ data_events (log m') = data_events (log m) ++ List.map ev chunks.
Proof.
  intros Hq Hx Hs Hb Hdata Hc Hd.
  destruct (progress_chunks x m chunks Hq Hx Hs Hb Hdata Hc Hd) as (w & l & He & Hl).
  eexists. split; [exact He|]. split; [reflexivity|exact Hl].
Qed.

(** X16. A payload of complete chunks that arrives in increments, each
    increment ending at the blank line of a chunk, followed by the load
    callback: the events of the stream are the events of the chunks in the
    order of the text, however the chunks are grouped into increments, and
    the load callback finds nothing left to dispatch. *)
Theorem X16_increments_at_chunk_boundaries
    (groups : list (list jsstring)) : forall (text : jsstring) (m : Machine W),
  never_throws W behaviour ->
  xhr (this m) = true ->
  chunk (this m) = [] ->
  progress (this m) = length text ->
  Forall (Forall complete_chunk) groups ->
  Forall (dispatchable proto_has (this m))
    (u "open" :: u "readystatechange"
       :: List.map (fun c => type (ev c)) (concat groups)) ->
  let m' := run (Scenario.deliveries text (List.map payload_of groups)) m in
  data_events (log m') = data_events (log m) ++ List.map ev (concat groups)
  /\ chunk (this m') = [].
Proof.
  induction groups as [|g r IH]; intros text m Hq Hx Hb Hp Hc Hd; cbn zeta.
  - cbn [List.map Scenario.deliveries]. unfold Engine.run. cbn [foldl].
    destruct (loaded_chunks (Scenario.complete text) m [] Hq Hx eq_refl Hb)
      as (w & l & He & Hl).
    + rewrite Hp. unfold substring_from. cbn [responseText Scenario.complete].
      rewrite drop_all. reflexivity.
    + constructor.
    + exact Hd.
    + rewrite He. cbn [snd this log]. split; [exact Hl|].
      destruct (opened_fields (this m)) as (_ & _ & Fc & _).
      exact (eq_trans Fc Hb).
  - apply Forall_cons in Hc as [Hg Hc].
    cbn [concat List.map] in Hd. rewrite List.map_app in Hd.
    apply Forall_cons in Hd as [Ho Hd]. apply Forall_cons in Hd as [Hr Hd].
    apply Forall_app in Hd as [Hdg Hdr].
    cbn [List.map Scenario.deliveries]. unfold Engine.run. cbn [foldl].
    destruct (progress_chunks (Scenario.receiving (text ++ payload_of g)) m g
                Hq Hx eq_refl Hb) as (w & l & He & Hl).
    + rewrite Hp. unfold substring_from. cbn [responseText Scenario.receiving].
      apply drop_app_length.
    + exact Hg.
    + constructor; [exact Ho|]. constructor; [exact Hr|]. exact Hdg.
    + change (Engine.handle proto_has W behaviour
                (onprogress (Scenario.receiving (text ++ payload_of g))) m)
        with (_onStreamProgress (Scenario.receiving (text ++ payload_of g)) m).
      rewrite He. cbn [snd].
      destruct (opened_fields (this m)) as (Fl & _ & Fc & _ & Fx).
      set (m1 := {| this := _; world := w; log := l |}).
      destruct (IH (text ++ payload_of g) m1 Hq) as [H1 H2].
      * cbn. rewrite Fx. exact Hx.
      * cbn. rewrite Fc. exact Hb.
      * cbn. rewrite Hp, length_app. reflexivity.
      * exact Hc.
      * assert (Hsame : forall t, can_dispatch (this m) t -> can_dispatch (this m1) t).
        { intros t. apply can_dispatch_same. cbn. exact Fl. }
        constructor; [apply Hsame, Ho|]. constructor; [apply Hsame, Hr|].
        eapply Forall_impl; [exact Hdr|exact Hsame].
      * unfold Engine.run in H1, H2. split; [|exact H2].
        rewrite H1. subst m1. cbn [log]. rewrite Hl.
        cbn [concat]. rewrite List.map_app, <- app_assoc. reflexivity.
Qed.

End InOrder.


Lemma X15_complete_chunks_witness :
  let m := snd (Engine.stream standard_proto nat Scenario.counting Scenario.registered) in
  let chunks := [u "event: next" ++ [LF] ++ u "data: a"; u "data: b"] in
  exists m',
    Engine.handle standard_proto nat Scenario.counting
      (Engine.onprogress (Scenario.receiving (Wellformed.payload_of chunks))) m
    = (Returned tt, m')
    /\ Engine.data_events (Engine.log m')
       = [new_CustomEvent (u "next") (Data (u "a") None); Scenario.message (u "b")].
Proof.
  intros m chunks.
  destruct (X15_complete_chunks_in_order standard_proto nat Scenario.counting
              (Scenario.receiving (Wellformed.payload_of chunks)) m chunks)
    as (m' & He & _ & Hl).
  - intros f e w. eexists _, _. reflexivity.
  - vm_compute. reflexivity.
  - reflexivity.
  - vm_compute. reflexivity.
  - vm_compute. reflexivity.
  - repeat constructor; vm_compute; discriminate.
  - repeat constructor; vm_compute; discriminate.
  - exists m'. split; [exact He|]. rewrite Hl. vm_compute. reflexivity.
Defined.

Lemma X16_increments_witness :
  let m := snd (Engine.stream standard_proto nat Scenario.counting Scenario.registered) in
  let a := u "event: next" ++ [LF] ++ u "data: a" in
  let m' := Engine.run standard_proto nat Scenario.counting
              (Scenario.deliveries []
                 (List.map Wellformed.payload_of [[a]; [u "data: b"; u "data: c"]])) m in
  Engine.data_events (Engine.log m')
  = [new_CustomEvent (u "next") (Data (u "a") None);
     Scenario.message (u "b"); Scenario.message (u "c")]
  /\ chunk (Engine.this m') = [].
Proof.
  intros m a m'.
  destruct (X16_increments_at_chunk_boundaries standard_proto nat Scenario.counting
              [[a]; [u "data: b"; u "data: c"]] [] m) as [H1 H2].
  - intros f e w. eexists _, _. reflexivity.
  - vm_compute. reflexivity.
  - vm_compute. reflexivity.
  - vm_compute. reflexivity.
  - repeat constructor; vm_compute; discriminate.
  - repeat constructor; vm_compute; discriminate.
  - split; [|exact H2].
    etransitivity; [exact H1|]. vm_compute. reflexivity.
Defined.


(** ** The [next] listener over time *)

Section DeliveryFacts.

Import Subscription Delivery.

Variable JSON_parse : jsstring -> option JsValue.
Variable applyPatch : JsValue -> JsValue -> option JsValue.
Variable onData : JsValue -> JsValue -> option Exn.

Local Abbreviation next_listener := (Subscription.next_listener JSON_parse applyPatch onData).
Local Abbreviation feed := (Delivery.feed JSON_parse applyPatch onData).


Lemma feed_snoc events e (st : State) :
  feed (events ++ [e]) st = snd (next_listener e (feed events st)).
Proof. unfold Delivery.feed. rewrite foldl_app. reflexivity. Qed.



(** X20. A body that is valid JSON but not an object.  For [null] the
    listener throws a TypeError when it reads [patch], before [onData] is
    called.  For a number, a string, a boolean or an array every property
    read gives [undefined]: [onData(undefined, undefined)] is called, the
    stored previous value is not consulted, and when [onData] returns the
    stored last value is [undefined]. *)
Theorem X20_body_not_an_object
    (event : CustomEvent) (st : State) (payload : JsValue) :
  JSON_parse (event_data event) = Some payload ->
  (payload = JNull -> next_listener event st = (Thrown TypeError, st))
  /\ (without_properties payload = true ->
      next_listener event st
      = let calls := onData_calls st ++ [(JUndefined, JUndefined)] in
        match onData JUndefined JUndefined with
        | Some x => (Thrown x, {| lastValue := lastValue st; onData_calls := calls |})
        | None => (Returned false, {| lastValue := JUndefined; onData_calls := calls |})
        end).
Proof.
  intros Hparse. unfold Subscription.next_listener. rewrite Hparse. split.
  - intros ->. reflexivity.
  - intros Hp. destruct payload; try discriminate; reflexivity.
Qed.

End DeliveryFacts.


Lemma X20_body_not_an_object_witness :
  Subscription.next_listener Delivery.scalar_parse Subscription.root_applyPatch
    Subscription.returns (Scenario.next_event (u "null")) Scenario.after_object
  = (Thrown TypeError, Scenario.after_object)
  /\ Subscription.next_listener Delivery.scalar_parse Subscription.root_applyPatch
       Subscription.returns (Scenario.next_event (u "5")) Scenario.after_object
     = (Returned false,
        {| Subscription.lastValue := Subscription.JUndefined;
           Subscription.onData_calls :=
             Subscription.onData_calls Scenario.after_object
             ++ [(Subscription.JUndefined, Subscription.JUndefined)] |}).
Proof.
  split.
  - apply (X20_body_not_an_object Delivery.scalar_parse Subscription.root_applyPatch
             Subscription.returns (Scenario.next_event (u "null")) Scenario.after_object
             Subscription.JNull); reflexivity.
  - apply (X20_body_not_an_object Delivery.scalar_parse Subscription.root_applyPatch
             Subscription.returns (Scenario.next_event (u "5")) Scenario.after_object
             (Subscription.JNumber 5)); reflexivity.
Defined.


(** ** [subscribe] *)

Section SubscribeFacts.

Import Engine Subscription Subscribe Lifecycle.

Variable JSON_parse : jsstring -> option JsValue.
Variable applyPatch : JsValue -> JsValue -> option JsValue.
Variable onData : JsValue -> JsValue -> option Exn.

Local Abbreviation callbacks := (Subscribe.callbacks JSON_parse applyPatch onData).
Local Abbreviation subscribe := (Subscribe.subscribe JSON_parse applyPatch onData).
Local Abbreviation teardown := (Subscribe.teardown JSON_parse applyPatch onData).
Local Abbreviation transport := (Subscribe.transport JSON_parse applyPatch onData).
Local Abbreviation report_closed := (Subscribe.report_closed onData).
Local Abbreviation next_listener := (Subscription.next_listener JSON_parse applyPatch onData).

Lemma subscribed_next (s : SSE) :
  subscribed s -> listeners s !! u "next" = Some [on_next].
Proof. intros [-> _]. reflexivity. Qed.

Lemma subscribed_error (s : SSE) :
  subscribed s -> listeners s !! u "error" = Some [on_error].
Proof. intros [-> _]. reflexivity. Qed.

Lemma subscribed_other (s : SSE) t :
  subscribed s -> t <> u "next" -> t <> u "error" -> listeners s !! t = None.
Proof.
  intros [-> _] H1 H2.
  rewrite lookup_insert_ne by congruence. rewrite lookup_singleton_ne by congruence.
  reflexivity.
Qed.

Lemma subscribed_handler (s : SSE) t : subscribed s -> on_handlers s !! t = None.
Proof. intros [_ ->]. apply lookup_empty. Qed.

(** An event that nobody listens to. *)
Lemma dispatch_unheard call e (m : Machine State) :
  subscribed (this m) ->
  type e <> u "next" -> type e <> u "error" -> standard_proto (type e) = false ->
  Reentrant.dispatchEvent standard_proto State call e m
  = (Returned true,
     {| this := this m; world := world m; log := log m ++ [Dispatch e] |}).
Proof.
  intros Hs H1 H2 Hp. unfold Reentrant.dispatchEvent, bind, tell, get_this.
  cbn [this world log]. rewrite (subscribed_handler _ _ Hs).
  unfold slot. rewrite (subscribed_other _ _ Hs H1 H2), Hp. reflexivity.
Qed.

Lemma setReadyState_unheard call state (m : Machine State) :
  subscribed (this m) ->
  Reentrant._setReadyState standard_proto State call state m
  = (Returned tt,
     {| this := set_readyState state (this m); world := world m;
        log := log m ++ [Dispatch (readystatechange_event state)] |}).
Proof.
  intros Hs. unfold Reentrant._setReadyState. unfold bind at 1, update at 1.
  unfold bind at 1. fold (readystatechange_event state).
  rewrite dispatch_unheard; [reflexivity|exact Hs|vm_compute; discriminate..|reflexivity].
Qed.

(** [close()] on the engine of a subscription: no callback is called. *)
Lemma close_subscribed call (m : Machine State) :
  subscribed (this m) ->
  Reentrant.close standard_proto State call m
  = (Returned tt,
     if bool_decide (readyState (this m) = CLOSED) then m
     else {| this := set_readyState CLOSED (set_xhr false (this m));
             world := world m;
             log := log m ++ (if xhr (this m) then [XhrAbort] else [])
                      ++ [Dispatch (readystatechange_event CLOSED)] |}).
Proof.
  intros Hs. unfold Reentrant.close. rewrite bind_get_this.
  case_bool_decide; [reflexivity|].
  unfold bind at 1.
  destruct (xhr (this m)) eqn:Hx.
  - unfold tell at 1. unfold bind at 1, update at 1. cbn [this world log].
    rewrite setReadyState_unheard by exact Hs. cbn [this world log].
    rewrite <- app_assoc. reflexivity.
  - unfold ret at 1. unfold bind at 1, update at 1.
    rewrite setReadyState_unheard by exact Hs. cbn [this world log app].
    reflexivity.
Qed.

(** X21. [subscribe] with an empty url throws what the constructor throws,
    before anything is registered.  Otherwise it returns with the engine
    connecting: the listener of [next] and the listener of [error] are
    registered, the request has been issued as a POST of the payload with the
    merged headers and the credentials flag, the transport is attached,
    nothing has been received, and [onData] has not been called. *)
Theorem X21_subscribe_setup
    (depth : nat) (url : jsstring) (headers : option (gmap jsstring jsstring))
    (payload : jsstring) (withCredentials : option bool) :
  subscribe depth url headers payload withCredentials
  = match url with
    | [] => Thrown (Error (u "url cannot be null"))
    | _ =>
        Returned
          {| this :=
               {| url := url;
                  options := subscribe_options headers payload withCredentials;
                  listeners := {[ u "next" := [on_next]; u "error" := [on_error] ]};
                  on_handlers := ∅; readyState := CONNECTING;
                  chunk := []; progress := 0; xhr := true |};
             world := initial;
             log :=
               [ Dispatch (readystatechange_event CONNECTING);
                 XhrOpen POST url;
                 XhrSetRequestHeader (u "Accept") (u "text/event-stream");
                 XhrSetRequestHeaders
                   (<[u "Content-Type" := u "application/json"]>
                      (<[u "X-GQL-Transport" := u "live-query"]> (default ∅ headers)));
                 XhrWithCredentials (default false withCredentials);
                 XhrSend (Some payload) ] |}
    end.
Proof.
  destruct url as [|c url]; [reflexivity|].
  unfold Subscribe.subscribe, subscribe_source, new_SSE.
  set (s0 := {| url := c :: url; options := _; listeners := ∅; on_handlers := ∅;
                readyState := INITIALIZING; chunk := []; progress := 0; xhr := false |}).
  set (m0 := {| this := s0; world := initial; log := [] |}).
  assert (H1 : addEventListener standard_proto State (u "next") on_next m0
               = (Returned tt,
                  {| this := set_listeners {[ u "next" := [on_next] ]} s0;
                     world := initial; log := [] |})) by reflexivity.
  unfold bind at 1. rewrite H1.
  set (m1 := {| this := set_listeners {[ u "next" := [on_next] ]} s0;
                world := initial; log := [] |}).
  assert (H2 : addEventListener standard_proto State (u "error") on_error m1
               = (Returned tt,
                  {| this := set_listeners
                               {[ u "next" := [on_next]; u "error" := [on_error] ]} s0;
                     world := initial; log := [] |})) by reflexivity.
  unfold bind at 1. rewrite H2.
  unfold Reentrant.stream. unfold bind at 1.
  rewrite setReadyState_unheard by (split; reflexivity).
  reflexivity.
Qed.



(** X24. After the teardown of a subscription that was not closed, what the
    transport still reports does not reach the caller: under ready-state,
    progress and abort callbacks, in any number and order, [onData] is not
    called and the engine stays as the teardown left it. *)
Theorem X24_silent_after_teardown
    (depth : nat) (cs : list TransportCallback) (m : Machine State) :
  subscribed (this m) ->
  readyState (this m) <> CLOSED ->
  Forall (fun c => after_abort c = true) cs ->
  let m' := snd (teardown depth m) in
  let m'' := Reentrant.run standard_proto State (callbacks depth) cs m' in
  world m'' = world m /\ this m'' = this m'.
Proof.
  intros Hs Hopen Hcs. cbn zeta. unfold Subscribe.teardown.
  rewrite close_subscribed by exact Hs.
  rewrite bool_decide_eq_false_2 by exact Hopen. cbn [snd].
  set (m' := {| this := set_readyState CLOSED (set_xhr false (this m));
                world := world m; log := _ |}).
  assert (Hgen : forall m1 : Machine State,
             this m1 = this m' -> world m1 = world m ->
             world (Reentrant.run standard_proto State (callbacks depth) cs m1) = world m
             /\ this (Reentrant.run standard_proto State (callbacks depth) cs m1) = this m').
  { induction Hcs as [|c cs Hc _ IH]; intros m1 Ht Hw; [split; assumption|].
    assert (Hs1 : subscribed (this m1)) by (rewrite Ht; exact Hs).
    assert (Hx1 : xhr (this m1) = false) by (rewrite Ht; reflexivity).
    assert (Hstep : exists l,
               Reentrant.handle standard_proto State (callbacks depth) c m1
               = (Returned tt, {| this := this m1; world := world m1; log := l |})).
    { destruct c as [x|x|x| |]; try discriminate; cbn [Reentrant.handle].
      - unfold Reentrant._checkStreamClosed. rewrite bind_get_this, Hx1.
        cbn [negb]. unfold ret.
        exists (log m1). rewrite machine_eta. reflexivity.
      - unfold Reentrant._onStreamProgress. rewrite bind_get_this, Hx1.
        cbn [negb]. unfold ret.
        exists (log m1). rewrite machine_eta. reflexivity.
      - unfold Reentrant._onStreamAbort. unfold bind at 1.
        rewrite dispatch_unheard;
          [|exact Hs1|vm_compute; discriminate..|reflexivity].
        rewrite close_subscribed by exact Hs1. cbn [this].
        rewrite bool_decide_eq_true_2 by (rewrite Ht; reflexivity).
        eexists. reflexivity. }
    destruct Hstep as [l Hstep].
    apply (IH {| this := this m1; world := world m1; log := l |}) in Ht as IH'; [|exact Hw].
    unfold Reentrant.run in *. cbn [foldl]. rewrite Hstep. exact IH'. }
  apply Hgen; reflexivity.
Qed.

Lemma next_listener_false e st b st' :
  next_listener e st = (Returned b, st') -> b = false.
Proof.
  unfold Subscription.next_listener.
  destruct (JSON_parse (event_data e)) as [p|]; [|discriminate].
  destruct (new_value applyPatch (lastValue st) p) as [v|]; [|discriminate].
  destruct (get p (u "errors")) as [errs|]; [|discriminate].
  destruct (onData v errs); [discriminate|]. intros [= <- _]. reflexivity.
Qed.

(** An event of type [next] goes to the listener of [next] and to nobody
    else. *)
Lemma dispatch_next depth e (m : Machine State) :
  subscribed (this m) -> type e = u "next" -> defaultPrevented e = false ->
  Reentrant.dispatchEvent standard_proto State (callbacks (S depth)) e m
  = (match fst (next_listener e (world m)) with
     | Returned _ => Returned true
     | Thrown x => Thrown x
     end,
     {| this := this m; world := snd (next_listener e (world m));
        log := log m ++ [Dispatch e; Call on_next e] |}).
Proof.
  intros Hs Ht Hp. unfold Reentrant.dispatchEvent.
  unfold bind at 1, tell at 1. rewrite bind_get_this. cbn [this world log].
  rewrite (subscribed_handler _ _ Hs). unfold slot.
  rewrite Ht, (subscribed_next _ Hs).
  cbn [Reentrant.every]. unfold bind at 1. unfold Reentrant.invoke at 1.
  unfold bind at 1, tell at 1. cbn [this world log]. unfold bind at 1.
  change (callbacks (S depth) on_next e) with (on_closure (next_listener e)).
  unfold on_closure. cbn [this world log].
  destruct (next_listener e (world m)) as [[b|x] st'] eqn:E; cbn [fst snd].
  - apply next_listener_false in E. subst b. unfold ret at 1.
    cbn [mark defaultPrevented]. rewrite Hp. cbn [orb]. unfold ret.
    rewrite <- app_assoc. reflexivity.
  - rewrite <- app_assoc. reflexivity.
Qed.

Lemma dispatch_delivers depth e (m : Machine State) st' :
  subscribed (this m) ->
  next_or_unheard (type e) = true -> defaultPrevented e = false ->
  deliver JSON_parse applyPatch onData e (world m) = Some st' ->
  exists l,
    Reentrant.dispatchEvent standard_proto State (callbacks (S depth)) e m
    = (Returned true, {| this := this m; world := st'; log := l |}).
Proof.
  intros Hs Ht Hp Hd. unfold deliver in Hd. unfold next_or_unheard in Ht.
  case_bool_decide as Hnext.
  - rewrite (dispatch_next depth e m Hs Hnext Hp).
    destruct (next_listener e (world m)) as [[b|x] st1]; [|discriminate].
    injection Hd as <-. eexists. reflexivity.
  - cbn [orb] in Ht. apply andb_true_iff in Ht as [H1 H2].
    apply negb_true_iff in H1, H2. apply bool_decide_eq_false in H1.
    injection Hd as <-.
    rewrite dispatch_unheard by assumption. eexists. reflexivity.
Qed.

Lemma forEach_delivers depth chunks : forall (m : Machine State) st',
  subscribed (this m) ->
  chunk (this m) = [] ->
  Forall Wellformed.complete_chunk chunks ->
  Forall (fun c => next_or_unheard
                     (type (Wellformed.event_of_chunk standard_proto c)) = true) chunks ->
  deliver_all JSON_parse applyPatch onData
    (List.map (Wellformed.event_of_chunk standard_proto) chunks) (world m) = Some st' ->
  exists l,
    forEach State (Reentrant.on_part standard_proto State (callbacks (S depth)))
      (flat_map (fun c => [c; [LF]]) chunks ++ [[]]) m
    = (Returned tt, {| this := this m; world := st'; log := l |}).
Proof.
  induction chunks as [|c r IH]; intros m st' Hs Hb Hc Ht Hd.
  - cbn in Hd. injection Hd as <-. exists (log m).
    cbn [flat_map app forEach]. unfold bind at 1. unfold Reentrant.on_part at 1.
    rewrite bind_get_this. change (length (trim []) =? 0)%nat with true.
    cbn iota. rewrite Hb. change (trim []) with (@nil N).
    cbn [Parser._parseEventChunk]. unfold ret. rewrite machine_eta. reflexivity.
  - apply Forall_cons in Hc as [[Hsb Htrim] Hc]. apply Forall_cons in Ht as [Ht1 Ht].
    cbn [List.map deliver_all] in Hd.
    destruct (deliver JSON_parse applyPatch onData
                (Wellformed.event_of_chunk standard_proto c) (world m))
      as [st1|] eqn:Hd1; [|discriminate].
    cbn [flat_map app forEach]. unfold bind at 1. unfold Reentrant.on_part at 1.
    rewrite bind_get_this, (trim_nonempty_length c Htrim). cbn iota.
    unfold update at 1. rewrite Hb. cbn [app].
    set (m1 := {| this := set_chunk c (this m); world := world m; log := log m |}).
    unfold bind at 1. unfold Reentrant.on_part at 1.
    rewrite bind_get_this. change (length (trim [LF]) =? 0)%nat with true.
    cbn iota. change (chunk (this m1)) with c.
    rewrite (parse_trimmed standard_proto c Htrim). unfold bind at 1.
    destruct (dispatch_delivers depth (Wellformed.event_of_chunk standard_proto c)
                m1 st1 Hs Ht1 eq_refl Hd1) as [l1 He].
    rewrite He. unfold update at 1. cbn [this world log].
    change (this m1) with (set_chunk c (this m)).
    rewrite (set_chunk_back c (this m) Hb).
    apply (IH {| this := this m; world := st1; log := l1 |} st' Hs Hb Hc Ht Hd).
Qed.

(** X25. From the text of the stream to the caller, in a subscription: a
    progress callback (status 200, empty buffer) whose new text is a run of
    complete chunks, of type [next] or of types nobody listens to, gives each
    [next] chunk in the order of the text to the listener of [next], and the
    others to nobody.  When the listener returns on each of them the callback
    returns, the closure ([lastValue] and the calls made to [onData]) is what
    the listener makes of these events one after the other, the buffer is
    empty and the offset has advanced past the text. *)
Theorem X25_stream_to_onData
    (depth : nat) (x : XMLHttpRequest) (m : Machine State)
    (chunks : list jsstring) (st' : State) :
  let ev := Wellformed.event_of_chunk standard_proto in
  subscribed (this m) ->
  xhr (this m) = true -> status x = 200%Z ->
  chunk (this m) = [] ->
  substring_from (progress (this m)) (responseText x) = Wellformed.payload_of chunks ->
  Forall Wellformed.complete_chunk chunks ->
  Forall (fun c => next_or_unheard (type (ev c)) = true) chunks ->
  deliver_all JSON_parse applyPatch onData (List.map ev chunks) (world m) = Some st' ->
  exists l,
    transport (S depth) (onprogress x) m
    = (Returned tt,
       {| this := set_progress
                    (progress (this m) + length (Wellformed.payload_of chunks))
                    (Wellformed.opened (this m));
          world := st'; log := l |}).
Proof.
  intros ev Hs Hx Hst Hb Hdata Hc Ht Hd.
  unfold Subscribe.transport, Reentrant.handle, Reentrant._onStreamProgress.
  rewrite bind_get_this, Hx, Hst. cbn [negb Z.eqb Pos.eqb].
  unfold bind at 1.
  assert (Hopen : exists l0,
             (if bool_decide (readyState (this m) = CONNECTING)
              then bind State
                     (Reentrant.dispatchEvent standard_proto State (callbacks (S depth))
                        (new_CustomEvent (u "open") Nothing))
                     (fun _ => Reentrant._setReadyState standard_proto State
                                 (callbacks (S depth)) OPEN)
              else ret State tt) m
             = (Returned tt,
                {| this := Wellformed.opened (this m); world := world m; log := l0 |})).
  { unfold Wellformed.opened. case_bool_decide.
    - unfold bind at 1.
      rewrite dispatch_unheard; [|exact Hs|vm_compute; discriminate..|reflexivity].
      rewrite setReadyState_unheard by exact Hs. eexists. reflexivity.
    - exists (log m). unfold ret. rewrite machine_eta. reflexivity. }
  destruct Hopen as [l0 Hopen]. rewrite Hopen. rewrite bind_get_this. cbn [this].
  destruct (opened_fields (this m)) as (Fl & Fo & Fc & Fp & Fx).
  rewrite Fx, Hx, Fp, Hdata. cbn [negb].
  unfold bind at 1, update at 1. cbn [this world log].
  rewrite split_payload
    by (eapply Forall_impl; [exact Hc|]; intros c [H _]; exact H).
  set (m1 := {| this := set_progress _ (Wellformed.opened (this m));
                world := world m; log := l0 |}).
  destruct (forEach_delivers depth chunks m1 st') as [l Hf].
  - split; cbn; [rewrite Fl|rewrite Fo]; apply Hs.
  - cbn. rewrite Fc. exact Hb.
  - exact Hc.
  - exact Ht.
  - exact Hd.
  - exists l. exact Hf.
Qed.

End SubscribeFacts.




Lemma X24_silent_witness :
  let cs := [Engine.onreadystatechange (Scenario.complete []); Engine.onabort;
             Engine.onprogress
               (Scenario.receiving (Wellformed.payload_of [Session.first_value]))] in
  let m' := snd (Session.teardown_here 1 Session.running) in
  Engine.world
    (Reentrant.run standard_proto Subscription.State
       (Subscribe.callbacks Subscription.table_parse Subscription.root_applyPatch
          Subscription.returns 1) cs m')
  = Subscription.initial.
Proof.
  intros cs m'.
  apply (X24_silent_after_teardown Subscription.table_parse Subscription.root_applyPatch
           Subscription.returns 1 cs Session.running).
  - split; vm_compute; reflexivity.
  - vm_compute. discriminate.
  - repeat constructor.
Defined.

Lemma X25_stream_to_onData_witness :
  let chunks := [Session.first_value; Session.untyped; Session.patch_to_5] in
  let r := Session.transport_here 1
             (Engine.onprogress (Scenario.receiving (Wellformed.payload_of chunks)))
             Session.running in
  fst r = Returned tt
  /\ Engine.world (snd r)
     = {| Subscription.lastValue := Subscription.JNumber 5;
          Subscription.onData_calls :=
            [(Subscription.JObject [(u "a", Subscription.JNumber 1)], Subscription.JNull);
             (Subscription.JNumber 5, Subscription.JNull)] |}.
Proof.
  intros chunks r.
  destruct (X25_stream_to_onData Subscription.table_parse Subscription.root_applyPatch
              Subscription.returns 0
              (Scenario.receiving (Wellformed.payload_of chunks)) Session.running chunks
              {| Subscription.lastValue := Subscription.JNumber 5;
                 Subscription.onData_calls :=
                   [(Subscription.JObject [(u "a", Subscription.JNumber 1)],
                     Subscription.JNull);
                    (Subscription.JNumber 5, Subscription.JNull)] |})
    as [l He].
  - split; vm_compute; reflexivity.
  - vm_compute. reflexivity.
  - reflexivity.
  - vm_compute. reflexivity.
  - vm_compute. reflexivity.
  - repeat constructor; vm_compute; discriminate.
  - repeat constructor; vm_compute; reflexivity.
  - vm_compute. reflexivity.
  - subst r. unfold Session.transport_here. rewrite He. split; reflexivity.
Defined.


(** ** The two engines agree *)

(** For callbacks that work on their own state only, [Reentrant] is
    [Engine]: every transport callback does the same in both. *)

Section Agreement.

Import Engine.

Variable proto_has : jsstring -> bool.
Variable W : Type.
Variable behaviour : Callback -> CustomEvent -> W -> Result bool * W.

Local Abbreviation aside := (Reentrant.aside behaviour).

Lemma bind_ext {A B} (c c' : M W A) (k k' : A -> M W B) (m : Machine W) :
  c m = c' m -> (forall a m', k a m' = k' a m') -> bind W c k m = bind W c' k' m.
Proof.
  intros Hc Hk. unfold bind. rewrite Hc.
  destruct (c' m) as [[a|x] m']; [apply Hk|reflexivity].
Qed.

Lemma bind_ext_from {A B} (c c' : M W A) (k k' : A -> M W B) (m : Machine W) :
  c m = c' m ->
  (forall a m', c' m = (Returned a, m') -> k a m' = k' a m') ->
  bind W c k m = bind W c' k' m.
Proof.
  intros Hc Hk. unfold bind. rewrite Hc.
  destruct (c' m) as [[a|x] m']; [apply Hk|]; reflexivity.
Qed.

Lemma invoke_agrees f e (m : Machine W) :
  Reentrant.invoke W aside f e m = Engine.invoke W behaviour f e m.
Proof.
  unfold Reentrant.invoke, Engine.invoke, Reentrant.aside, bind, tell, ret.
  cbn [this world log].
  destruct (behaviour f e (world m)) as [[p|x] w]; reflexivity.
Qed.

Lemma invoke_this f e (m : Machine W) :
  this (snd (Engine.invoke W behaviour f e m)) = this m.
Proof.
  unfold Engine.invoke, bind, tell. cbn [this world log].
  destruct (behaviour f e (world m)) as [[p|x] w]; reflexivity.
Qed.

Lemma every_agrees cbs : forall e (m : Machine W),
  Reentrant.every W aside cbs e m = Engine.every W behaviour cbs e m.
Proof.
  induction cbs as [|f r IH]; intros e m; [reflexivity|].
  cbn [Reentrant.every Engine.every]. apply bind_ext; [apply invoke_agrees|].
  intros e' m'. destruct (defaultPrevented e'); [reflexivity|apply IH].
Qed.

Lemma dispatchEvent_agrees e (m : Machine W) :
  Reentrant.dispatchEvent proto_has W aside e m
  = Engine.dispatchEvent proto_has W behaviour e m.
Proof.
  unfold Reentrant.dispatchEvent, Engine.dispatchEvent.
  apply bind_ext; [reflexivity|]. intros _ m0. rewrite !bind_get_this.
  destruct (on_handlers (this m0) !! type e) as [h|].
  - unfold bind. rewrite invoke_agrees.
    pose proof (invoke_this h e m0) as Ht.
    destruct (Engine.invoke W behaviour h e m0) as [[e'|x] m1]; [|reflexivity].
    cbn [snd] in Ht. destruct (defaultPrevented e'); [reflexivity|].
    unfold get_this. rewrite Ht.
    destruct (slot proto_has (type e) (this m0)); [apply every_agrees|reflexivity..].
  - destruct (slot proto_has (type e) (this m0)); [apply every_agrees|reflexivity..].
Qed.

Lemma setReadyState_agrees state (m : Machine W) :
  Reentrant._setReadyState proto_has W aside state m
  = Engine._setReadyState proto_has W behaviour state m.
Proof.
  unfold Reentrant._setReadyState, Engine._setReadyState.
  apply bind_ext; [reflexivity|]. intros _ m0.
  apply bind_ext; [apply dispatchEvent_agrees|reflexivity].
Qed.

Lemma close_agrees (m : Machine W) :
  Reentrant.close proto_has W aside m = Engine.close proto_has W behaviour m.
Proof.
  unfold Reentrant.close, Engine.close. rewrite !bind_get_this.
  destruct (bool_decide (readyState (this m) = CLOSED)); [reflexivity|].
  apply bind_ext; [reflexivity|]. intros _ m0.
  apply bind_ext; [reflexivity|]. intros _ m1. apply setReadyState_agrees.
Qed.

Lemma stream_agrees (m : Machine W) :
  Reentrant.stream proto_has W aside m = Engine.stream proto_has W behaviour m.
Proof.
  unfold Reentrant.stream, Engine.stream.
  apply bind_ext; [apply setReadyState_agrees|reflexivity].
Qed.

Lemma onStreamFailure_agrees (m : Machine W) :
  Reentrant._onStreamFailure proto_has W aside m
  = Engine._onStreamFailure proto_has W behaviour m.
Proof.
  unfold Reentrant._onStreamFailure, Engine._onStreamFailure.
  apply bind_ext; [apply dispatchEvent_agrees|]. intros _ m0. apply close_agrees.
Qed.

Lemma onStreamAbort_agrees (m : Machine W) :
  Reentrant._onStreamAbort proto_has W aside m
  = Engine._onStreamAbort proto_has W behaviour m.
Proof.
  unfold Reentrant._onStreamAbort, Engine._onStreamAbort.
  apply bind_ext; [apply dispatchEvent_agrees|]. intros _ m0. apply close_agrees.
Qed.

Lemma on_part_agrees part (m : Machine W) :
  Reentrant.on_part proto_has W aside part m
  = Engine.on_part proto_has W behaviour part m.
Proof.
  unfold Reentrant.on_part, Engine.on_part. rewrite !bind_get_this.
  destruct (length (trim part) =? 0)%nat; [|reflexivity].
  destruct (Parser._parseEventChunk proto_has (trim (chunk (this m)))); [|reflexivity].
  apply bind_ext; [apply dispatchEvent_agrees|reflexivity].
Qed.

Lemma forEach_agrees parts : forall m : Machine W,
  forEach W (Reentrant.on_part proto_has W aside) parts m
  = forEach W (Engine.on_part proto_has W behaviour) parts m.
Proof.
  induction parts as [|p r IH]; intros m; [reflexivity|].
  cbn [forEach]. apply bind_ext; [apply on_part_agrees|]. intros _ m'. apply IH.
Qed.

(** The transport is still attached when the listeners of [open] have
    returned: they cannot close the engine. *)
Lemma opening_keeps_transport (m : Machine W) :
  xhr (this (snd ((if bool_decide (readyState (this m) = CONNECTING)
                   then bind W (Engine.dispatchEvent proto_has W behaviour
                                  (new_CustomEvent (u "open") Nothing))
                          (fun _ => Engine._setReadyState proto_has W behaviour OPEN)
                   else ret W tt) m)))
  = xhr (this m).
Proof.
  destruct (bool_decide (readyState (this m) = CONNECTING)); [|reflexivity].
  unfold bind at 1.
  destruct (dispatchEvent_shape proto_has W behaviour
              (new_CustomEvent (u "open") Nothing) m) as (r & w & calls & He & _).
  rewrite He. destruct r as [b|x]; [|reflexivity].
  rewrite (setReadyState_dispatch proto_has W behaviour).
  destruct (dispatchEvent_log proto_has W behaviour (readystatechange_event OPEN)
              {| this := set_readyState OPEN (this m); world := w;
                 log := log m ++ Dispatch (new_CustomEvent (u "open") Nothing) :: calls |})
    as [Ht _].
  cbn [this world log] in *. rewrite Ht. reflexivity.
Qed.

Lemma onStreamProgress_agrees x (m : Machine W) :
  Reentrant._onStreamProgress proto_has W aside x m
  = Engine._onStreamProgress proto_has W behaviour x m.
Proof.
  unfold Reentrant._onStreamProgress, Engine._onStreamProgress.
  rewrite !bind_get_this.
  destruct (xhr (this m)) eqn:Hx; [|reflexivity]. cbn [negb].
  destruct (status x =? 200)%Z; [|apply onStreamFailure_agrees]. cbn [negb].
  pose proof (opening_keeps_transport m) as Hk. rewrite Hx in Hk.
  assert (Hopen : forall m0 : Machine W,
             (if bool_decide (readyState (this m) = CONNECTING)
              then bind W (Reentrant.dispatchEvent proto_has W aside
                             (new_CustomEvent (u "open") Nothing))
                     (fun _ => Reentrant._setReadyState proto_has W aside OPEN)
              else ret W tt) m0
             = (if bool_decide (readyState (this m) = CONNECTING)
                then bind W (Engine.dispatchEvent proto_has W behaviour
                               (new_CustomEvent (u "open") Nothing))
                       (fun _ => Engine._setReadyState proto_has W behaviour OPEN)
                else ret W tt) m0).
  { intros m0. destruct (bool_decide (readyState (this m) = CONNECTING)); [|reflexivity].
    apply bind_ext; [apply dispatchEvent_agrees|]. intros _ m1.
    apply setReadyState_agrees. }
  apply bind_ext_from; [apply Hopen|]. intros [] m1 He.
  rewrite He in Hk. cbn [snd] in Hk. rewrite !bind_get_this, Hk. cbn [negb].
  apply bind_ext; [reflexivity|]. intros _ m2. apply forEach_agrees.
Qed.

Lemma handle_agrees c (m : Machine W) :
  Reentrant.handle proto_has W aside c m = Engine.handle proto_has W behaviour c m.
Proof.
  destruct c as [x|x|x| |]; cbn [Reentrant.handle Engine.handle].
  - unfold Reentrant._checkStreamClosed, Engine._checkStreamClosed.
    rewrite !bind_get_this. destruct (negb (xhr (this m))); [reflexivity|].
    destruct (xhr_readyState x =? DONE)%Z; [apply setReadyState_agrees|reflexivity].
  - apply onStreamProgress_agrees.
  - unfold Reentrant._onStreamLoaded, Engine._onStreamLoaded.
    apply bind_ext; [apply onStreamProgress_agrees|]. intros _ m0.
    rewrite !bind_get_this.
    destruct (Parser._parseEventChunk proto_has (chunk (this m0))); [|reflexivity].
    apply bind_ext; [apply dispatchEvent_agrees|reflexivity].
  - apply onStreamFailure_agrees.
  - apply onStreamAbort_agrees.
Qed.

Lemma run_agrees cs : forall m : Machine W,
  Reentrant.run proto_has W aside cs m = Engine.run proto_has W behaviour cs m.
Proof.
  unfold Reentrant.run, Engine.run.
  induction cs as [|c r IH]; intros m; [reflexivity|].
  cbn [foldl]. rewrite handle_agrees. apply IH.
Qed.

End Agreement.


(** ** Callbacks that use the engine *)

Section ReentrantDispatch.

Import Engine.

Variable proto_has : jsstring -> bool.
Variable W : Type.
Variable call : Callback -> CustomEvent -> M W bool.

Local Abbreviation dispatchEvent := (Reentrant.dispatchEvent proto_has W call).
Local Abbreviation handle := (Reentrant.handle proto_has W call).

(** A dispatch to the listeners of a type without handler. *)
Lemma dispatch_listeners e cbs (m : Machine W) :
  on_handlers (this m) !! type e = None ->
  listeners (this m) !! type e = Some cbs ->
  dispatchEvent e m
  = Reentrant.every W call cbs e
      {| this := this m; world := world m; log := log m ++ [Dispatch e] |}.
Proof.
  intros Hh Hl. unfold Reentrant.dispatchEvent. unfold bind at 1, tell at 1.
  rewrite bind_get_this. cbn [this world log]. unfold slot. rewrite Hh, Hl.
  reflexivity.
Qed.

Lemma dispatch_nobody e (m : Machine W) :
  on_handlers (this m) !! type e = None ->
  listeners (this m) !! type e = None ->
  proto_has (type e) = false ->
  dispatchEvent e m
  = (Returned true,
     {| this := this m; world := world m; log := log m ++ [Dispatch e] |}).
Proof.
  intros Hh Hl Hp. unfold Reentrant.dispatchEvent. unfold bind at 1, tell at 1.
  rewrite bind_get_this. cbn [this world log]. unfold slot. rewrite Hh, Hl, Hp.
  reflexivity.
Qed.

End ReentrantDispatch.

Section ReentrantFacts.

Import Engine.

Variable proto_has : jsstring -> bool.
Variable W : Type.
Variable call : Callback -> CustomEvent -> M W bool.

Local Abbreviation dispatchEvent := (Reentrant.dispatchEvent proto_has W call).
Local Abbreviation handle := (Reentrant.handle proto_has W call).


(** X27. A listener that removes a later listener of the same type while
    the event is being dispatched: the array that is being gone through is
    not the one the removal leaves, so the removed listener is still called
    for this event.  From the next dispatch on it is not called. *)
Theorem X27_removed_during_dispatch
    (f g : Callback) (e : CustomEvent) (m : Machine W) :
  f <> g ->
  (forall m0, call f e m0
              = bind W (removeEventListener proto_has W (type e) g)
                  (fun _ => ret W false) m0) ->
  (forall m0, call g e m0 = (Returned false, m0)) ->
  on_handlers (this m) !! type e = None ->
  listeners (this m) !! type e = Some [f; g] ->
  defaultPrevented e = false ->
  let m1 := {| this := set_listeners (<[type e := [f]]> (listeners (this m))) (this m);
               world := world m;
               log := log m ++ [Dispatch e; Call f e; Call g e] |} in
  dispatchEvent e m = (Returned true, m1)
  /\ dispatchEvent e m1
     = (Returned true,
        {| this := this m1; world := world m1;
           log := log m1 ++ [Dispatch e; Call f e] |}).
Proof.
  intros Hfg Hf Hg Hh Hl Hp m1.
  assert (Hfilter : forall rest,
             List.filter (fun lis => negb (bool_decide (lis = g))) (f :: rest)
             = f :: List.filter (fun lis => negb (bool_decide (lis = g))) rest).
  { intros rest. cbn [List.filter].
    rewrite bool_decide_eq_false_2 by exact Hfg. reflexivity. }
  assert (Hcall : forall m0 cbs,
             listeners (this m0) !! type e = Some (f :: cbs) ->
             Reentrant.invoke W call f e m0
             = (Returned e,
                {| this := set_listeners
                             (<[type e := f :: List.filter
                                            (fun lis => negb (bool_decide (lis = g))) cbs]>
                                (listeners (this m0))) (this m0);
                   world := world m0; log := log m0 ++ [Call f e] |})).
  { intros m0 cbs Hl0. unfold Reentrant.invoke. unfold bind at 1, tell at 1.
    unfold bind at 1. rewrite Hf. unfold bind at 1.
    unfold removeEventListener. rewrite bind_get_this. cbn [this world log].
    unfold slot. rewrite Hl0, Hfilter. unfold update, ret.
    cbn [this world log]. rewrite (mark_false e Hp). reflexivity. }
  split.
  - rewrite (dispatch_listeners proto_has W call e [f; g] m Hh Hl).
    cbn [Reentrant.every]. unfold bind at 1.
    rewrite (Hcall {| this := this m; world := world m; log := log m ++ [Dispatch e] |}
               [g] Hl). rewrite Hp. cbn [List.filter].
    rewrite bool_decide_eq_true_2 by reflexivity. cbn [negb].
    unfold bind at 1. unfold Reentrant.invoke at 1. unfold bind at 1, tell at 1.
    unfold bind at 1. rewrite Hg. unfold ret. cbn [this world log].
    rewrite (mark_false e Hp), Hp. subst m1. rewrite <- !app_assoc. reflexivity.
  - assert (Hl1 : listeners (this m1) !! type e = Some [f])
      by (cbn; apply lookup_insert_eq).
    rewrite (dispatch_listeners proto_has W call e [f] m1 Hh Hl1).
    cbn [Reentrant.every]. unfold bind at 1.
    rewrite (Hcall {| this := this m1; world := world m1; log := log m1 ++ [Dispatch e] |}
               [] Hl1). rewrite Hp. unfold ret. cbn [List.filter this world log].
    subst m1. cbn [this world log listeners set_listeners].
    rewrite insert_insert_eq, <- !app_assoc. reflexivity.
Qed.

End ReentrantFacts.


Lemma X27_removed_during_dispatch_witness :
  let e := Scenario.next_event (u "x") in
  let r := Reentrant.dispatchEvent standard_proto unit Session.removes e
             Session.two_listeners in
  Engine.log (snd r) = [Dispatch e; Call 0%nat e; Call 1%nat e]
  /\ listeners (Engine.this (snd r)) !! u "next" = Some [0%nat].
Proof.
  intros e r. subst r.
  destruct (X27_removed_during_dispatch standard_proto unit Session.removes
              0%nat 1%nat e Session.two_listeners) as [H1 _];
    try (vm_compute; reflexivity).
  - discriminate.
  - rewrite H1. split; vm_compute; reflexivity.
Defined.


(** ** A listener that throws in the middle of an increment *)

Section Dropped.

Import Engine Wellformed.

Variable proto_has : jsstring -> bool.
Variable W : Type.
Variable behaviour : Callback -> CustomEvent -> W -> Result bool * W.

Local Abbreviation handle := (Engine.handle proto_has W behaviour).
Local Abbreviation ev := (event_of_chunk proto_has).

(** X28. When the first listener of a chunk's event throws, the exception
    leaves the progress callback at once.  The offset has already advanced
    past the whole increment, so the chunks that follow in the same
    increment are never parsed or dispatched, now or later; and the chunk
    that was being dispatched is still in the buffer, where the text of the
    next increment will be added to it. *)
Theorem X28_throwing_listener_drops_the_rest
    (x : XMLHttpRequest) (m : Machine W) (c : jsstring) (after : list jsstring)
    (f : Callback) (rest : list Callback) (exn : Exn) :
  xhr (this m) = true -> status x = 200%Z ->
  readyState (this m) <> CONNECTING ->
  chunk (this m) = [] ->
  substring_from (progress (this m)) (responseText x) = payload_of (c :: after) ->
  Forall complete_chunk (c :: after) ->
  on_handlers (this m) !! type (ev c) = None ->
  listeners (this m) !! type (ev c) = Some (f :: rest) ->
  (forall w, fst (behaviour f (ev c) w) = Thrown exn) ->
  exists w,
    handle (onprogress x) m
    = (Thrown exn,
       {| this := set_chunk c
                    (set_progress (progress (this m) + length (payload_of (c :: after)))
                       (this m));
          world := w;
          log := log m ++ [Dispatch (ev c); Call f (ev c)] |}).
Proof.
  intros Hx Hs Hr Hb Hdata Hc Hh Hl Hthrow.
  pose proof Hc as Hc'. apply Forall_cons in Hc' as [[_ Htrim] _].
  cbn [Engine.handle]. rewrite (onStreamProgress_unfold proto_has W behaviour x m Hx Hs).
  rewrite bool_decide_eq_false_2 by exact Hr.
  unfold bind at 1, ret at 1. rewrite bind_get_this, Hdata.
  unfold bind at 1, update at 1. cbn [this world log].
  rewrite split_payload
    by (eapply Forall_impl; [exact Hc|]; intros c' [H _]; exact H).
  set (s0 := set_progress (progress (this m) + length (payload_of (c :: after))) (this m)).
  cbn [flat_map app forEach]. unfold bind at 1. unfold Engine.on_part at 1.
  rewrite bind_get_this, (trim_nonempty_length c Htrim). cbn iota.
  unfold update at 1. cbn [this world log].
  change (chunk s0) with (chunk (this m)). rewrite Hb. cbn [app].
  unfold bind at 1. unfold Engine.on_part at 1.
  rewrite bind_get_this. change (length (trim [LF]) =? 0)%nat with true.
  cbn iota. cbn [this]. change (chunk (set_chunk c s0)) with c.
  rewrite (parse_trimmed proto_has c Htrim). unfold bind at 1.
  rewrite dispatchEvent_unfold. cbn [this world log].
  change (on_handlers (set_chunk c s0)) with (on_handlers (this m)). rewrite Hh.
  unfold slot. change (listeners (set_chunk c s0)) with (listeners (this m)).
  rewrite Hl. cbn [Engine.every]. unfold bind at 1.
  set (m1 := {| this := set_chunk c s0; world := world m;
                log := log m ++ [Dispatch (ev c)] |}).
  pose proof (Hthrow (world m1)) as Ht.
  destruct (behaviour f (ev c) (world m1)) as [r w] eqn:Hbeh. cbn [fst] in Ht. subst r.
  rewrite (invoke_thrown W behaviour f (ev c) m1 exn w Hbeh).
  exists w. subst m1. cbn [this log]. rewrite <- app_assoc. reflexivity.
Qed.

End Dropped.

Lemma X28_throwing_listener_witness :
  let c := u "event: next" ++ [LF] ++ u "data: a" in
  let text := Wellformed.payload_of [c; u "data: b"] in
  let r := Engine.handle standard_proto unit Session.failing
             (Engine.onprogress (Scenario.receiving text)) Session.open_with_listeners in
  fst r = Thrown (Raised 7)
  /\ Engine.data_events (Engine.log (snd r))
     = [new_CustomEvent (u "next") (Data (u "a") None)]
  /\ chunk (Engine.this (snd r)) = c
  /\ progress (Engine.this (snd r)) = length text.
Proof.
  intros c text r.
  destruct (X28_throwing_listener_drops_the_rest standard_proto unit Session.failing
              (Scenario.receiving text) Session.open_with_listeners
              c [u "data: b"] 0%nat [1%nat] (Raised 7)) as [w He];
    try (vm_compute; reflexivity).
  - vm_compute. discriminate.
  - repeat constructor; vm_compute; discriminate.
  - subst r. rewrite He. repeat split; vm_compute; reflexivity.
Defined.


(** ** Completion reported by the transport *)

Section Completion.

Import Engine.

Variable proto_has : jsstring -> bool.
Variable W : Type.
Variable behaviour : Callback -> CustomEvent -> W -> Result bool * W.

Local Abbreviation handle := (Engine.handle proto_has W behaviour).
Local Abbreviation close := (Engine.close proto_has W behaviour).

(** X29. When the transport reports that it is done, the ready-state
    callback sets the state to [CLOSED] and dispatches the one
    [readystatechange] event, and that is all: the transport stays attached
    and the buffer is kept.  A [close()] after that does nothing: the
    transport is neither aborted nor released.  A report of any other
    transport state changes nothing. *)
Theorem X29_done_closes_without_release (x : XMLHttpRequest) (m : Machine W) :
  xhr (this m) = true ->
  let m' := snd (handle (onreadystatechange x) m) in
  if (xhr_readyState x =? DONE)%Z
  then this m' = set_readyState CLOSED (this m)
       /\ dispatched (log m') = dispatched (log m) ++ [readystatechange_event CLOSED]
       /\ close m' = (Returned tt, m')
  else m' = m.
Proof.
  intros Hx. cbn zeta. cbn [Engine.handle]. unfold Engine._checkStreamClosed.
  rewrite bind_get_this, Hx. cbn [negb].
  destruct (xhr_readyState x =? DONE)%Z; [|reflexivity].
  rewrite (setReadyState_dispatch proto_has W behaviour).
  destruct (dispatchEvent_log proto_has W behaviour (readystatechange_event CLOSED)
              {| this := set_readyState CLOSED (this m); world := world m; log := log m |})
    as [Ht (calls & Hl & Hc)].
  cbn [this log] in Ht, Hl. split; [exact Ht|]. split.
  - rewrite Hl, dispatched_app.
    change (dispatched (Dispatch (readystatechange_event CLOSED) :: calls))
      with (readystatechange_event CLOSED :: dispatched calls).
    rewrite (dispatched_calls calls Hc). reflexivity.
  - apply close_closed. rewrite Ht. reflexivity.
Qed.

End Completion.

Lemma X29_done_witness :
  let m' := snd (Engine.handle standard_proto unit Scenario.silent
                   (Engine.onreadystatechange (Scenario.complete (u "data:b")))
                   Scenario.started) in
  readyState (Engine.this m') = CLOSED
  /\ xhr (Engine.this m') = true
  /\ Engine.close standard_proto unit Scenario.silent m' = (Returned tt, m').
Proof.
  intros m'.
  pose proof (X29_done_closes_without_release standard_proto unit Scenario.silent
                (Scenario.complete (u "data:b")) Scenario.started eq_refl) as H.
  cbn zeta in H. change (xhr_readyState (Scenario.complete (u "data:b")) =? DONE)%Z
    with true in H. cbn iota in H. destruct H as (Ht & _ & Hc).
  subst m'. split; [rewrite Ht; reflexivity|]. split; [rewrite Ht; reflexivity|exact Hc].
Defined.
